(** * Critical Path Method analysis ([cpm.py]): a shallow embedding

    The script reads a semicolon-separated schedule with pandas, derives
    the successor column, runs a forward pass ([calculate_es_ef]), a
    backward pass ([calculate_ls_lf]), computes slack and the critical
    flag ([calculate_slack]) and prints the critical tasks
    ([print_critical_path]).

    Modelling choices, all taken from the source:
    - a [DataFrame] is the list of its rows; the index label of a row is
      its position ([read_csv] builds a [RangeIndex]), and [iterrows]
      pairs each row with its label;
    - the four name-keyed dictionaries are [gmap string _];
    - the numbers follow the dtype pandas gives the [Duration] column.
      When every duration in the file is written as an integer the
      column is [int64]: the loops read the durations back from the rows
      as Python integers, whose arithmetic is exact, and the columns built from the
      dictionaries are [int64] as long as every figure fits. [Row] and
      the definitions that follow it are the script on such a frame, with
      [Z] for the integers and [option Z] for a cell that pandas may fill
      with [NaN] ([None] is [NaN]); they describe the script while the
      figures fit [int64] ([fits_int64]), and the theorems that need a
      sum or a difference of figures to be exact carry that hypothesis.
      When a duration has a
      fractional part (or is written with a decimal point) the column is
      [float64] and all arithmetic is binary64: the module [Binary64] is the script on such a frame;
    - each [while not remaining.empty] loop is run with fuel: one unit of
      fuel is one iteration of the [while]; [None] means that the fuel
      ran out before the loop left. *)

From stdpp Require Import gmap strings list fin_maps relations sorting.
From Stdlib Require Import ZArith Lia Ascii Floats.

Open Scope Z_scope.

(** ** Data model *)

(** A cell of a numeric column of a frame whose durations are integers:
    an integer, or [NaN] ([None]). *)
Abbreviation cell := (option Z).

(** One line of the CSV file as [pd.read_csv] delivers it when every
    duration in the file is written as an integer (the [Duration] column
    is then [int64]; [Binary64.CsvRow] is the line of a file with
    fractional durations): an empty [Predecessors] field is read as [NaN] ([None]
    here). *)
Record CsvRow := mkCsvRow {
  csv_Task : string;
  csv_Duration : Z;
  csv_Predecessors : option string
}.

(** One row of the prepared [DataFrame], the [Duration] column being
    [int64] ([Binary64.Row] is the row of a [float64] frame). *)
Record Row := mkRow {
  Task : string;
  Duration : Z;
  Predecessors : list string;
  ES : cell;
  EF : cell;
  LS : cell;
  LF : cell;
  Slack : cell;
  Critical : bool;
  Successors : list string
}.

(** A frame is the list of its rows, in file order. *)
Abbreviation DataFrame := (list Row).

(** [df.iterrows()]: every row with its index label. *)
Definition iterrows (df : DataFrame) : list (nat * Row) :=
  imap (λ i row, (i, row)) df.

(** [remaining.drop(i)]: removes the rows labelled [i]. *)
Definition drop_label (i : nat) (remaining : list (nat * Row)) : list (nat * Row) :=
  filter (λ ir, ir.1 ≠ i) remaining.

(** ** Python and pandas primitives *)

(** [x.split(",")]: Python keeps empty fields. *)
Fixpoint split (sep : Ascii.ascii) (s : string) : list string :=
  match s with
  | EmptyString => [EmptyString]
  | String c s' =>
      if Ascii.eqb c sep then EmptyString :: split sep s'
      else match split sep s' with
           | [] => [String c EmptyString]
           | t :: ts => String c t :: ts
           end
  end.

(** [sep.join(items)]. *)
Fixpoint join (sep : string) (items : list string) : string :=
  match items with
  | [] => EmptyString
  | [x] => x
  | x :: rest => x +:+ sep +:+ join sep rest
  end.

(** Python's [max] on a non-empty list of integers: keeps the running
    maximum and replaces it when an item is greater. *)
Definition py_max (x : Z) (xs : list Z) : Z :=
  foldl (λ m y, if bool_decide (m < y) then y else m) x xs.

(** [<] on cells: every comparison with [NaN] is false. *)
Definition cell_lt (a b : cell) : bool :=
  match a, b with
  | Some x, Some y => bool_decide (x < y)
  | _, _ => false
  end.

(** Python's [min] on a non-empty list of cells. *)
Definition py_min (x : cell) (xs : list cell) : cell :=
  foldl (λ m y, if cell_lt y m then y else m) x xs.

(** [c - d] for a cell and an integer; [NaN] propagates. *)
Definition cell_sub_int (c : cell) (d : Z) : cell := (λ x, x - d) <$> c.

(** Element of [df["LS"] - df["ES"]] for two [int64] columns whose
    difference fits [int64]; [NaN] propagates. *)
Definition cell_sub (a b : cell) : cell :=
  match a, b with
  | Some x, Some y => Some (x - y)
  | _, _ => None
  end.

(** [Series.max()]: skips [NaN]; [NaN] when nothing is left. *)
Definition col_max (col : list cell) : cell :=
  match omap id col with
  | [] => None
  | x :: xs => Some (py_max x xs)
  end.

(** ** [load_and_prepare_data] (after [pd.read_csv]) *)

(** [df["Predecessors"].fillna("").apply(lambda x: x.split(",") if x else [])] *)
Definition parse_predecessors (field : option string) : list string :=
  match default EmptyString field with
  | EmptyString => []
  | x => split ","%char x
  end.

(** The loop that fills [successors_map]:
    [successors_map.setdefault(pred, []).append(row["Task"])]. *)
Definition add_successor (task : string) (m : gmap string (list string)) (pred : string)
  : gmap string (list string) :=
  <[pred := default [] (m !! pred) ++ [task]]> m.

Definition build_successors_map (rows : list (string * list string))
  : gmap string (list string) :=
  foldl (λ m row, foldl (add_successor row.1) m row.2) ∅ rows.

Definition load_and_prepare_data (csv : list CsvRow) : DataFrame :=
  let parsed := (λ c, (csv_Task c, csv_Duration c, parse_predecessors (csv_Predecessors c))) <$> csv in
  let successors_map := build_successors_map ((λ r, (r.1.1, r.2)) <$> parsed) in
  (λ r, {| Task := r.1.1; Duration := r.1.2; Predecessors := r.2;
           ES := Some 0; EF := Some 0; LS := Some 0; LF := Some 0;
           Slack := Some 0; Critical := false;
           Successors := default [] (successors_map !! r.1.1) |}) <$> parsed.

(** ** The sweep loop shared by both passes

    Both passes are written as
    [while not remaining.empty: for i, row in remaining.iterrows():
       if <ready>: <store>; remaining = remaining.drop(i); break].
    One iteration of the [while] looks for the first ready row; when there
    is none the [for] ends without a [break] and nothing has changed. *)
Section sweep.
Context {St : Type}.
Variable ready : St → Row → bool.
Variable store : St → Row → St.

Definition sweep (st : St) (remaining : list (nat * Row)) : St * list (nat * Row) :=
  match find (λ ir, ready st ir.2) remaining with
  | Some (i, row) => (store st row, drop_label i remaining)
  | None => (st, remaining)
  end.

Fixpoint while_remaining (fuel : nat) (st : St) (remaining : list (nat * Row)) : option St :=
  match remaining with
  | [] => Some st
  | _ :: _ =>
      match fuel with
      | O => None
      | S fuel' =>
          let '(st', remaining') := sweep st remaining in
          while_remaining fuel' st' remaining'
      end
  end.

(** The rows in the order in which the loop runs the body of its [if]:
    the order of the stores into the dictionaries. *)
Fixpoint store_order (fuel : nat) (st : St) (remaining : list (nat * Row)) : list Row :=
  match remaining with
  | [] => []
  | _ :: _ =>
      match fuel with
      | O => []
      | S fuel' =>
          match find (λ ir, ready st ir.2) remaining with
          | Some (i, row) => row :: store_order fuel' (store st row) (drop_label i remaining)
          | None => store_order fuel' st remaining
          end
      end
  end.
End sweep.

(** ** [calculate_es_ef] *)

(** [all(p in ef_dict for p in row["Predecessors"])] *)
Definition es_ef_ready (st : gmap string Z * gmap string Z) (row : Row) : bool :=
  forallb (λ p, bool_decide (is_Some (st.2 !! p))) (Predecessors row).

(** [max([ef_dict[p] for p in row["Predecessors"]]) if row["Predecessors"] else 0] *)
Definition early_start (ef_dict : gmap string Z) (row : Row) : Z :=
  match (λ p, ef_dict !!! p) <$> Predecessors row with
  | [] => 0
  | x :: xs => py_max x xs
  end.

Definition es_ef_store (st : gmap string Z * gmap string Z) (row : Row)
  : gmap string Z * gmap string Z :=
  let es := early_start st.2 row in
  let ef := es + Duration row in
  (<[Task row := es]> st.1, <[Task row := ef]> st.2).

Definition set_ES_EF (es ef : cell) (row : Row) : Row :=
  {| Task := Task row; Duration := Duration row; Predecessors := Predecessors row;
     ES := es; EF := ef; LS := LS row; LF := LF row;
     Slack := Slack row; Critical := Critical row; Successors := Successors row |}.

(** The dictionaries [(es_dict, ef_dict)] when the loop leaves. *)
Definition es_ef_loop (fuel : nat) (df : DataFrame) : option (gmap string Z * gmap string Z) :=
  while_remaining es_ef_ready es_ef_store fuel (∅, ∅) (iterrows df).

(** [df["ES"] = df["Task"].map(es_dict)], and the same for [EF]: a task
    missing from the dictionary is mapped to [NaN]. *)
Definition calculate_es_ef (fuel : nat) (df : DataFrame) : option DataFrame :=
  '(es_dict, ef_dict) ← es_ef_loop fuel df;
  Some ((λ row, set_ES_EF (es_dict !! Task row) (ef_dict !! Task row) row) <$> df).

(** ** [calculate_ls_lf] *)

(** The first loop: [lf_dict[row["Task"]] = project_finish] for every row
    without successors. *)
Definition seed_lf (project_finish : cell) (df : DataFrame) : gmap string cell :=
  foldl (λ lf row, match Successors row with
                   | [] => <[Task row := project_finish]> lf
                   | _ :: _ => lf
                   end) ∅ df.

(** [all(s in ls_dict for s in row["Successors"])] *)
Definition ls_lf_ready (st : gmap string cell * gmap string cell) (row : Row) : bool :=
  forallb (λ s, bool_decide (is_Some (st.1 !! s))) (Successors row).

(** [min([ls_dict[s] for s in row["Successors"]]) if row["Successors"] else project_finish] *)
Definition late_finish (project_finish : cell) (ls_dict : gmap string cell) (row : Row) : cell :=
  match (λ s, ls_dict !!! s) <$> Successors row with
  | [] => project_finish
  | x :: xs => py_min x xs
  end.

Definition ls_lf_store (project_finish : cell) (st : gmap string cell * gmap string cell)
    (row : Row) : gmap string cell * gmap string cell :=
  let lf := late_finish project_finish st.1 row in
  let ls := cell_sub_int lf (Duration row) in
  (<[Task row := ls]> st.1, <[Task row := lf]> st.2).

Definition set_LS_LF (ls lf : cell) (row : Row) : Row :=
  {| Task := Task row; Duration := Duration row; Predecessors := Predecessors row;
     ES := ES row; EF := EF row; LS := ls; LF := lf;
     Slack := Slack row; Critical := Critical row; Successors := Successors row |}.

(** [df["EF"].max()] *)
Definition project_finish (df : DataFrame) : cell := col_max (EF <$> df).

(** The dictionaries [(ls_dict, lf_dict)] when the loop leaves. *)
Definition ls_lf_loop (fuel : nat) (df : DataFrame)
  : option (gmap string cell * gmap string cell) :=
  let pf := project_finish df in
  while_remaining ls_lf_ready (ls_lf_store pf) fuel (∅, seed_lf pf df) (iterrows df).

(** A cell stored in a dictionary and read back by [Series.map]: a missing
    key gives [NaN]. *)
Definition calculate_ls_lf (fuel : nat) (df : DataFrame) : option DataFrame :=
  '(ls_dict, lf_dict) ← ls_lf_loop fuel df;
  Some ((λ row, set_LS_LF (mjoin (ls_dict !! Task row)) (mjoin (lf_dict !! Task row)) row) <$> df).

(** ** [calculate_slack] and [print_critical_path] *)

Definition set_Slack_Critical (slack : cell) (critical : bool) (row : Row) : Row :=
  {| Task := Task row; Duration := Duration row; Predecessors := Predecessors row;
     ES := ES row; EF := EF row; LS := LS row; LF := LF row;
     Slack := slack; Critical := critical; Successors := Successors row |}.

(** [df["Slack"] = df["LS"] - df["ES"]; df["Critical"] = df["Slack"] == 0],
    on [int64] columns: the figures are integers below [2 ^ 63] (see
    [fits_int64]; a column with a larger figure is not [int64], and
    pandas then subtracts in another dtype). *)
Definition calculate_slack (df : DataFrame) : DataFrame :=
  (λ row, let slack := cell_sub (LS row) (ES row) in
          set_Slack_Critical slack (bool_decide (slack = Some 0)) row) <$> df.

(** [df[df["Critical"]]["Task"].tolist()] *)
Definition critical_tasks (df : DataFrame) : list string :=
  Task <$> filter (λ row, Critical row = true) df.

(** The returned [path_str]. *)
Definition print_critical_path (df : DataFrame) : string :=
  join " -> " (critical_tasks df).

(** ** The script's pipeline *)
Definition run_cpm (fuel : nat) (csv : list CsvRow) : option DataFrame :=
  let df := load_and_prepare_data csv in
  df ← calculate_es_ef fuel df;
  df ← calculate_ls_lf fuel df;
  Some (calculate_slack df).

(** ** Well-formed schedules *)

(** The [Task] column. *)
Definition names (df : DataFrame) : list string := Task <$> df.

Definition unique_names (df : DataFrame) : Prop := NoDup (names df).

(** Every predecessor token is the name of some row. *)
Definition resolvable (df : DataFrame) : Prop :=
  ∀ row p, row ∈ df → p ∈ Predecessors row → p ∈ names df.

Definition nonneg_durations (df : DataFrame) : Prop :=
  ∀ row, row ∈ df → 0 ≤ Duration row.

(** [dep_edge deps df p n]: some row named [n] lists [p] in its [deps]
    column. With [deps := Predecessors] this is the precedence graph (an
    edge from a predecessor to the activity), with [deps := Successors]
    the graph the backward pass walks. *)
Definition dep_edge (deps : Row → list string) (df : DataFrame) (p n : string) : Prop :=
  ∃ row, row ∈ df ∧ Task row = n ∧ p ∈ deps row.

Definition pred_edge := dep_edge Predecessors.
Definition succ_edge := dep_edge Successors.

(** A cycle: a name that reaches itself through at least one edge. *)
Definition has_cycle (df : DataFrame) : Prop := ∃ n, tc (pred_edge df) n n.
Definition acyclic (df : DataFrame) : Prop := ∀ n, ¬ tc (pred_edge df) n n.

(** A valid acyclic activity set: unique names, resolvable predecessors,
    non-negative durations, no cycle. *)
Record valid_acyclic (df : DataFrame) : Prop := {
  va_unique : unique_names df;
  va_resolvable : resolvable df;
  va_nonneg : nonneg_durations df;
  va_acyclic : acyclic df
}.

(** The [Successors] column is the inverse of the [Predecessors] column. *)
Definition successors_consistent (df : DataFrame) : Prop :=
  ∀ row s, row ∈ df → s ∈ Successors row ↔ pred_edge df (Task row) s.

(** A column update that leaves the schedule columns alone. *)
Definition same_schedule (g : Row → Row) : Prop :=
  ∀ row, Task (g row) = Task row ∧ Duration (g row) = Duration row ∧
         Predecessors (g row) = Predecessors row ∧ Successors (g row) = Successors row.



(** A walk [n → w1 → ... → wk → n] along the edges, checked on a concrete
    schedule, exhibits a cycle. *)
Definition edgeb (df : DataFrame) (p n : string) : bool :=
  existsb (λ row, bool_decide (Task row = n) && bool_decide (p ∈ Predecessors row)) df.

Fixpoint walkb (df : DataFrame) (n : string) (walk : list string) : bool :=
  match walk with
  | [] => true
  | m :: rest => edgeb df n m && walkb df m rest
  end.

Definition cycle_walkb (df : DataFrame) (n : string) (walk : list string) : bool :=
  walkb df n (walk ++ [n]).

(** A numbering of the names that grows along every edge certifies that
    there is no cycle; [ranked] is the check, run on concrete schedules. *)
Definition ranked (rank : string → nat) (df : DataFrame) : bool :=
  forallb (λ row, forallb (λ p, bool_decide (rank p < rank (Task row))%nat)
                          (Predecessors row)) df.

(** The checks behind [resolvable] and [valid_acyclic], for concrete
    schedules. *)
Definition resolvableb (df : DataFrame) : bool :=
  forallb (λ row, forallb (λ p, bool_decide (p ∈ names df)) (Predecessors row)) df.

Definition valid_acyclicb (rank : string → nat) (df : DataFrame) : bool :=
  bool_decide (NoDup (names df))
  && resolvableb df
  && forallb (λ row, bool_decide (0 ≤ Duration row)) df
  && ranked rank df.

(** ** Loop invariants *)

(** [I] is kept by the body of the [if]. *)
Definition sweep_preserves {St : Type} (ready : St → Row → bool) (store : St → Row → St)
    (I : St → list (nat * Row) → Prop) : Prop :=
  ∀ st remaining i row,
    I st remaining → (i, row) ∈ remaining → ready st row = true →
    I (store st row) (drop_label i remaining).

(** Every row of the frame is still remaining or has its name resolved. *)
Definition pending {St : Type} (resolved : St → string → bool) (df : DataFrame)
    (st : St) (remaining : list (nat * Row)) : Prop :=
  (∀ ir, ir ∈ remaining → ir ∈ iterrows df) ∧
  (∀ ir, ir ∈ iterrows df → ir ∈ remaining ∨ resolved st (Task ir.2) = true).

(** The names the forward loop has resolved: the keys of [ef_dict]. *)
Definition es_ef_resolved (st : gmap string Z * gmap string Z) (p : string) : bool :=
  bool_decide (is_Some (st.2 !! p)).

(** Invariant of the forward loop: rows still remaining have no entry
    yet; a row with an entry had all its predecessors resolved, and its
    entries are the ones the formulas give on the current dictionaries. *)
Definition es_ef_inv (df : DataFrame) (st : gmap string Z * gmap string Z)
    (remaining : list (nat * Row)) : Prop :=
  pending es_ef_resolved df st remaining ∧
  (∀ ir, ir ∈ remaining → st.2 !! Task ir.2 = None) ∧
  (∀ row, row ∈ df → is_Some (st.2 !! Task row) →
     (∀ p, p ∈ Predecessors row → is_Some (st.2 !! p)) ∧
     st.1 !! Task row = Some (early_start st.2 row) ∧
     st.2 !! Task row = Some (early_start st.2 row + Duration row)).

(** The names the backward loop has resolved: the keys of [ls_dict]. *)
Definition ls_lf_resolved (st : gmap string cell * gmap string cell) (s : string) : bool :=
  bool_decide (is_Some (st.1 !! s)).

(** Invariant of the backward loop, [finish] being the project finish:
    rows still remaining have no entry yet; a row with an entry has
    integer late times, [LF = LS + Duration], a late start no earlier
    than its early start and, when no duration is negative, a late
    finish no later than the project finish. *)
Definition ls_lf_inv (df : DataFrame) (finish : Z)
    (st : gmap string cell * gmap string cell) (remaining : list (nat * Row)) : Prop :=
  pending ls_lf_resolved df st remaining ∧
  (∀ ir, ir ∈ remaining → st.1 !! Task ir.2 = None) ∧
  (∀ row, row ∈ df → is_Some (st.1 !! Task row) →
     ∃ l e, ES row = Some e ∧
            st.1 !! Task row = Some (Some l) ∧
            st.2 !! Task row = Some (Some (l + Duration row)) ∧
            e ≤ l ∧
            (nonneg_durations df → l + Duration row ≤ finish)).

(** What the finished table holds in one row, [finish] being the scalar
    [project_finish] handed to the backward pass. *)
Definition row_scheduled (finish : cell) (row : Row) : Prop :=
  ∃ e l f,
    ES row = Some e ∧ EF row = Some (e + Duration row) ∧
    LS row = Some l ∧ LF row = Some (l + Duration row) ∧
    Slack row = Some (l - e) ∧ Critical row = bool_decide (l - e = 0) ∧
    finish = Some f ∧ e ≤ l ∧ e + Duration row ≤ f ∧ l + Duration row ≤ f.

(** [B] is a set of names that block one another: while none of them has
    an entry, the rows they name stay in [remaining]. *)
Definition blocked_inv (df : DataFrame) (B : string → Prop)
    (st : gmap string Z * gmap string Z) (remaining : list (nat * Row)) : Prop :=
  (∀ ir, ir ∈ remaining → ir ∈ iterrows df) ∧
  (∀ n, B n → st.2 !! n = None) ∧
  (∀ ir, ir ∈ iterrows df → B (Task ir.2) → ir ∈ remaining).

(** While the name [p] has no entry, the row [row] labelled [i], which
    lists [p], stays in [remaining]. *)
Definition dangling_inv (df : DataFrame) (i : nat) (row : Row) (p : string)
    (st : gmap string Z * gmap string Z) (remaining : list (nat * Row)) : Prop :=
  (∀ ir, ir ∈ remaining → ir ∈ iterrows df) ∧
  st.2 !! p = None ∧
  (i, row) ∈ remaining.

(** ** Values stored last under a name *)

(** The early times of the output row [r] are the ones written by the
    last store of the forward loop under the name of [r], computed from
    the dictionary as it was just before that store. *)
Definition last_stored_early (log : list Row) (r : Row) : Prop :=
  ∃ before row after,
    log = before ++ row :: after ∧ Task row = Task r ∧
    (∀ r', r' ∈ after → Task r' ≠ Task r) ∧
    let ef_dict := (foldl es_ef_store (∅, ∅) before).2 in
    ES r = Some (early_start ef_dict row) ∧
    EF r = Some (early_start ef_dict row + Duration row).

(** The same for the late times and the backward loop, started from the
    seeded [lf_dict]. *)
Definition last_stored_late (pf : cell) (lf0 : gmap string cell) (log : list Row)
    (r : Row) : Prop :=
  ∃ before row after,
    log = before ++ row :: after ∧ Task row = Task r ∧
    (∀ r', r' ∈ after → Task r' ≠ Task r) ∧
    let ls_dict := (foldl (ls_lf_store pf) (∅, lf0) before).1 in
    LF r = late_finish pf ls_dict row ∧
    LS r = cell_sub_int (late_finish pf ls_dict row) (Duration row).

(** Second invariant of the backward loop, [pf] being the project finish
    cell: a row with an entry had all its successors resolved, and its
    entries are the ones the formulas give on the current dictionaries. *)
Definition ls_lf_eq_inv (df : DataFrame) (pf : cell)
    (st : gmap string cell * gmap string cell) (remaining : list (nat * Row)) : Prop :=
  pending ls_lf_resolved df st remaining ∧
  (∀ ir, ir ∈ remaining → st.1 !! Task ir.2 = None) ∧
  (∀ row, row ∈ df → is_Some (st.1 !! Task row) →
     (∀ s, s ∈ Successors row → is_Some (st.1 !! s)) ∧
     st.2 !! Task row = Some (late_finish pf st.1 row) ∧
     st.1 !! Task row = Some (cell_sub_int (late_finish pf st.1 row) (Duration row))).

(** The row of the finished table, read off the four dictionaries the
    two loops return. *)
Definition table_row (es ef : gmap string Z) (ls lf : gmap string cell) (row : Row) : Row :=
  let slack := cell_sub (mjoin (ls !! Task row)) (es !! Task row) in
  {| Task := Task row; Duration := Duration row; Predecessors := Predecessors row;
     ES := es !! Task row; EF := ef !! Task row;
     LS := mjoin (ls !! Task row); LF := mjoin (lf !! Task row);
     Slack := slack; Critical := bool_decide (slack = Some 0);
     Successors := Successors row |}.

(** What the four dictionaries hold for one row of the frame when both
    loops have left, [pf] being the project finish cell. *)
Definition row_solved (df : DataFrame) (es ef : gmap string Z) (ls lf : gmap string cell)
    (pf : cell) (row : Row) : Prop :=
  (∀ p, p ∈ Predecessors row → is_Some (ef !! p)) ∧
  es !! Task row = Some (early_start ef row) ∧
  ef !! Task row = Some (early_start ef row + Duration row) ∧
  (∀ s, s ∈ Successors row → is_Some (ls !! s)) ∧
  ∃ l f, pf = Some f ∧
         ls !! Task row = Some (Some l) ∧
         lf !! Task row = Some (Some (l + Duration row)) ∧
         late_finish (Some f) ls row = Some (l + Duration row) ∧
         early_start ef row ≤ l ∧
         early_start ef row + Duration row ≤ f ∧
         (nonneg_durations df → l + Duration row ≤ f).

(** The mirror of [blocked_inv] for the backward loop: while none of the
    names in [B] has an entry in [ls_dict], the rows they name stay in
    [remaining]. *)
Definition blocked_late_inv (df : DataFrame) (B : string → Prop)
    (st : gmap string cell * gmap string cell) (remaining : list (nat * Row)) : Prop :=
  (∀ ir, ir ∈ remaining → ir ∈ iterrows df) ∧
  (∀ n, B n → st.1 !! n = None) ∧
  (∀ ir, ir ∈ iterrows df → B (Task ir.2) → ir ∈ remaining).

(** ** The [activities] dictionary and the columns of the export *)

(** [{row["Task"]: {"duration": row["Duration"], "predecessors":
    row["Predecessors"]} for _, row in df.iterrows()}]: the comprehension
    writes the rows in order, so a later row replaces an earlier one with
    the same name. *)
Definition activities (df : DataFrame) : gmap string (Z * list string) :=
  foldl (λ m row, <[Task row := (Duration row, Predecessors row)]> m) ∅ df.

(** A cell of the [Predecessors] or [Successors] column as
    [export_cpm_to_csv] may find it: a list, or already a string. *)
Inductive NamesCell :=
  | NamesList (l : list string)
  | NamesStr (s : string).

(** [",".join(x) if isinstance(x, list) else str(x)] *)
Definition render_names (x : NamesCell) : string :=
  match x with
  | NamesList l => join "," l
  | NamesStr s => s
  end.

(** One row of the frame [export_cpm_to_csv] hands to [to_csv]: the two
    name columns are strings, the other columns are untouched. *)
Record ExportRow := mkExportRow {
  out_Task : string;
  out_Duration : Z;
  out_Predecessors : string;
  out_ES : cell;
  out_EF : cell;
  out_LS : cell;
  out_LF : cell;
  out_Slack : cell;
  out_Critical : bool;
  out_Successors : string
}.

(** The two column conversions of [export_cpm_to_csv], on a frame whose
    name columns still hold lists. *)
Definition export_columns (df : DataFrame) : list ExportRow :=
  (λ row, {| out_Task := Task row; out_Duration := Duration row;
             out_Predecessors := render_names (NamesList (Predecessors row));
             out_ES := ES row; out_EF := EF row; out_LS := LS row; out_LF := LF row;
             out_Slack := Slack row; out_Critical := Critical row;
             out_Successors := render_names (NamesList (Successors row)) |}) <$> df.

(** The names of the rows that list [t] as a predecessor, in row order,
    once for every time [t] occurs in a row's list. *)
Definition listed_by (df : DataFrame) (t : string) : list string :=
  df ≫= λ row, Predecessors row ≫= λ p, if decide (p = t) then [Task row] else [].

(** The input columns of a row. *)
Definition core (row : Row) : string * Z * list string :=
  (Task row, Duration row, Predecessors row).

(** A chain of rows: each row lists the name of the row before it. *)
Fixpoint chained (path : list Row) : Prop :=
  match path with
  | [] => True
  | r :: rest =>
      match rest with
      | [] => True
      | r' :: _ => Task r ∈ Predecessors r'
      end ∧ chained rest
  end.

(** The durations along a chain, added up. *)
Definition total_duration (path : list Row) : Z :=
  foldr (λ r acc, Duration r + acc) 0 path.

(** The characters of a string. *)
Definition chars (s : string) : list Ascii.ascii := String.list_ascii_of_string s.

(** ** The scenarios of the documentation *)

Definition chain_csv : list CsvRow :=
  [ mkCsvRow "A" 3 None; mkCsvRow "B" 2 (Some "A"); mkCsvRow "C" 4 (Some "B") ].

Definition branches_csv : list CsvRow :=
  [ mkCsvRow "A" 2 None; mkCsvRow "B" 5 (Some "A");
    mkCsvRow "C" 1 (Some "A"); mkCsvRow "D" 1 (Some "B,C") ].

(** Rows given out of early-start order: [B] waits for [A]. *)
Definition unsorted_csv : list CsvRow :=
  [ mkCsvRow "B" 2 (Some "A"); mkCsvRow "A" 3 None ].

Definition unsorted_rank (n : string) : nat :=
  if String.eqb n "A" then 0%nat else 1%nat.

(** [A] depends on [B] and [B] depends on [A]. *)
Definition cyclic_csv : list CsvRow :=
  [ mkCsvRow "A" 1 (Some "B"); mkCsvRow "B" 1 (Some "A") ].

(** [B] lists [X], which is no row. *)
Definition dangling_csv : list CsvRow :=
  [ mkCsvRow "A" 3 None; mkCsvRow "B" 2 (Some "X") ].

(** Two rows named [A]. *)
Definition duplicate_csv : list CsvRow :=
  [ mkCsvRow "A" 1 None; mkCsvRow "A" 5 None; mkCsvRow "B" 1 (Some "A") ].

Definition duplicate_rank (n : string) : nat :=
  if String.eqb n "A" then 0%nat else 1%nat.

(** Two rows named [A], and [B] lists [X], which is no row. *)
Definition duplicate_dangling_csv : list CsvRow :=
  [ mkCsvRow "A" 1 None; mkCsvRow "A" 5 None; mkCsvRow "B" 1 (Some "X") ].

(** Two rows named [A], both waiting for [B], which waits for [A]. *)
Definition duplicate_cyclic_csv : list CsvRow :=
  [ mkCsvRow "A" 1 (Some "B"); mkCsvRow "A" 1 (Some "B"); mkCsvRow "B" 1 (Some "A") ].

(** A row with a negative duration: [S] lasts -2 and waits for [A]. *)
Definition negative_csv : list CsvRow :=
  [ mkCsvRow "A" 5 None; mkCsvRow "S" (-2) (Some "A") ].

(** A numbering for [branches_csv]. *)
Definition branches_rank (n : string) : nat :=
  if String.eqb n "A" then 0%nat else if String.eqb n "D" then 2%nat else 1%nat.

Definition summary (df : DataFrame) : list (string * cell * cell * cell * cell * cell * bool) :=
  (λ row, (Task row, ES row, EF row, LS row, LF row, Slack row, Critical row)) <$> df.


(** ** Integer durations and [int64] columns

    [pd.read_csv] types a [Duration] column of integers [int64], and
    [Series.map] builds [int64] columns from the Python integers of the
    dictionaries as long as every one of them fits. The figures of the
    two passes are sums and differences of durations along chains of
    distinct rows, so none of them is larger in absolute value than the
    absolute durations added up. While that total is below [2 ^ 63] every
    column of the table is [int64] and no operation wraps or changes the
    dtype: the integer arithmetic of [Row] is then the arithmetic of the
    script. Beyond it pandas and NumPy change the dtype of a column
    ([uint64], [object] or [float64]) and the table is outside what
    [Row] describes. *)
Definition int64 (z : Z) : Prop := - 2 ^ 63 ≤ z < 2 ^ 63.

Definition durations_total (csv : list CsvRow) : Z :=
  foldr (λ c acc, Z.abs (csv_Duration c) + acc) 0 csv.

Definition fits_int64 (csv : list CsvRow) : Prop := durations_total csv < 2 ^ 63.

(** Durations 2^62, 2^62 and 2^62 - 2: every duration is an [int64], the
    early finish of [B] is not. *)
Definition huge_csv : list CsvRow :=
  [ mkCsvRow "A" (2 ^ 62) None; mkCsvRow "B" (2 ^ 62) (Some "A");
    mkCsvRow "C" (2 ^ 62 - 2) (Some "A") ].

(** ** The script on a [float64] [Duration] column

    [pd.read_csv] types the [Duration] column [int64] when every duration
    in the file is written as an integer, and [float64] as soon as one of
    them has a fractional part. On a [float64] column the rows hand Python
    floats to the loops, [df["EF"].max()] is a [float64] scalar, and every
    sum, difference and comparison of the two passes and of
    [calculate_slack] is a binary64 operation that rounds to nearest.
    The module [Binary64] is the script on such a frame: the same loops
    and formulas as above, line by line, with [float] for [Z] and the
    float [nan] for [NaN]. (The literal [0] of the forward pass is a
    Python integer; added to a float, or stored in a [float64] column, it
    is the float [0].) *)
Module Binary64.

(** A cell of a [float64] column. *)
Abbreviation cell := float.

#[global] Instance float_inhabited : Inhabited float := populate nan.

(** One line of the CSV file as [pd.read_csv] delivers it; the duration
    is the binary64 number nearest to the decimal in the file. *)
Record CsvRow := mkCsvRow {
  csv_Task : string;
  csv_Duration : float;
  csv_Predecessors : option string
}.

(** One row of the prepared [DataFrame]. *)
Record Row := mkRow {
  Task : string;
  Duration : float;
  Predecessors : list string;
  ES : cell;
  EF : cell;
  LS : cell;
  LF : cell;
  Slack : cell;
  Critical : bool;
  Successors : list string
}.

Abbreviation DataFrame := (list Row).

(** [df.iterrows()] *)
Definition iterrows (df : DataFrame) : list (nat * Row) :=
  imap (λ i row, (i, row)) df.

(** [remaining.drop(i)] *)
Definition drop_label (i : nat) (remaining : list (nat * Row)) : list (nat * Row) :=
  filter (λ ir, ir.1 ≠ i) remaining.

(** Python's [max] on a non-empty list of floats: the running maximum is
    replaced when an item is greater. *)
Definition py_max (x : float) (xs : list float) : float :=
  foldl (λ m y, if (m <? y)%float then y else m) x xs.

(** Python's [min] on a non-empty list of floats. *)
Definition py_min (x : float) (xs : list float) : float :=
  foldl (λ m y, if (y <? m)%float then y else m) x xs.

(** [Series.max()]: skips [NaN]; [NaN] when nothing is left. *)
Definition col_max (col : list cell) : cell :=
  match filter (λ c, is_nan c = false) col with
  | [] => nan
  | x :: xs => py_max x xs
  end.

(** [load_and_prepare_data]: the new numeric columns are filled with [0]. *)
Definition load_and_prepare_data (csv : list CsvRow) : DataFrame :=
  let parsed := (λ c, (csv_Task c, csv_Duration c, parse_predecessors (csv_Predecessors c))) <$> csv in
  let successors_map := build_successors_map ((λ r, (r.1.1, r.2)) <$> parsed) in
  (λ r, {| Task := r.1.1; Duration := r.1.2; Predecessors := r.2;
           ES := 0%float; EF := 0%float; LS := 0%float; LF := 0%float;
           Slack := 0%float; Critical := false;
           Successors := default [] (successors_map !! r.1.1) |}) <$> parsed.

(** The sweep loop of both passes:
    [while not remaining.empty: for i, row in remaining.iterrows():
       if <ready>: <store>; remaining = remaining.drop(i); break]. *)
Definition sweep {St : Type} (ready : St → Row → bool) (store : St → Row → St)
    (st : St) (remaining : list (nat * Row)) : St * list (nat * Row) :=
  match find (λ ir, ready st ir.2) remaining with
  | Some (i, row) => (store st row, drop_label i remaining)
  | None => (st, remaining)
  end.

Fixpoint while_remaining {St : Type} (ready : St → Row → bool) (store : St → Row → St)
    (fuel : nat) (st : St) (remaining : list (nat * Row)) : option St :=
  match remaining with
  | [] => Some st
  | _ :: _ =>
      match fuel with
      | O => None
      | S fuel' =>
          let '(st', remaining') := sweep ready store st remaining in
          while_remaining ready store fuel' st' remaining'
      end
  end.

(** [all(p in ef_dict for p in row["Predecessors"])] *)
Definition es_ef_ready (st : gmap string float * gmap string float) (row : Row) : bool :=
  forallb (λ p, bool_decide (is_Some (st.2 !! p))) (Predecessors row).

(** [max([ef_dict[p] for p in row["Predecessors"]]) if row["Predecessors"] else 0] *)
Definition early_start (ef_dict : gmap string float) (row : Row) : float :=
  match (λ p, ef_dict !!! p) <$> Predecessors row with
  | [] => 0%float
  | x :: xs => py_max x xs
  end.

(** [ef = es + row["Duration"]], rounded to binary64. *)
Definition es_ef_store (st : gmap string float * gmap string float) (row : Row)
  : gmap string float * gmap string float :=
  let es := early_start st.2 row in
  let ef := (es + Duration row)%float in
  (<[Task row := es]> st.1, <[Task row := ef]> st.2).

Definition set_ES_EF (es ef : cell) (row : Row) : Row :=
  {| Task := Task row; Duration := Duration row; Predecessors := Predecessors row;
     ES := es; EF := ef; LS := LS row; LF := LF row;
     Slack := Slack row; Critical := Critical row; Successors := Successors row |}.

Definition es_ef_loop (fuel : nat) (df : DataFrame)
  : option (gmap string float * gmap string float) :=
  while_remaining es_ef_ready es_ef_store fuel (∅, ∅) (iterrows df).

(** [Series.map(dict)]: a task missing from the dictionary gives [NaN]. *)
Definition map_dict (d : gmap string float) (task : string) : cell :=
  default nan (d !! task).

Definition calculate_es_ef (fuel : nat) (df : DataFrame) : option DataFrame :=
  '(es_dict, ef_dict) ← es_ef_loop fuel df;
  Some ((λ row, set_ES_EF (map_dict es_dict (Task row)) (map_dict ef_dict (Task row)) row) <$> df).

(** The first loop of [calculate_ls_lf]. *)
Definition seed_lf (project_finish : float) (df : DataFrame) : gmap string float :=
  foldl (λ lf row, match Successors row with
                   | [] => <[Task row := project_finish]> lf
                   | _ :: _ => lf
                   end) ∅ df.

(** [all(s in ls_dict for s in row["Successors"])] *)
Definition ls_lf_ready (st : gmap string float * gmap string float) (row : Row) : bool :=
  forallb (λ s, bool_decide (is_Some (st.1 !! s))) (Successors row).

(** [min([ls_dict[s] for s in row["Successors"]]) if row["Successors"] else project_finish] *)
Definition late_finish (project_finish : float) (ls_dict : gmap string float) (row : Row)
  : float :=
  match (λ s, ls_dict !!! s) <$> Successors row with
  | [] => project_finish
  | x :: xs => py_min x xs
  end.

(** [ls = lf - row["Duration"]], rounded to binary64. *)
Definition ls_lf_store (project_finish : float) (st : gmap string float * gmap string float)
    (row : Row) : gmap string float * gmap string float :=
  let lf := late_finish project_finish st.1 row in
  let ls := (lf - Duration row)%float in
  (<[Task row := ls]> st.1, <[Task row := lf]> st.2).

Definition set_LS_LF (ls lf : cell) (row : Row) : Row :=
  {| Task := Task row; Duration := Duration row; Predecessors := Predecessors row;
     ES := ES row; EF := EF row; LS := ls; LF := lf;
     Slack := Slack row; Critical := Critical row; Successors := Successors row |}.

(** [df["EF"].max()] *)
Definition project_finish (df : DataFrame) : float := col_max (EF <$> df).

Definition ls_lf_loop (fuel : nat) (df : DataFrame)
  : option (gmap string float * gmap string float) :=
  let pf := project_finish df in
  while_remaining ls_lf_ready (ls_lf_store pf) fuel (∅, seed_lf pf df) (iterrows df).

Definition calculate_ls_lf (fuel : nat) (df : DataFrame) : option DataFrame :=
  '(ls_dict, lf_dict) ← ls_lf_loop fuel df;
  Some ((λ row, set_LS_LF (map_dict ls_dict (Task row)) (map_dict lf_dict (Task row)) row) <$> df).

Definition set_Slack_Critical (slack : cell) (critical : bool) (row : Row) : Row :=
  {| Task := Task row; Duration := Duration row; Predecessors := Predecessors row;
     ES := ES row; EF := EF row; LS := LS row; LF := LF row;
     Slack := slack; Critical := critical; Successors := Successors row |}.

(** [df["Slack"] = df["LS"] - df["ES"]; df["Critical"] = df["Slack"] == 0]:
    a binary64 difference, compared with [0] exactly. *)
Definition calculate_slack (df : DataFrame) : DataFrame :=
  (λ row, let slack := (LS row - ES row)%float in
          set_Slack_Critical slack (slack =? 0)%float row) <$> df.

(** [df[df["Critical"]]["Task"].tolist()] *)
Definition critical_tasks (df : DataFrame) : list string :=
  Task <$> filter (λ row, Critical row = true) df.

Definition print_critical_path (df : DataFrame) : string :=
  join " -> " (critical_tasks df).

Definition run_cpm (fuel : nat) (csv : list CsvRow) : option DataFrame :=
  let df := load_and_prepare_data csv in
  df ← calculate_es_ef fuel df;
  df ← calculate_ls_lf fuel df;
  Some (calculate_slack df).

(** A valid acyclic activity set: unique names, resolvable predecessors,
    non-negative durations, no cycle. *)
Definition names (df : DataFrame) : list string := Task <$> df.

Definition unique_names (df : DataFrame) : Prop := NoDup (names df).

Definition resolvable (df : DataFrame) : Prop :=
  ∀ row p, row ∈ df → p ∈ Predecessors row → p ∈ names df.

Definition nonneg_durations (df : DataFrame) : Prop :=
  ∀ row, row ∈ df → (0 <=? Duration row)%float = true.

Definition pred_edge (df : DataFrame) (p n : string) : Prop :=
  ∃ row, row ∈ df ∧ Task row = n ∧ p ∈ Predecessors row.

Definition acyclic (df : DataFrame) : Prop := ∀ n, ¬ tc (pred_edge df) n n.

Record valid_acyclic (df : DataFrame) : Prop := {
  va_unique : unique_names df;
  va_resolvable : resolvable df;
  va_nonneg : nonneg_durations df;
  va_acyclic : acyclic df
}.

(** The checks behind [valid_acyclic], for concrete schedules; [rank] is
    a numbering of the names that grows along every edge. *)
Definition valid_acyclicb (rank : string → nat) (df : DataFrame) : bool :=
  bool_decide (NoDup (names df))
  && forallb (λ row, forallb (λ p, bool_decide (p ∈ names df)) (Predecessors row)) df
  && forallb (λ row, (0 <=? Duration row)%float) df
  && forallb (λ row, forallb (λ p, bool_decide (rank p < rank (Task row))%nat)
                             (Predecessors row)) df.

Definition summary (df : DataFrame) : list (string * cell * cell * cell * cell * cell * bool) :=
  (λ row, (Task row, ES row, EF row, LS row, LF row, Slack row, Critical row)) <$> df.

(** The binary64 numbers nearest to 0.1, 0.2, 0.3 and 0.7. *)
Definition d0_1 : float := 0x1.999999999999ap-4%float.
Definition d0_2 : float := 0x1.999999999999ap-3%float.
Definition d0_3 : float := 0x1.3333333333333p-2%float.
Definition d0_7 : float := 0x1.6666666666666p-1%float.

(** [A] lasts 0.1; [B] lasts 0.7 and waits for [A]. *)
Definition pair_csv : list CsvRow :=
  [ mkCsvRow "A" d0_1 None; mkCsvRow "B" d0_7 (Some "A") ].

(** The chain [A; B; C] with durations 0.1, 0.2, 0.3. *)
Definition rising_chain_csv : list CsvRow :=
  [ mkCsvRow "A" d0_1 None; mkCsvRow "B" d0_2 (Some "A"); mkCsvRow "C" d0_3 (Some "B") ].

(** The chain [A; B; C] with durations 0.3, 0.1, 0.2. *)
Definition mixed_chain_csv : list CsvRow :=
  [ mkCsvRow "A" d0_3 None; mkCsvRow "B" d0_1 (Some "A"); mkCsvRow "C" d0_2 (Some "B") ].

(** The parallel branches of the documentation, the durations written
    2.0, 5.0, 1.0 and 1.0. *)
Definition branches_csv : list CsvRow :=
  [ mkCsvRow "A" 2%float None; mkCsvRow "B" 5%float (Some "A");
    mkCsvRow "C" 1%float (Some "A"); mkCsvRow "D" 1%float (Some "B,C") ].

(** A numbering for the three chains. *)
Definition chain_rank (n : string) : nat :=
  if String.eqb n "A" then 0%nat else if String.eqb n "B" then 1%nat else 2%nat.

End Binary64.

(** * Proofs *)

(** ** The scenarios of the documentation, run *)

Example chain_table :
  summary <$> run_cpm 3 chain_csv =
  Some [ ("A", Some 0, Some 3, Some 0, Some 3, Some 0, true);
         ("B", Some 3, Some 5, Some 3, Some 5, Some 0, true);
         ("C", Some 5, Some 9, Some 5, Some 9, Some 0, true) ].
Proof. vm_compute. reflexivity. Qed.

Example chain_path :
  print_critical_path <$> run_cpm 3 chain_csv = Some "A -> B -> C"%string.
Proof. vm_compute. reflexivity. Qed.

Example branches_table :
  summary <$> run_cpm 4 branches_csv =
  Some [ ("A", Some 0, Some 2, Some 0, Some 2, Some 0, true);
         ("B", Some 2, Some 7, Some 2, Some 7, Some 0, true);
         ("C", Some 2, Some 3, Some 6, Some 7, Some 4, false);
         ("D", Some 7, Some 8, Some 7, Some 8, Some 0, true) ].
Proof. vm_compute. reflexivity. Qed.

Example branches_path :
  print_critical_path <$> run_cpm 4 branches_csv = Some "A -> B -> D"%string.
Proof. vm_compute. reflexivity. Qed.

(** ** The sweep loop: invariants, exit and starvation *)

Section sweep_facts.
Context {St : Type}.
Variable ready : St → Row → bool.
Variable store : St → Row → St.
Variable I : St → list (nat * Row) → Prop.

Lemma sweep_cases st remaining :
  (∃ i row, (i, row) ∈ remaining ∧ ready st row = true ∧
            sweep ready store st remaining = (store st row, drop_label i remaining))
  ∨ ((∀ ir, ir ∈ remaining → ready st ir.2 = false) ∧
     sweep ready store st remaining = (st, remaining)).
Proof.
  unfold sweep.
  destruct (find (λ ir, ready st ir.2) remaining) as [[i row]|] eqn:Hfind.
  - apply find_some in Hfind as [Hin Hr]. left. exists i, row.
    rewrite <- list_elem_of_In in Hin. done.
  - right. split; [|done]. intros ir Hin.
    apply (find_none _ _ Hfind). by apply list_elem_of_In.
Qed.

Lemma while_remaining_step fuel st ir remaining :
  while_remaining ready store (S fuel) st (ir :: remaining) =
  while_remaining ready store fuel (sweep ready store st (ir :: remaining)).1
                                   (sweep ready store st (ir :: remaining)).2.
Proof.
  change (while_remaining ready store (S fuel) st (ir :: remaining))
    with (let '(st', remaining') := sweep ready store st (ir :: remaining) in
          while_remaining ready store fuel st' remaining').
  by destruct (sweep ready store st (ir :: remaining)).
Qed.

Lemma drop_label_shorter i row (remaining : list (nat * Row)) :
  (i, row) ∈ remaining → (length (drop_label i remaining) < length remaining)%nat.
Proof.
  intros Hin. unfold drop_label.
  apply (length_filter_lt _ _ (i, row)); [done|]. simpl. tauto.
Qed.

(** Whatever the loop returns satisfies the invariant, with nothing
    remaining. *)
Lemma while_remaining_inv fuel st remaining st' :
  sweep_preserves ready store I → I st remaining →
  while_remaining ready store fuel st remaining = Some st' → I st' [].
Proof.
  intros Hpres. revert st remaining.
  induction fuel as [|fuel IH]; intros st remaining HI Hrun.
  - destruct remaining; simpl in Hrun; [|done]. by simplify_eq.
  - destruct remaining as [|ir remaining]; [simpl in Hrun; by simplify_eq|].
    rewrite while_remaining_step in Hrun.
    destruct (sweep_cases st (ir :: remaining)) as [(i & row & Hin & Hr & Hs)|[_ Hs]];
      rewrite Hs in Hrun; simpl in Hrun.
    + eapply IH; [|done]. by apply Hpres.
    + by eapply IH.
Qed.

(** When the invariant always offers a ready row, the loop leaves after
    at most one iteration per remaining row. *)
Lemma while_remaining_exits fuel st remaining :
  sweep_preserves ready store I →
  (∀ st remaining, I st remaining → remaining ≠ [] →
                   ∃ ir, ir ∈ remaining ∧ ready st ir.2 = true) →
  I st remaining → (length remaining ≤ fuel)%nat →
  is_Some (while_remaining ready store fuel st remaining).
Proof.
  intros Hpres Hprog. revert st remaining.
  induction fuel as [|fuel IH]; intros st remaining HI Hlen.
  - destruct remaining; simpl in *; [by eexists|lia].
  - destruct remaining as [|ir remaining]; [by eexists|].
    rewrite while_remaining_step.
    destruct (sweep_cases st (ir :: remaining)) as [(i & row & Hin & Hr & ->)|[Hnone _]].
    + apply IH; [by apply Hpres|].
      pose proof (drop_label_shorter _ _ _ Hin). simpl in *. lia.
    + destruct (Hprog st (ir :: remaining) HI) as (ir' & Hin & Hr); [done|].
      rewrite (Hnone ir' Hin) in Hr. done.
Qed.

(** When the invariant forbids an empty [remaining], the loop never
    leaves, whatever the fuel. *)
Lemma while_remaining_starves fuel st remaining :
  sweep_preserves ready store I →
  (∀ st remaining, I st remaining → remaining ≠ []) →
  I st remaining →
  while_remaining ready store fuel st remaining = None.
Proof.
  intros Hpres Hne. revert st remaining.
  induction fuel as [|fuel IH]; intros st remaining HI.
  - destruct remaining; [by destruct (Hne _ _ HI)|done].
  - destruct remaining as [|ir remaining]; [by destruct (Hne _ _ HI)|].
    rewrite while_remaining_step.
    destruct (sweep_cases st (ir :: remaining)) as [(i & row & Hin & Hr & ->)|[_ ->]].
    + apply IH. by apply Hpres.
    + by apply IH.
Qed.

(** More fuel does not change the result. *)
Lemma while_remaining_fuel fuel fuel' st remaining st' :
  while_remaining ready store fuel st remaining = Some st' → (fuel ≤ fuel')%nat →
  while_remaining ready store fuel' st remaining = Some st'.
Proof.
  revert fuel' st remaining.
  induction fuel as [|fuel IH]; intros fuel' st remaining Hrun Hle.
  - destruct remaining; simpl in Hrun; [|done]. by destruct fuel'.
  - destruct remaining as [|ir remaining]; [by destruct fuel'|].
    destruct fuel' as [|fuel']; [lia|].
    rewrite while_remaining_step in *.
    apply IH; [done|lia].
Qed.
End sweep_facts.

(** ** Frames and their labels *)

Lemma iterrows_lookup (df : DataFrame) i row :
  (i, row) ∈ iterrows df ↔ df !! i = Some row.
Proof.
  unfold iterrows. split.
  - intros (j & y & Heq & Hj)%elem_of_lookup_imap_1. by simplify_eq.
  - intros Hi. by apply (elem_of_lookup_imap_2 (λ i row, (i, row))).
Qed.

Lemma iterrows_row (df : DataFrame) ir : ir ∈ iterrows df → ir.2 ∈ df.
Proof.
  destruct ir as [i row]. rewrite iterrows_lookup. apply list_elem_of_lookup_2.
Qed.

Lemma row_iterrows (df : DataFrame) row : row ∈ df → ∃ i, (i, row) ∈ iterrows df.
Proof.
  intros [i Hi]%list_elem_of_lookup. exists i. by apply iterrows_lookup.
Qed.

Lemma length_iterrows (df : DataFrame) : length (iterrows df) = length df.
Proof. apply length_imap. Qed.

Lemma drop_label_elem i ir (remaining : list (nat * Row)) :
  ir ∈ drop_label i remaining ↔ ir.1 ≠ i ∧ ir ∈ remaining.
Proof. unfold drop_label. by rewrite list_elem_of_filter. Qed.

Lemma elem_of_names (df : DataFrame) n :
  n ∈ names df ↔ ∃ row, row ∈ df ∧ Task row = n.
Proof.
  unfold names. rewrite list_elem_of_fmap. split.
  - intros (row & -> & Hrow). by exists row.
  - intros (row & Hrow & <-). by exists row.
Qed.

Lemma unique_names_label (df : DataFrame) i j row row' :
  unique_names df → df !! i = Some row → df !! j = Some row' →
  Task row = Task row' → i = j.
Proof.
  intros Hnd Hi Hj Heq.
  apply (NoDup_lookup (names df) i j (Task row)); [done|..];
    unfold names; rewrite list_lookup_fmap.
  - by rewrite Hi.
  - by rewrite Hj, Heq.
Qed.

Lemma unique_names_row (df : DataFrame) row row' :
  unique_names df → row ∈ df → row' ∈ df → Task row = Task row' → row = row'.
Proof.
  intros Hnd [i Hi]%list_elem_of_lookup [j Hj]%list_elem_of_lookup Heq.
  assert (i = j) as -> by by eapply unique_names_label.
  congruence.
Qed.

Lemma forallb_false_elem {A} (f : A → bool) (l : list A) :
  forallb f l = false → ∃ x, x ∈ l ∧ f x = false.
Proof.
  induction l as [|x l IH]; simpl; [done|].
  destruct (f x) eqn:Hx; simpl.
  - intros (y & Hy & Hfy)%IH. exists y. split; [by right|done].
  - intros _. exists x. split; [by left|done].
Qed.

Lemma forallb_elem {A} (f : A → bool) (l : list A) :
  forallb f l = true ↔ ∀ x, x ∈ l → f x = true.
Proof.
  rewrite forallb_forall. by setoid_rewrite list_elem_of_In.
Qed.

Lemma tc_flip {A} (R : relation A) x y : tc (flip R) x y → tc R y x.
Proof.
  induction 1 as [x y Hxy|x y z Hxy _ IH].
  - by apply tc_once.
  - eapply tc_r; [exact IH|exact Hxy].
Qed.

(** ** Progress of a sweep loop over an acyclic dependency column *)

Section progress.
Context {St : Type}.
Variable ready : St → Row → bool.
Variable store : St → Row → St.
Variable deps : Row → list string.
Variable resolved : St → string → bool.
Hypothesis ready_spec : ∀ st row, ready st row = forallb (resolved st) (deps row).
Hypothesis store_resolved : ∀ st row n,
  resolved (store st row) n = true ↔ resolved st n = true ∨ n = Task row.
Variable df : DataFrame.

Lemma pending_init st : pending resolved df st (iterrows df).
Proof. split; [done|]. intros ir Hir. by left. Qed.

Lemma pending_preserved : sweep_preserves ready store (pending resolved df).
Proof.
  intros st remaining i row [Hsub Hall] Hin _. split.
  - intros ir [_ Hir]%drop_label_elem. by apply Hsub.
  - intros [j row'] Hir. simpl.
    destruct (decide (j = i)) as [->|Hne].
    + right. apply store_resolved. right.
      apply Hsub, iterrows_lookup in Hin. apply iterrows_lookup in Hir. congruence.
    + destruct (Hall _ Hir) as [Hrem|Hres].
      * left. by apply drop_label_elem.
      * right. apply store_resolved. by left.
Qed.

Hypothesis deps_resolvable : ∀ row p, row ∈ df → p ∈ deps row → p ∈ names df.
Hypothesis deps_acyclic : ∀ n, ¬ tc (dep_edge deps df) n n.

(** In a finite graph without cycles every name is accessible: one can
    argue by induction along the edges. *)
Lemma dep_edge_acc n : Acc (dep_edge deps df) n.
Proof.
  apply (tc_finite_sn (R := flip (dep_edge deps df))).
  - intros x Hx. by apply tc_flip, deps_acyclic in Hx.
  - exists (names df). intros x Hx. apply tc_flip in Hx.
    assert (∃ y, dep_edge deps df x y) as (y & row & Hrow & _ & Hp).
    { destruct Hx; eauto. }
    by eapply deps_resolvable.
Qed.

Lemma pending_ready st remaining :
  pending resolved df st remaining → remaining ≠ [] →
  ∃ ir, ir ∈ remaining ∧ ready st ir.2 = true.
Proof.
  intros [Hsub Hall] Hne.
  assert (∀ n, Acc (dep_edge deps df) n → ∀ ir0, Task ir0.2 = n → ir0 ∈ remaining →
               ∃ ir, ir ∈ remaining ∧ ready st ir.2 = true) as Hind; last first.
  { destruct remaining as [|ir0 remaining0]; [done|].
    apply (Hind _ (dep_edge_acc (Task ir0.2)) ir0); [done|left]. }
  induction 1 as [n _ IH]. intros ir0 <- Hin0.
  destruct (ready st ir0.2) eqn:Hr; [by exists ir0|].
  rewrite ready_spec in Hr. apply forallb_false_elem in Hr as (p & Hp & Hres).
  assert (ir0.2 ∈ df) as Hrow0 by by apply iterrows_row, Hsub.
  pose proof (deps_resolvable _ _ Hrow0 Hp) as Hp'.
  apply elem_of_names in Hp' as (row & Hrow & Hname).
  destruct (row_iterrows _ _ Hrow) as [j Hj].
  destruct (Hall _ Hj) as [Hjrem|Hjres]; simpl in *.
  - apply (IH p) with (ir0 := (j, row)); [|done|done].
    exists ir0.2. done.
  - congruence.
Qed.

(** One unit of fuel per row is enough, from any starting dictionaries. *)
Lemma sweep_loop_exits fuel st :
  (length df ≤ fuel)%nat →
  is_Some (while_remaining ready store fuel st (iterrows df)).
Proof.
  intros Hfuel.
  apply (while_remaining_exits ready store (pending resolved df)).
  - apply pending_preserved.
  - apply pending_ready.
  - apply pending_init.
  - by rewrite length_iterrows.
Qed.
End progress.

(** ** Python's [max] and [min] *)

Lemma py_max_ge_acc x xs : x ≤ py_max x xs.
Proof.
  unfold py_max. revert x. induction xs as [|y xs IH]; intros x; simpl; [lia|].
  case_bool_decide; [|done]. etrans; [|apply IH]. lia.
Qed.

Lemma py_max_ge x xs y : y ∈ x :: xs → y ≤ py_max x xs.
Proof.
  unfold py_max. revert x. induction xs as [|z xs IH]; intros x Hy.
  - apply list_elem_of_singleton in Hy as ->. simpl. lia.
  - simpl. apply elem_of_cons in Hy as [->|Hy].
    + etrans; [|apply py_max_ge_acc]. case_bool_decide; lia.
    + apply elem_of_cons in Hy as [->|Hy].
      * etrans; [|apply py_max_ge_acc]. case_bool_decide; lia.
      * apply IH. by right.
Qed.

Lemma py_max_elem x xs : py_max x xs ∈ x :: xs.
Proof.
  unfold py_max. revert x. induction xs as [|z xs IH]; intros x; simpl; [by left|].
  case_bool_decide.
  - right. apply IH.
  - specialize (IH x). apply elem_of_cons in IH as [->|IH]; [by left|by do 2 right].
Qed.

Lemma py_min_some (x : Z) (xs : list cell) :
  (∀ c, c ∈ xs → is_Some c) →
  ∃ m, py_min (Some x) xs = Some m ∧ Some m ∈ Some x :: xs ∧
       ∀ z, Some z ∈ Some x :: xs → m ≤ z.
Proof.
  unfold py_min. revert x. induction xs as [|c xs IH]; intros x Hsome.
  - exists x. split; [done|]. split; [by left|].
    intros z ->%list_elem_of_singleton%(inj Some). lia.
  - destruct (Hsome c) as [y ->]; [by left|]. simpl.
    destruct (IH (if bool_decide (y < x) then y else x)) as (m & Hm & Hin & Hle).
    { intros c Hc. apply Hsome. by right. }
    exists m. split; [by case_bool_decide|]. split.
    + apply elem_of_cons in Hin as [Hin|Hin]; [|by do 2 right].
      case_bool_decide; simplify_eq; [right; left|left].
    + intros z Hz.
      assert (m ≤ if bool_decide (y < x) then y else x) as Hmx by (apply Hle; left).
      apply elem_of_cons in Hz as [Hz|Hz]; [simplify_eq; case_bool_decide; lia|].
      apply elem_of_cons in Hz as [Hz|Hz]; [simplify_eq; case_bool_decide; lia|].
      apply Hle. by right.
Qed.

(** ** The forward pass *)

Lemma es_ef_ready_spec st row :
  es_ef_ready st row = forallb (es_ef_resolved st) (Predecessors row).
Proof. done. Qed.

Lemma es_ef_store_resolved st row n :
  es_ef_resolved (es_ef_store st row) n = true ↔
  es_ef_resolved st n = true ∨ n = Task row.
Proof.
  unfold es_ef_resolved, es_ef_store. simpl.
  rewrite !bool_decide_eq_true, lookup_insert_is_Some'.
  split; intros [H|H]; auto.
Qed.

(** The forward loop leaves whenever every predecessor names a row and
    the names carry no cycle; names need not be unique. *)
Lemma es_ef_loop_exits df fuel :
  resolvable df → acyclic df → (length df ≤ fuel)%nat →
  is_Some (es_ef_loop fuel df).
Proof.
  intros Hres Hacyc Hfuel. unfold es_ef_loop.
  apply (sweep_loop_exits _ _ Predecessors es_ef_resolved);
    auto using es_ef_ready_spec, es_ef_store_resolved.
Qed.

Lemma early_start_insert ef row t v :
  ef !! t = None → (∀ p, p ∈ Predecessors row → is_Some (ef !! p)) →
  early_start (<[t := v]> ef) row = early_start ef row.
Proof.
  intros Ht Hall. unfold early_start.
  replace ((λ p, <[t := v]> ef !!! p) <$> Predecessors row)
    with ((λ p, ef !!! p) <$> Predecessors row); [done|].
  apply list_fmap_ext. intros i p Hp.
  apply list_elem_of_lookup_2, Hall in Hp as [e He].
  rewrite !lookup_total_alt, lookup_insert_ne; [done|]. congruence.
Qed.

Lemma early_start_ge ef row p e :
  p ∈ Predecessors row → ef !! p = Some e → e ≤ early_start ef row.
Proof.
  intros Hp He. unfold early_start.
  destruct ((λ p, ef !!! p) <$> Predecessors row) as [|x xs] eqn:Hl.
  - apply fmap_nil_inv in Hl. rewrite Hl in Hp. by apply elem_of_nil in Hp.
  - apply py_max_ge. rewrite <- Hl. apply list_elem_of_fmap. exists p.
    split; [|done]. by rewrite lookup_total_alt, He.
Qed.

Section forward.
Variable df : DataFrame.
Hypothesis Hunique : unique_names df.

Lemma es_ef_inv_init : es_ef_inv df (∅, ∅) (iterrows df).
Proof.
  split; [apply pending_init|]. split.
  - intros ir _. apply lookup_empty.
  - intros row _ [e He]. simpl in He. by rewrite lookup_empty in He.
Qed.

Lemma es_ef_inv_preserved : sweep_preserves es_ef_ready es_ef_store (es_ef_inv df).
Proof.
  intros [es ef] remaining i row (Hpend & Hfresh & Hval) Hin Hready.
  assert (ef !! Task row = None) as Hnone by apply (Hfresh _ Hin).
  assert (row ∈ df) as Hrow by (destruct Hpend as [Hsub _]; apply (iterrows_row _ _ (Hsub _ Hin))).
  assert (∀ p, p ∈ Predecessors row → is_Some (ef !! p)) as Hpreds.
  { intros p Hp. unfold es_ef_ready in Hready. rewrite forallb_elem in Hready.
    by apply Hready, bool_decide_eq_true in Hp. }
  split; [|split].
  - by apply (pending_preserved es_ef_ready es_ef_store es_ef_resolved
                es_ef_store_resolved df (es, ef)).
  - intros [j row'] [Hne Hin']%drop_label_elem. simpl in *.
    rewrite lookup_insert_ne; [by apply (Hfresh _ Hin')|].
    intros Heq. apply Hne.
    destruct Hpend as [Hsub _].
    apply Hsub, iterrows_lookup in Hin. apply Hsub, iterrows_lookup in Hin'.
    by apply (unique_names_label df j i row' row).
  - intros row' Hrow' Hsome. simpl in *.
    destruct (decide (Task row = Task row')) as [Heq|Hne].
    + assert (row = row') as <- by by apply (unique_names_row df).
      rewrite !lookup_insert_eq, early_start_insert by done.
      split; [|done]. intros p Hp. apply lookup_insert_is_Some'. right. by apply Hpreds.
    + rewrite lookup_insert_ne in Hsome by done.
      destruct (Hval _ Hrow' Hsome) as (Hpreds' & Hes & Hef). simpl in *.
      rewrite !lookup_insert_ne, early_start_insert by done.
      split; [|done]. intros p Hp. apply lookup_insert_is_Some'. right. by apply Hpreds'.
Qed.

(** The dictionaries the forward loop returns satisfy the forward
    equations at every row. *)
Lemma es_ef_loop_final fuel es ef row :
  es_ef_loop fuel df = Some (es, ef) → row ∈ df →
  (∀ p, p ∈ Predecessors row → is_Some (ef !! p)) ∧
  es !! Task row = Some (early_start ef row) ∧
  ef !! Task row = Some (early_start ef row + Duration row).
Proof.
  intros Hrun Hrow.
  apply (while_remaining_inv _ _ (es_ef_inv df)) in Hrun;
    [|apply es_ef_inv_preserved|apply es_ef_inv_init].
  destruct Hrun as ([_ Hall] & _ & Hval).
  apply (Hval row Hrow).
  destruct (row_iterrows _ _ Hrow) as [i Hi].
  destruct (Hall _ Hi) as [Hnil|Hres]; [by apply elem_of_nil in Hnil|].
  by apply bool_decide_eq_true in Hres.
Qed.
End forward.

(** ** [load_and_prepare_data]: the successor column *)

Lemma add_successor_elem task (preds : list string) m t s :
  s ∈ default [] (foldl (add_successor task) m preds !! t) ↔
  s ∈ default [] (m !! t) ∨ (s = task ∧ t ∈ preds).
Proof.
  revert m. induction preds as [|p preds IH]; intros m; simpl.
  - split; [by left|]. intros [?|[_ []%elem_of_nil]]. done.
  - rewrite IH. unfold add_successor at 1.
    destruct (decide (p = t)) as [->|Hne].
    + rewrite lookup_insert_eq. simpl. rewrite elem_of_app, list_elem_of_singleton.
      rewrite elem_of_cons. tauto.
    + rewrite lookup_insert_ne by done. rewrite elem_of_cons.
      split; [tauto|]. intros [?|[? [?|?]]]; [tauto|congruence|tauto].
Qed.

Lemma build_successors_map_elem (rows : list (string * list string)) t s :
  s ∈ default [] (build_successors_map rows !! t) ↔
  ∃ r, r ∈ rows ∧ r.1 = s ∧ t ∈ r.2.
Proof.
  unfold build_successors_map.
  assert (∀ m, s ∈ default [] (foldl (λ m row, foldl (add_successor row.1) m row.2) m rows !! t)
               ↔ s ∈ default [] (m !! t) ∨ ∃ r, r ∈ rows ∧ r.1 = s ∧ t ∈ r.2) as Hgen.
  { induction rows as [|r rows IH]; intros m; simpl.
    - split; [by left|]. intros [?|(r & []%elem_of_nil & _)]. done.
    - rewrite IH, add_successor_elem. split.
      + intros [[?|[-> ?]]|(r' & ? & ? & ?)].
        * by left.
        * right. exists r. split; [left|done].
        * right. exists r'. split; [by right|done].
      + intros [?|(r' & [->|?]%elem_of_cons & <- & ?)].
        * by do 2 left.
        * left. by right.
        * right. by exists r'. }
  rewrite Hgen, lookup_empty. simpl. split; [|by right].
  intros [[]%elem_of_nil|?]. done.
Qed.

Lemma load_successors_consistent csv :
  successors_consistent (load_and_prepare_data csv).
Proof.
  intros row s. unfold load_and_prepare_data.
  set (parsed := (λ c, (csv_Task c, csv_Duration c, parse_predecessors (csv_Predecessors c))) <$> csv).
  intros (r & -> & Hr)%list_elem_of_fmap. simpl.
  rewrite build_successors_map_elem. unfold pred_edge, dep_edge. split.
  - intros (r' & (r0 & -> & Hr0)%list_elem_of_fmap & <- & Hin). simpl in *.
    eexists. split; [apply list_elem_of_fmap; by exists r0|]. done.
  - intros (row' & (r0 & -> & Hr0)%list_elem_of_fmap & <- & Hin). simpl in *.
    exists (r0.1.1, r0.2). split; [|done].
    apply list_elem_of_fmap. by exists r0.
Qed.

(** ** Column updates keep the schedule *)

Section same_schedule.
Variable g : Row → Row.
Hypothesis Hg : same_schedule g.
Variable df : DataFrame.

Lemma same_schedule_names : names (g <$> df) = names df.
Proof.
  unfold names. rewrite <- list_fmap_compose. apply list_fmap_ext.
  intros i row _. apply Hg.
Qed.

Lemma same_schedule_edge p n : pred_edge (g <$> df) p n ↔ pred_edge df p n.
Proof.
  unfold pred_edge, dep_edge. split.
  - intros (row' & (row & -> & Hrow)%list_elem_of_fmap & Hn & Hp).
    destruct (Hg row) as (Ht & _ & Hpr & _). rewrite Ht in Hn. rewrite Hpr in Hp.
    by exists row.
  - intros (row & Hrow & Hn & Hp). exists (g row).
    destruct (Hg row) as (Ht & _ & Hpr & _). rewrite Ht, Hpr.
    split; [by apply list_elem_of_fmap_2|done].
Qed.

Lemma same_schedule_tc p n : tc (pred_edge (g <$> df)) p n ↔ tc (pred_edge df) p n.
Proof.
  split; apply (tc_congruence id); intros x y; by apply same_schedule_edge.
Qed.

Lemma same_schedule_valid : valid_acyclic df → valid_acyclic (g <$> df).
Proof.
  intros [Hu Hr Hn Ha]. split.
  - unfold unique_names. by rewrite same_schedule_names.
  - intros row' p (row & -> & Hrow)%list_elem_of_fmap Hp.
    rewrite same_schedule_names. destruct (Hg row) as (_ & _ & Hpr & _).
    rewrite Hpr in Hp. by eapply Hr.
  - intros row' (row & -> & Hrow)%list_elem_of_fmap.
    destruct (Hg row) as (_ & -> & _). by apply Hn.
  - intros n Hn'. by apply same_schedule_tc, Ha in Hn'.
Qed.

Lemma same_schedule_consistent :
  successors_consistent df → successors_consistent (g <$> df).
Proof.
  intros Hc row' s (row & -> & Hrow)%list_elem_of_fmap.
  destruct (Hg row) as (-> & _ & _ & ->).
  rewrite same_schedule_edge. by apply Hc.
Qed.
End same_schedule.

Lemma set_ES_EF_same es ef :
  same_schedule (λ row, set_ES_EF (es row) (ef row) row).
Proof. done. Qed.

Lemma set_LS_LF_same ls lf :
  same_schedule (λ row, set_LS_LF (ls row) (lf row) row).
Proof. done. Qed.

(** ** The backward pass *)

Lemma ls_lf_ready_spec st row :
  ls_lf_ready st row = forallb (ls_lf_resolved st) (Successors row).
Proof. done. Qed.

Lemma ls_lf_store_resolved pf st row n :
  ls_lf_resolved (ls_lf_store pf st row) n = true ↔
  ls_lf_resolved st n = true ∨ n = Task row.
Proof.
  unfold ls_lf_resolved, ls_lf_store. simpl.
  rewrite !bool_decide_eq_true, lookup_insert_is_Some'.
  split; intros [H|H]; auto.
Qed.

Lemma succ_edge_flip df s n :
  successors_consistent df → succ_edge df s n → pred_edge df n s.
Proof.
  intros Hc (row & Hrow & <- & Hs). by apply Hc.
Qed.

(** The backward loop leaves on the same schedules as the forward loop. *)
Lemma ls_lf_loop_exits df fuel :
  successors_consistent df → acyclic df → (length df ≤ fuel)%nat →
  is_Some (ls_lf_loop fuel df).
Proof.
  intros Hc Hacyc Hfuel. unfold ls_lf_loop.
  apply (sweep_loop_exits _ _ Successors ls_lf_resolved);
    auto using ls_lf_ready_spec, ls_lf_store_resolved.
  - intros row s Hrow Hs. apply Hc in Hs; [|done].
    destruct Hs as (row' & Hrow' & <- & _). apply elem_of_names. by exists row'.
  - intros n Hn. apply (Hacyc n), tc_flip.
    eapply (tc_congruence id); [|exact Hn].
    intros x y Hxy. by apply succ_edge_flip.
Qed.

Section backward.
Variable df : DataFrame.
Variable finish : Z.
Hypothesis Hunique : unique_names df.
Hypothesis Hconsistent : successors_consistent df.
(** What the forward pass left in the [ES] and [EF] columns. *)
Hypothesis Hearly : ∀ row, row ∈ df →
  ∃ e, ES row = Some e ∧ EF row = Some (e + Duration row).
Hypothesis Hprec : ∀ row row' e e', row ∈ df → row' ∈ df →
  Task row ∈ Predecessors row' → EF row = Some e → ES row' = Some e' → e ≤ e'.
Hypothesis Hfinish : ∀ row e, row ∈ df → EF row = Some e → e ≤ finish.

Lemma ls_lf_inv_init lf : ls_lf_inv df finish (∅, lf) (iterrows df).
Proof.
  split; [apply pending_init|]. split.
  - intros ir _. apply lookup_empty.
  - intros row _ [e He]. simpl in He. by rewrite lookup_empty in He.
Qed.

(** The late finish computed for a ready row. *)
Lemma late_finish_ready ls lf remaining row e :
  ls_lf_inv df finish (ls, lf) remaining → row ∈ df → ES row = Some e →
  ls_lf_ready (ls, lf) row = true →
  ∃ m, late_finish (Some finish) ls row = Some m ∧
       e + Duration row ≤ m ∧ (nonneg_durations df → m ≤ finish).
Proof.
  intros (_ & _ & Hval) Hrow He Hready.
  assert (EF row = Some (e + Duration row)) as Hef.
  { destruct (Hearly _ Hrow) as (e' & He' & ->). congruence. }
  assert (∀ s, s ∈ Successors row →
            ∃ l, ls !!! s = Some l ∧ e + Duration row ≤ l ∧
                 (nonneg_durations df → l ≤ finish)) as Hsucc.
  { intros s Hs.
    pose proof Hs as Hedge. apply Hconsistent in Hedge; [|done].
    destruct Hedge as (row' & Hrow' & <- & Hpred).
    unfold ls_lf_ready in Hready. rewrite forallb_elem in Hready.
    apply Hready, bool_decide_eq_true in Hs. simpl in Hs.
    destruct (Hval _ Hrow' Hs) as (l & e' & He' & Hl & _ & Hle & Hfin). simpl in *.
    exists l. rewrite lookup_total_alt, Hl. split; [done|]. split.
    - assert (e + Duration row ≤ e') by by apply (Hprec row row').
      lia.
    - intros Hnn. specialize (Hfin Hnn). specialize (Hnn _ Hrow'). lia. }
  unfold late_finish.
  destruct (Successors row) as [|s ss] eqn:Hss; simpl.
  - exists finish. split; [done|]. split; [by eapply Hfinish|lia].
  - destruct (Hsucc s) as (l & Hl & Hle & Hfin); [left|]. rewrite Hl.
    destruct (py_min_some l ((λ s, ls !!! s) <$> ss)) as (m & Hm & Hin & Hmin).
    { intros c (s' & -> & Hs')%list_elem_of_fmap.
      destruct (Hsucc s') as (l' & -> & _); [by right|]. by eexists. }
    exists m. split; [done|].
    assert (∃ s', s' ∈ s :: ss ∧ ls !!! s' = Some m) as (s' & Hs' & Hm').
    { apply elem_of_cons in Hin as [Heq|Hin].
      - exists s. split; [left|congruence].
      - apply list_elem_of_fmap in Hin as (s' & -> & Hs'). exists s'. split; [by right|done]. }
    destruct (Hsucc s' Hs') as (l' & Hl' & Hle' & Hfin').
    assert (l' = m) as -> by congruence. done.
Qed.

Lemma ls_lf_inv_preserved :
  sweep_preserves ls_lf_ready (ls_lf_store (Some finish)) (ls_lf_inv df finish).
Proof.
  intros [ls lf] remaining i row Hinv Hin Hready.
  pose proof Hinv as (Hpend & Hfresh & Hval).
  assert (ls !! Task row = None) as Hnone by apply (Hfresh _ Hin).
  assert (row ∈ df) as Hrow by (destruct Hpend as [Hsub _]; apply (iterrows_row _ _ (Hsub _ Hin))).
  split; [|split].
  - by apply (pending_preserved ls_lf_ready (ls_lf_store (Some finish)) ls_lf_resolved
                (ls_lf_store_resolved (Some finish)) df (ls, lf)).
  - intros [j row'] [Hne Hin']%drop_label_elem. simpl in *.
    rewrite lookup_insert_ne; [by apply (Hfresh _ Hin')|].
    intros Heq. apply Hne.
    destruct Hpend as [Hsub _].
    apply Hsub, iterrows_lookup in Hin. apply Hsub, iterrows_lookup in Hin'.
    by apply (unique_names_label df j i row' row).
  - intros row' Hrow' Hsome. simpl in *.
    destruct (decide (Task row = Task row')) as [Heq|Hne].
    + assert (row = row') as <- by by apply (unique_names_row df).
      destruct (Hearly _ Hrow) as (e & He & Hef).
      destruct (late_finish_ready _ _ _ _ _ Hinv Hrow He Hready) as (m & Hm & Hle & Hfin).
      exists (m - Duration row), e. rewrite !lookup_insert_eq, Hm. simpl.
      split; [done|]. split; [done|]. split; [do 2 f_equal; lia|].
      split; [lia|]. intros Hnn. specialize (Hfin Hnn). lia.
    + rewrite lookup_insert_ne in Hsome by done.
      rewrite !lookup_insert_ne by done. by apply Hval.
Qed.

(** The dictionaries the backward loop returns, at every row. *)
Lemma ls_lf_loop_final fuel ls lf lf0 row :
  while_remaining ls_lf_ready (ls_lf_store (Some finish)) fuel (∅, lf0) (iterrows df)
    = Some (ls, lf) →
  row ∈ df →
  ∃ l e, ES row = Some e ∧
         ls !! Task row = Some (Some l) ∧
         lf !! Task row = Some (Some (l + Duration row)) ∧
         e ≤ l ∧ (nonneg_durations df → l + Duration row ≤ finish).
Proof.
  intros Hrun Hrow.
  apply (while_remaining_inv _ _ (ls_lf_inv df finish)) in Hrun;
    [|apply ls_lf_inv_preserved|apply ls_lf_inv_init].
  destruct Hrun as ([_ Hall] & _ & Hval).
  apply (Hval row Hrow).
  destruct (row_iterrows _ _ Hrow) as [i Hi].
  destruct (Hall _ Hi) as [Hnil|Hres]; [by apply elem_of_nil in Hnil|].
  by apply bool_decide_eq_true in Hres.
Qed.
End backward.

(** ** [Series.max] *)

Lemma col_max_spec (col : list cell) :
  col ≠ [] → (∀ c, c ∈ col → is_Some c) →
  ∃ f, col_max col = Some f ∧ Some f ∈ col ∧ ∀ z, Some z ∈ col → z ≤ f.
Proof.
  intros Hne Hsome. unfold col_max.
  assert (∀ z, z ∈ omap id col ↔ Some z ∈ col) as Hin.
  { intros z. rewrite list_elem_of_omap. split.
    - intros (c & Hc & Hid). unfold id in Hid. by subst.
    - intros Hz. by exists (Some z). }
  destruct (omap id col) as [|x xs] eqn:Hcol.
  - destruct col as [|c col]; [done|].
    destruct (Hsome c) as [z ->]; [left|].
    assert (z ∈ []) as []%elem_of_nil. apply Hin. left.
  - exists (py_max x xs). split; [done|]. split.
    + apply Hin, py_max_elem.
    + intros z Hz. by apply py_max_ge, Hin.
Qed.

(** ** The whole pipeline on a valid acyclic schedule *)

Lemma length_load csv : length (load_and_prepare_data csv) = length csv.
Proof. unfold load_and_prepare_data. by rewrite !length_fmap. Qed.

Lemma calculate_slack_row df row :
  row ∈ calculate_slack df →
  ∃ row', row' ∈ df ∧
    row = set_Slack_Critical (cell_sub (LS row') (ES row'))
            (bool_decide (cell_sub (LS row') (ES row') = Some 0)) row'.
Proof.
  unfold calculate_slack. intros (row' & -> & Hrow')%list_elem_of_fmap. by exists row'.
Qed.

Lemma run_cpm_valid csv fuel :
  valid_acyclic (load_and_prepare_data csv) → (length csv ≤ fuel)%nat →
  ∃ df1 out,
    calculate_es_ef fuel (load_and_prepare_data csv) = Some df1 ∧
    run_cpm fuel csv = Some out ∧
    EF <$> out = EF <$> df1 ∧
    ∀ row, row ∈ out → row_scheduled (project_finish df1) row.
Proof.
  intros Hvalid Hfuel. unfold run_cpm.
  set (df := load_and_prepare_data csv) in *.
  assert (length df ≤ fuel)%nat as Hlen by (unfold df; by rewrite length_load).
  pose proof Hvalid as [Hunique Hres Hnonneg Hacyc].
  destruct (es_ef_loop_exits df fuel Hres Hacyc Hlen) as [[es ef] Hfwd].
  unfold calculate_es_ef. rewrite Hfwd. simpl.
  set (g := λ row, set_ES_EF (es !! Task row) (ef !! Task row) row).
  set (df1 := g <$> df).
  assert (same_schedule g) as Hg by done.
  pose proof (same_schedule_valid g Hg df Hvalid) as [Hunique1 Hres1 Hnonneg1 Hacyc1].
  pose proof (same_schedule_consistent g Hg df (load_successors_consistent csv)) as Hcons1.
  fold df1 in Hunique1, Hres1, Hnonneg1, Hacyc1, Hcons1.
  assert (length df1 ≤ fuel)%nat as Hlen1 by (unfold df1; by rewrite length_fmap).
  destruct (ls_lf_loop_exits df1 fuel Hcons1 Hacyc1 Hlen1) as [[ls lf] Hbwd].
  unfold calculate_ls_lf. rewrite Hbwd. simpl.
  eexists _, _. split; [done|]. split; [done|]. split.
  { unfold calculate_slack. rewrite <- !list_fmap_compose. by apply list_fmap_ext. }
  intros row (row2 & (row1 & -> & Hrow1)%list_elem_of_fmap & ->)%calculate_slack_row.
  (* The forward columns of [df1]. *)
  assert (∀ r1, r1 ∈ df1 → ∃ r, r ∈ df ∧ r1 = g r ∧
            (∀ p, p ∈ Predecessors r → is_Some (ef !! p)) ∧
            ES r1 = Some (early_start ef r) ∧
            EF r1 = Some (early_start ef r + Duration r1)) as Hcols.
  { intros r1 (r & -> & Hr)%list_elem_of_fmap. exists r.
    destruct (es_ef_loop_final df Hunique fuel es ef r Hfwd Hr) as (Hp & Hes & Hef).
    simpl. by rewrite Hes, Hef. }
  destruct (col_max_spec (EF <$> df1)) as (finish & Hpf & Hpfin & Hpfmax).
  { intros Hnil%fmap_nil_inv. rewrite Hnil in Hrow1. by apply elem_of_nil in Hrow1. }
  { intros c (r1 & -> & Hr1)%list_elem_of_fmap.
    destruct (Hcols _ Hr1) as (r & _ & _ & _ & _ & ->). by eexists. }
  fold (project_finish df1) in Hpf.
  unfold ls_lf_loop in Hbwd. rewrite Hpf in Hbwd. cbv zeta in Hbwd.
  destruct (ls_lf_loop_final df1 finish Hunique1 Hcons1) with (fuel := fuel) (ls := ls)
    (lf := lf) (lf0 := seed_lf (Some finish) df1) (row := row1)
    as (l & e & He & Hls & Hlf & Hle & Hfin); [| | |done|done|].
  - intros r1 Hr1. destruct (Hcols _ Hr1) as (r & _ & _ & _ & Hes & Hef). by eexists.
  - intros r1 r1' e e' Hr1 Hr1' Hpred He He'.
    destruct (Hcols _ Hr1) as (r & Hr & -> & _ & _ & Hef).
    destruct (Hcols _ Hr1') as (r' & Hr' & -> & _ & Hes' & _).
    simpl in *. simplify_eq.
    apply early_start_ge with (p := Task r); [done|].
    destruct (es_ef_loop_final df Hunique fuel es ef r Hfwd Hr) as (_ & _ & ->). done.
  - intros r1 e Hr1 He. apply Hpfmax. rewrite <- He. by apply list_elem_of_fmap_2.
  - destruct (Hcols _ Hrow1) as (r & Hr & Hrow1eq & _ & Hes & Hef).
    assert (e = early_start ef r) as -> by congruence.
    exists (early_start ef r), l, finish. simpl.
    rewrite Hls, Hlf, Hes. simpl.
    split; [done|]. split; [done|]. split; [done|]. split; [done|]. split; [done|].
    split. { apply bool_decide_ext. split; [by intros [= ->]|by intros ->]. }
    split; [done|]. split; [done|]. split.
    + apply Hpfmax. rewrite <- Hef. by apply list_elem_of_fmap_2.
    + by apply Hfin.
Qed.

(** ** Checking a concrete schedule *)

Lemma ranked_tc rank df p n :
  ranked rank df = true → tc (pred_edge df) p n → (rank p < rank n)%nat.
Proof.
  intros Hrank. unfold ranked in Hrank. rewrite forallb_elem in Hrank.
  assert (∀ x y, pred_edge df x y → (rank x < rank y)%nat) as Hedge.
  { intros x y (row & Hrow & <- & Hx). apply Hrank in Hrow.
    rewrite forallb_elem in Hrow. by apply Hrow, bool_decide_eq_true in Hx. }
  induction 1 as [x y Hxy|x y z Hxy _ IH].
  - by apply Hedge.
  - apply Hedge in Hxy. lia.
Qed.

Lemma ranked_acyclic rank df : ranked rank df = true → acyclic df.
Proof.
  intros Hrank n Hn. apply (ranked_tc rank) in Hn; [lia|done].
Qed.

Lemma resolvableb_sound df : resolvableb df = true → resolvable df.
Proof.
  unfold resolvableb. intros Hr row p Hrow Hp.
  rewrite forallb_elem in Hr. apply Hr in Hrow.
  rewrite forallb_elem in Hrow. by apply Hrow, bool_decide_eq_true in Hp.
Qed.

Lemma valid_acyclicb_sound rank df :
  valid_acyclicb rank df = true → valid_acyclic df.
Proof.
  unfold valid_acyclicb. rewrite !andb_true_iff.
  intros [[[Hu Hr] Hn] Ha]. split.
  - by apply bool_decide_eq_true in Hu.
  - by apply resolvableb_sound.
  - intros row Hrow. rewrite forallb_elem in Hn. by apply Hn, bool_decide_eq_true in Hrow.
  - by apply (ranked_acyclic rank).
Qed.

Example branches_valid : valid_acyclicb branches_rank (load_and_prepare_data branches_csv) = true.
Proof. vm_compute. reflexivity. Qed.

Lemma run_cpm_columns fuel csv out :
  run_cpm fuel csv = Some out →
  Task <$> out = csv_Task <$> csv ∧
  Duration <$> out = csv_Duration <$> csv ∧
  Predecessors <$> out = (λ c, parse_predecessors (csv_Predecessors c)) <$> csv.
Proof.
  unfold run_cpm, calculate_es_ef, calculate_ls_lf.
  destruct (es_ef_loop fuel _) as [[es ef]|]; [simpl|done].
  destruct (ls_lf_loop fuel _) as [[ls lf]|]; [simpl|done].
  intros [= <-]. unfold calculate_slack, load_and_prepare_data.
  rewrite <- !list_fmap_compose. by split_and!; apply list_fmap_ext.
Qed.

(** * The project finish on valid acyclic schedules *)

Lemma col_max_intro (col : list cell) f :
  Some f ∈ col → (∀ c, c ∈ col → ∃ z, c = Some z ∧ z ≤ f) → col_max col = Some f.
Proof.
  intros Hin Hle.
  destruct (col_max_spec col) as (f' & -> & Hin' & Hmax).
  - intros ->. by apply elem_of_nil in Hin.
  - intros c Hc. destruct (Hle c Hc) as (z & -> & _). by eexists.
  - f_equal. apply Hmax in Hin. destruct (Hle _ Hin') as (z & [= <-] & Hz). lia.
Qed.

(** A row whose early finish is the project finish has no slack. *)
Lemma run_cpm_valid_finish csv fuel :
  valid_acyclic (load_and_prepare_data csv) → csv ≠ [] → (length csv ≤ fuel)%nat →
  ∃ df1 out finish,
    calculate_es_ef fuel (load_and_prepare_data csv) = Some df1 ∧
    run_cpm fuel csv = Some out ∧
    project_finish df1 = Some finish ∧
    (∀ row, row ∈ out → row_scheduled (Some finish) row) ∧
    ∃ row, row ∈ out ∧ EF row = Some finish ∧ LF row = Some finish ∧
           Slack row = Some 0 ∧ Critical row = true.
Proof.
  intros Hvalid Hne Hfuel.
  destruct (run_cpm_valid csv fuel Hvalid Hfuel) as (df1 & out & Hfwd & Hrun & Hcol & Hrows).
  assert (out ≠ []) as Hout.
  { destruct (run_cpm_columns _ _ _ Hrun) as (Ht & _).
    intros ->. by apply eq_sym, fmap_nil_inv in Ht. }
  destruct (col_max_spec (EF <$> out)) as (finish & Hmax & Hin & _).
  { by intros ?%fmap_nil_inv. }
  { intros c (row & -> & Hrow)%list_elem_of_fmap.
    destruct (Hrows row Hrow) as (e & l & f & _ & -> & _). by eexists. }
  assert (project_finish df1 = Some finish) as Hpf.
  { unfold project_finish. by rewrite <- Hcol. }
  rewrite Hpf in Hrows.
  exists df1, out, finish. split_and!; [done..|].
  apply list_elem_of_fmap in Hin as (row & Hef & Hrow).
  exists row. split; [done|]. split; [done|].
  destruct (Hrows row Hrow)
    as (e & l & f & Hes & Hef' & Hls & Hlf & Hsl & Hcr & Hf & Hle & Hef_le & Hlf_le).
  assert (f = finish) as -> by congruence.
  assert (e + Duration row = finish) as Hfin by congruence.
  assert (l = e) as -> by lia.
  rewrite Hlf, Hsl, Hcr. split_and!.
  - by rewrite Hfin.
  - f_equal. lia.
  - apply bool_decide_eq_true. lia.
Qed.

(** C6. On every non-empty valid acyclic schedule the maximum of the [EF]
    column and the maximum of the [LF] column of the finished table are
    both the scalar [project_finish] that the backward pass computes from
    the frame the forward pass returned. *)
Theorem project_finish_is_max_ef_and_max_lf csv fuel :
  valid_acyclic (load_and_prepare_data csv) → csv ≠ [] → (length csv ≤ fuel)%nat →
  ∃ df1 out finish,
    calculate_es_ef fuel (load_and_prepare_data csv) = Some df1 ∧
    run_cpm fuel csv = Some out ∧
    project_finish df1 = Some finish ∧
    col_max (EF <$> out) = Some finish ∧
    col_max (LF <$> out) = Some finish.
Proof.
  intros Hvalid Hne Hfuel.
  destruct (run_cpm_valid_finish csv fuel Hvalid Hne Hfuel)
    as (df1 & out & finish & Hfwd & Hrun & Hpf & Hrows & row & Hrow & Hef & Hlf & _).
  exists df1, out, finish. split_and!; [done..| |].
  - apply col_max_intro.
    + rewrite <- Hef. by apply list_elem_of_fmap_2.
    + intros c (r & -> & Hr)%list_elem_of_fmap.
      destruct (Hrows r Hr) as (e & l & f & _ & -> & _ & _ & _ & _ & [= <-] & _ & Hle & _).
      by eexists.
  - apply col_max_intro.
    + rewrite <- Hlf. by apply list_elem_of_fmap_2.
    + intros c (r & -> & Hr)%list_elem_of_fmap.
      destruct (Hrows r Hr) as (e & l & f & _ & _ & _ & -> & _ & _ & [= <-] & _ & _ & Hle).
      by eexists.
Qed.

Lemma project_finish_is_max_ef_and_max_lf_witness :
  valid_acyclic (load_and_prepare_data branches_csv) ∧ branches_csv ≠ [] ∧
  (length branches_csv ≤ 4)%nat ∧
  ∃ df1 out finish,
    calculate_es_ef 4 (load_and_prepare_data branches_csv) = Some df1 ∧
    run_cpm 4 branches_csv = Some out ∧
    project_finish df1 = Some finish ∧
    col_max (EF <$> out) = Some finish ∧
    col_max (LF <$> out) = Some finish.
Proof.
  assert (valid_acyclic (load_and_prepare_data branches_csv)) as Hvalid.
  { apply (valid_acyclicb_sound branches_rank). vm_compute. reflexivity. }
  assert (branches_csv ≠ []) as Hne by (unfold branches_csv; discriminate).
  assert (length branches_csv ≤ 4)%nat as Hfuel by (simpl; lia).
  split; [exact Hvalid|]. split; [exact Hne|]. split; [exact Hfuel|].
  exact (project_finish_is_max_ef_and_max_lf branches_csv 4 Hvalid Hne Hfuel).
Defined.

(** * The printed critical path *)





(** * Schedules the forward loop cannot finish *)

Lemma tc_last {A} (R : relation A) x z : tc R x z → ∃ y, rtc R x y ∧ R y z.
Proof.
  induction 1 as [x z Hxz|x y z Hxy _ (y' & Hyy' & Hy'z)].
  - exists x. split; [apply rtc_refl|done].
  - exists y'. split; [by eapply rtc_l|done].
Qed.

Lemma walkb_tc df n walk m :
  walkb df n (walk ++ [m]) = true → tc (pred_edge df) n m.
Proof.
  assert (∀ x y, edgeb df x y = true → pred_edge df x y) as Hedge.
  { intros x y Hxy. unfold edgeb in Hxy. apply existsb_exists in Hxy as (row & Hrow & Hb).
    apply andb_true_iff in Hb as [Ht Hp].
    apply bool_decide_eq_true in Ht. apply bool_decide_eq_true in Hp.
    exists row. split; [by apply list_elem_of_In|done]. }
  revert n. induction walk as [|w walk IH]; intros n; simpl.
  - rewrite andb_true_r. intros Hnm. by apply tc_once, Hedge.
  - intros [Hnw Hrest]%andb_true_iff. eapply tc_l; [by apply Hedge|by apply IH].
Qed.

Lemma cycle_walkb_sound df n walk : cycle_walkb df n walk = true → has_cycle df.
Proof. intros Hw. exists n. by apply walkb_tc with walk. Qed.

Lemma es_ef_ready_elem st row p :
  es_ef_ready st row = true → p ∈ Predecessors row → is_Some (st.2 !! p).
Proof.
  unfold es_ef_ready. rewrite forallb_elem. intros Hall Hp.
  by apply Hall, bool_decide_eq_true in Hp.
Qed.

Section blocked.
Variable df : DataFrame.
Variable B : string → Prop.
Hypothesis Hblocked : ∀ row, row ∈ df → B (Task row) →
  ∃ p, p ∈ Predecessors row ∧ B p.

Lemma blocked_inv_preserved :
  sweep_preserves es_ef_ready es_ef_store (blocked_inv df B).
Proof.
  intros [es ef] remaining i row (Hsub & Hnone & Hstay) Hin Hready. simpl in Hnone.
  assert (row ∈ df) as Hrow by apply (iterrows_row _ _ (Hsub _ Hin)).
  assert (¬ B (Task row)) as Hoff.
  { intros HB. destruct (Hblocked _ Hrow HB) as (p & Hp & HBp).
    apply (es_ef_ready_elem _ _ _ Hready) in Hp as [e He]. simpl in He.
    rewrite (Hnone p HBp) in He. done. }
  split; [|split].
  - intros ir [_ Hir]%drop_label_elem. by apply Hsub.
  - intros n Hn. simpl. rewrite lookup_insert_ne; [by apply Hnone|].
    intros <-. by apply Hoff.
  - intros [j row'] Hir HB. simpl in *. apply drop_label_elem. split; [|by apply Hstay].
    simpl. intros ->. apply Hsub, iterrows_lookup in Hin. apply iterrows_lookup in Hir.
    assert (row' = row) as -> by congruence. by apply Hoff.
Qed.

(** Names that block one another starve the forward loop: it never
    leaves. *)
Lemma es_ef_loop_blocked fuel :
  (∃ row, row ∈ df ∧ B (Task row)) → es_ef_loop fuel df = None.
Proof.
  intros (row & Hrow & HB). unfold es_ef_loop.
  apply (while_remaining_starves _ _ (blocked_inv df B)).
  - apply blocked_inv_preserved.
  - intros st remaining (_ & _ & Hstay) ->.
    destruct (row_iterrows _ _ Hrow) as [i Hi].
    apply Hstay in Hi; [|done]. by apply elem_of_nil in Hi.
  - split; [done|]. split; [|done]. intros n' _. apply lookup_empty.
Qed.
End blocked.

(** A name on a cycle belongs to a row that lists a name on a cycle. *)
Lemma cycle_pred df n row :
  unique_names df →
  tc (pred_edge df) n n → row ∈ df → Task row = n →
  ∃ p, p ∈ Predecessors row ∧ tc (pred_edge df) p p.
Proof.
  intros Hunique Hn Hrow Hname.
  destruct (tc_last _ _ _ Hn) as (p & Hnp & Hedge).
  pose proof Hedge as (row' & Hrow' & Hname' & Hp).
  assert (row' = row) as -> by (apply (unique_names_row df); congruence).
  exists p. split; [done|]. eapply tc_rtc_r; [by apply tc_once|done].
Qed.

(** With unique names a cycle starves the forward loop. *)
Lemma es_ef_loop_cycle df fuel :
  unique_names df → has_cycle df → es_ef_loop fuel df = None.
Proof.
  intros Hunique [n Hn].
  apply (es_ef_loop_blocked df (λ n, tc (pred_edge df) n n)).
  - intros row Hrow Hcyc. by apply (cycle_pred df (Task row)).
  - destruct (tc_last _ _ _ Hn) as (p & _ & row & Hrow & Hname & _).
    exists row. by rewrite Hname.
Qed.

Section dangling.
Variable df : DataFrame.
Variable row : Row.
Variable p : string.
Hypothesis Hrow : row ∈ df.
Hypothesis Hpred : p ∈ Predecessors row.
Hypothesis Hdangling : p ∉ names df.

Lemma dangling_inv_preserved i :
  sweep_preserves es_ef_ready es_ef_store (dangling_inv df i row p).
Proof.
  intros [es ef] remaining j row' (Hsub & Hnone & Hstay) Hin Hready. simpl in *.
  split; [|split].
  - intros ir [_ Hir]%drop_label_elem. by apply Hsub.
  - simpl. rewrite lookup_insert_ne; [done|].
    intros <-. apply Hdangling, elem_of_names. exists row'.
    split; [|done]. apply (iterrows_row _ _ (Hsub _ Hin)).
  - apply drop_label_elem. split; [|done]. simpl. intros ->.
    apply Hsub, iterrows_lookup in Hin. apply Hsub, iterrows_lookup in Hstay.
    assert (row' = row) as -> by congruence.
    apply (es_ef_ready_elem _ _ _ Hready) in Hpred as [e He]. simpl in He. congruence.
Qed.

(** A predecessor that names no row starves the forward loop. *)
Lemma es_ef_loop_dangling fuel : es_ef_loop fuel df = None.
Proof.
  destruct (row_iterrows _ _ Hrow) as [i Hi]. unfold es_ef_loop.
  apply (while_remaining_starves _ _ (dangling_inv df i row p)).
  - apply dangling_inv_preserved.
  - intros st remaining (_ & _ & Hstay) ->. by apply elem_of_nil in Hstay.
  - split; [done|]. split; [apply lookup_empty|done].
Qed.
End dangling.

Lemma calculate_es_ef_none fuel df :
  es_ef_loop fuel df = None → calculate_es_ef fuel df = None.
Proof. unfold calculate_es_ef. by intros ->. Qed.

Lemma run_cpm_none fuel csv :
  calculate_es_ef fuel (load_and_prepare_data csv) = None → run_cpm fuel csv = None.
Proof. unfold run_cpm. by intros ->. Qed.

(** C1, counterexample. On the two-row schedule in which [A] depends on
    [B] and [B] on [A] the forward pass returns nothing, whatever the
    fuel: its loop never leaves, and no error value exists that it could
    return. *)
Lemma cycle_is_not_reported :
  unique_names (load_and_prepare_data cyclic_csv) ∧
  has_cycle (load_and_prepare_data cyclic_csv) ∧
  ∀ fuel, calculate_es_ef fuel (load_and_prepare_data cyclic_csv) = None.
Proof.
  assert (unique_names (load_and_prepare_data cyclic_csv)) as Hunique.
  { apply (bool_decide_unpack _). vm_compute. exact I. }
  assert (has_cycle (load_and_prepare_data cyclic_csv)) as Hcycle.
  { apply (cycle_walkb_sound _ "A" ["B"%string]). vm_compute. reflexivity. }
  split; [done|]. split; [done|]. intros fuel.
  by apply calculate_es_ef_none, es_ef_loop_cycle.
Qed.

(** C1, as amended. For every frame with unique names whose predecessor
    relation contains a cycle, the forward pass has no cycle detection:
    it returns neither an error nor a table, partial or complete; the
    rows on the cycle are never resolved and the loop does not leave,
    whatever the number of iterations. *)
Theorem forward_pass_never_returns_on_cycle df :
  unique_names df → has_cycle df → ∀ fuel, calculate_es_ef fuel df = None.
Proof.
  intros Hunique Hcycle fuel. by apply calculate_es_ef_none, es_ef_loop_cycle.
Qed.

Lemma forward_pass_never_returns_on_cycle_witness :
  unique_names (load_and_prepare_data cyclic_csv) ∧
  has_cycle (load_and_prepare_data cyclic_csv) ∧
  ∀ fuel, calculate_es_ef fuel (load_and_prepare_data cyclic_csv) = None.
Proof.
  assert (unique_names (load_and_prepare_data cyclic_csv)) as Hunique.
  { apply (bool_decide_unpack _). vm_compute. exact I. }
  assert (has_cycle (load_and_prepare_data cyclic_csv)) as Hcycle.
  { apply (cycle_walkb_sound _ "A" ["B"%string]). vm_compute. reflexivity. }
  split; [exact Hunique|]. split; [exact Hcycle|].
  exact (forward_pass_never_returns_on_cycle _ Hunique Hcycle).
Defined.

(** C2, counterexample. On the schedule [A(3); B(2, after X)], where [X]
    names no row, preparing the frame raises nothing: both rows are kept
    and [X] is simply absent from the successor column; the forward pass
    then returns nothing, whatever the fuel, and so does the pipeline. *)
Lemma unknown_predecessor_is_not_reported :
  names (load_and_prepare_data dangling_csv) = ["A"; "B"]%string ∧
  Predecessors <$> load_and_prepare_data dangling_csv = [[]; ["X"%string]] ∧
  Successors <$> load_and_prepare_data dangling_csv = [[]; []] ∧
  ∀ fuel, calculate_es_ef fuel (load_and_prepare_data dangling_csv) = None ∧
          run_cpm fuel dangling_csv = None.
Proof.
  split; [vm_compute; reflexivity|]. split; [vm_compute; reflexivity|].
  split; [vm_compute; reflexivity|]. intros fuel.
  assert (calculate_es_ef fuel (load_and_prepare_data dangling_csv) = None) as Hnone.
  { apply calculate_es_ef_none.
    apply (es_ef_loop_dangling _
             (mkRow "B" 2 ["X"%string] (Some 0) (Some 0) (Some 0) (Some 0) (Some 0) false [])
             "X").
    - apply list_elem_of_lookup_2 with 1%nat. vm_compute. reflexivity.
    - simpl. left.
    - apply (bool_decide_eq_false_1 _). vm_compute. reflexivity. }
  split; [done|]. by apply run_cpm_none.
Qed.

(** C2, as amended. For every input in which some row lists a predecessor
    that is the name of no row, preparing the frame raises no error: the
    frame keeps every input row. The forward pass, which has no check for
    unknown names either, then never resolves the offending row: it
    returns nothing, whatever the number of iterations, and so does the
    pipeline. *)
Theorem unknown_predecessor_never_resolved csv row p :
  row ∈ load_and_prepare_data csv → p ∈ Predecessors row →
  p ∉ names (load_and_prepare_data csv) →
  names (load_and_prepare_data csv) = csv_Task <$> csv ∧
  ∀ fuel, calculate_es_ef fuel (load_and_prepare_data csv) = None ∧
          run_cpm fuel csv = None.
Proof.
  intros Hrow Hp Hdangling. split.
  { unfold names, load_and_prepare_data. rewrite <- !list_fmap_compose.
    by apply list_fmap_ext. }
  intros fuel.
  assert (calculate_es_ef fuel (load_and_prepare_data csv) = None) as Hnone
    by by apply calculate_es_ef_none, (es_ef_loop_dangling _ row p).
  split; [done|]. by apply run_cpm_none.
Qed.

Lemma unknown_predecessor_never_resolved_witness :
  names (load_and_prepare_data dangling_csv) = csv_Task <$> dangling_csv ∧
  ∀ fuel, calculate_es_ef fuel (load_and_prepare_data dangling_csv) = None ∧
          run_cpm fuel dangling_csv = None.
Proof.
  apply (unknown_predecessor_never_resolved dangling_csv
           (mkRow "B" 2 ["X"%string] (Some 0) (Some 0) (Some 0) (Some 0) (Some 0) false [])
           "X").
  - apply list_elem_of_lookup_2 with 1%nat. vm_compute. reflexivity.
  - simpl. left.
  - apply (bool_decide_eq_false_1 _). vm_compute. reflexivity.
Defined.

(** * Rows that share a name *)

Lemma while_remaining_store_order {St} (ready : St → Row → bool) (store : St → Row → St)
    fuel st remaining st' :
  while_remaining ready store fuel st remaining = Some st' →
  st' = foldl store st (store_order ready store fuel st remaining).
Proof.
  revert st remaining. induction fuel as [|fuel IH]; intros st remaining Hrun.
  - destruct remaining; simpl in *; by simplify_eq.
  - destruct remaining as [|ir remaining]; [simpl in *; by simplify_eq|].
    rewrite while_remaining_step in Hrun. unfold sweep in Hrun.
    cbn [store_order].
    destruct (find (λ ir0, ready st ir0.2) (ir :: remaining)) as [[i row]|];
      simpl in Hrun; by apply IH in Hrun.
Qed.

Lemma last_occurrence (log : list Row) n :
  n ∈ Task <$> log →
  ∃ before row after, log = before ++ row :: after ∧ Task row = n ∧
                      ∀ r', r' ∈ after → Task r' ≠ n.
Proof.
  induction log as [|x log IH]; [by intros ?%elem_of_nil|].
  intros Hin. destruct (decide (n ∈ Task <$> log)) as [Hlater|Hlast].
  - destruct (IH Hlater) as (before & row & after & -> & Hname & Hafter).
    by exists (x :: before), row, after.
  - exists [], x, log. rewrite fmap_cons in Hin.
    apply elem_of_cons in Hin as [->|Hin]; [|done].
    split_and!; [done..|]. intros r' Hr' Heq. apply Hlast.
    rewrite <- Heq. by apply list_elem_of_fmap_2.
Qed.

Lemma es_ef_foldl_other st (log : list Row) n :
  (∀ r, r ∈ log → Task r ≠ n) →
  (foldl es_ef_store st log).1 !! n = st.1 !! n ∧
  (foldl es_ef_store st log).2 !! n = st.2 !! n.
Proof.
  revert st. induction log as [|x log IH]; intros st Hother; [done|]. simpl.
  destruct (IH (es_ef_store st x)) as [-> ->]; [intros r Hr; apply Hother; by right|].
  unfold es_ef_store. simpl.
  rewrite !lookup_insert_ne; [done|apply Hother; left..].
Qed.

Lemma es_ef_foldl_resolved st (log : list Row) n :
  is_Some ((foldl es_ef_store st log).2 !! n) → is_Some (st.2 !! n) ∨ n ∈ Task <$> log.
Proof.
  revert st. induction log as [|x log IH]; intros st; simpl; [by left|].
  intros [Hx|Hlog]%IH.
  - unfold es_ef_store in Hx. simpl in Hx.
    apply lookup_insert_is_Some' in Hx as [<-|Hx]; [right; left|by left].
  - right. by right.
Qed.

Lemma ls_lf_foldl_other pf st (log : list Row) n :
  (∀ r, r ∈ log → Task r ≠ n) →
  (foldl (ls_lf_store pf) st log).1 !! n = st.1 !! n ∧
  (foldl (ls_lf_store pf) st log).2 !! n = st.2 !! n.
Proof.
  revert st. induction log as [|x log IH]; intros st Hother; [done|]. simpl.
  destruct (IH (ls_lf_store pf st x)) as [-> ->]; [intros r Hr; apply Hother; by right|].
  unfold ls_lf_store. simpl.
  rewrite !lookup_insert_ne; [done|apply Hother; left..].
Qed.

Lemma ls_lf_foldl_resolved pf st (log : list Row) n :
  is_Some ((foldl (ls_lf_store pf) st log).1 !! n) → is_Some (st.1 !! n) ∨ n ∈ Task <$> log.
Proof.
  revert st. induction log as [|x log IH]; intros st; simpl; [by left|].
  intros [Hx|Hlog]%IH.
  - unfold ls_lf_store in Hx. simpl in Hx.
    apply lookup_insert_is_Some' in Hx as [<-|Hx]; [right; left|by left].
  - right. by right.
Qed.

(** When a loop leaves, every row of the frame has its name resolved. *)
Lemma es_ef_loop_resolved fuel df es ef row :
  es_ef_loop fuel df = Some (es, ef) → row ∈ df → is_Some (ef !! Task row).
Proof.
  intros Hrun Hrow.
  apply (while_remaining_inv _ _ (pending es_ef_resolved df)) in Hrun;
    [|apply (pending_preserved _ _ _ es_ef_store_resolved)|apply pending_init].
  destruct Hrun as [_ Hall]. destruct (row_iterrows _ _ Hrow) as [i Hi].
  destruct (Hall _ Hi) as [Hnil|Hres]; [by apply elem_of_nil in Hnil|].
  by apply bool_decide_eq_true in Hres.
Qed.

Lemma ls_lf_loop_resolved fuel df ls lf row :
  ls_lf_loop fuel df = Some (ls, lf) → row ∈ df → is_Some (ls !! Task row).
Proof.
  intros Hrun Hrow. unfold ls_lf_loop in Hrun. cbv zeta in Hrun.
  apply (while_remaining_inv _ _ (pending ls_lf_resolved df)) in Hrun;
    [|apply (pending_preserved _ _ _ (ls_lf_store_resolved _))|apply pending_init].
  destruct Hrun as [_ Hall]. destruct (row_iterrows _ _ Hrow) as [i Hi].
  destruct (Hall _ Hi) as [Hnil|Hres]; [by apply elem_of_nil in Hnil|].
  by apply bool_decide_eq_true in Hres.
Qed.

(** The early columns of a row of the frame the forward pass returns. *)
Lemma es_ef_last_stored fuel df es ef row :
  es_ef_loop fuel df = Some (es, ef) → row ∈ df →
  last_stored_early (store_order es_ef_ready es_ef_store fuel (∅, ∅) (iterrows df))
    (set_ES_EF (es !! Task row) (ef !! Task row) row).
Proof.
  intros Hrun Hrow.
  pose proof (es_ef_loop_resolved _ _ _ _ _ Hrun Hrow) as Hres.
  apply while_remaining_store_order in Hrun.
  set (log := store_order es_ef_ready es_ef_store fuel (∅, ∅) (iterrows df)) in *.
  assert (ef = (foldl es_ef_store (∅, ∅) log).2) as Hef by by rewrite <- Hrun.
  assert (es = (foldl es_ef_store (∅, ∅) log).1) as Hes by by rewrite <- Hrun.
  rewrite Hef in Hres. apply es_ef_foldl_resolved in Hres as [Hres|Hin].
  { simpl in Hres. rewrite lookup_empty in Hres. by destruct Hres. }
  destruct (last_occurrence _ _ Hin) as (before & r & after & Hlog & Hname & Hafter).
  exists before, r, after. split_and!; [done..|]. simpl.
  rewrite Hes, Hef, Hlog, foldl_app. simpl.
  destruct (es_ef_foldl_other (es_ef_store (foldl es_ef_store (∅, ∅) before) r) after (Task row))
    as [-> ->]; [done|].
  unfold es_ef_store. simpl. rewrite <- Hname, !lookup_insert_eq. done.
Qed.

(** The late columns of a row of the frame the backward pass returns. *)
Lemma ls_lf_last_stored fuel df ls lf row :
  ls_lf_loop fuel df = Some (ls, lf) → row ∈ df →
  last_stored_late (project_finish df) (seed_lf (project_finish df) df)
    (store_order ls_lf_ready (ls_lf_store (project_finish df)) fuel
       (∅, seed_lf (project_finish df) df) (iterrows df))
    (set_LS_LF (mjoin (ls !! Task row)) (mjoin (lf !! Task row)) row).
Proof.
  intros Hrun Hrow.
  pose proof (ls_lf_loop_resolved _ _ _ _ _ Hrun Hrow) as Hres.
  unfold ls_lf_loop in Hrun. cbv zeta in Hrun.
  apply while_remaining_store_order in Hrun.
  set (pf := project_finish df) in *.
  set (log := store_order ls_lf_ready (ls_lf_store pf) fuel (∅, seed_lf pf df) (iterrows df)) in *.
  assert (ls = (foldl (ls_lf_store pf) (∅, seed_lf pf df) log).1) as Hls by by rewrite <- Hrun.
  assert (lf = (foldl (ls_lf_store pf) (∅, seed_lf pf df) log).2) as Hlf by by rewrite <- Hrun.
  rewrite Hls in Hres. apply ls_lf_foldl_resolved in Hres as [Hres|Hin].
  { simpl in Hres. rewrite lookup_empty in Hres. by destruct Hres. }
  destruct (last_occurrence _ _ Hin) as (before & r & after & Hlog & Hname & Hafter).
  exists before, r, after. split_and!; [done..|]. simpl.
  rewrite Hls, Hlf, Hlog, foldl_app. simpl.
  destruct (ls_lf_foldl_other pf
              (ls_lf_store pf (foldl (ls_lf_store pf) (∅, seed_lf pf df) before) r)
              after (Task row)) as [-> ->]; [done|].
  unfold ls_lf_store. simpl. rewrite <- Hname, !lookup_insert_eq. done.
Qed.

Lemma last_stored_early_ext log r r' :
  Task r = Task r' → ES r = ES r' → EF r = EF r' →
  last_stored_early log r → last_stored_early log r'.
Proof.
  intros Ht Hes Hef (before & row & after & Hlog & Hname & Hafter & Hvals).
  exists before, row, after. rewrite <- Ht, <- Hes, <- Hef. done.
Qed.

Lemma last_stored_late_ext pf lf0 log r r' :
  Task r = Task r' → LS r = LS r' → LF r = LF r' →
  last_stored_late pf lf0 log r → last_stored_late pf lf0 log r'.
Proof.
  intros Ht Hls Hlf (before & row & after & Hlog & Hname & Hafter & Hvals).
  exists before, row, after. rewrite <- Ht, <- Hls, <- Hlf. done.
Qed.

(** Both loops leave, and the table is read off the four dictionaries,
    whether or not the names are unique. *)
Lemma run_cpm_exits csv fuel :
  resolvable (load_and_prepare_data csv) → acyclic (load_and_prepare_data csv) →
  (length csv ≤ fuel)%nat →
  ∃ es ef ls lf df1,
    df1 = (λ row, set_ES_EF (es !! Task row) (ef !! Task row) row)
            <$> load_and_prepare_data csv ∧
    es_ef_loop fuel (load_and_prepare_data csv) = Some (es, ef) ∧
    calculate_es_ef fuel (load_and_prepare_data csv) = Some df1 ∧
    ls_lf_loop fuel df1 = Some (ls, lf) ∧
    run_cpm fuel csv =
      Some (calculate_slack
              ((λ row, set_LS_LF (mjoin (ls !! Task row)) (mjoin (lf !! Task row)) row)
                 <$> df1)).
Proof.
  intros Hres Hacyc Hfuel. unfold run_cpm.
  set (df := load_and_prepare_data csv) in *.
  assert (length df ≤ fuel)%nat as Hlen by (unfold df; by rewrite length_load).
  destruct (es_ef_loop_exits df fuel Hres Hacyc Hlen) as [[es ef] Hfwd].
  unfold calculate_es_ef. rewrite Hfwd. simpl.
  set (g := λ row, set_ES_EF (es !! Task row) (ef !! Task row) row).
  assert (same_schedule g) as Hg by done.
  pose proof (same_schedule_consistent g Hg df (load_successors_consistent csv)) as Hcons1.
  assert (acyclic (g <$> df)) as Hacyc1.
  { intros n Hn. by apply (same_schedule_tc g Hg), Hacyc in Hn. }
  assert (length (g <$> df) ≤ fuel)%nat as Hlen1 by by rewrite length_fmap.
  destruct (ls_lf_loop_exits (g <$> df) fuel Hcons1 Hacyc1 Hlen1) as [[ls lf] Hbwd].
  exists es, ef, ls, lf, (g <$> df). split_and!; [done..|].
  unfold calculate_ls_lf. by rewrite Hbwd.
Qed.

(** C4, counterexample. On a schedule with two rows named [A] nothing is
    rejected: the pipeline returns a table with both rows. *)
Lemma duplicate_names_are_not_reported :
  ¬ NoDup (csv_Task <$> duplicate_csv) ∧
  names (load_and_prepare_data duplicate_csv) = ["A"; "A"; "B"]%string ∧
  summary <$> run_cpm 3 duplicate_csv =
  Some [ ("A", Some 0, Some 5, Some 0, Some 5, Some 0, true);
         ("A", Some 0, Some 5, Some 0, Some 5, Some 0, true);
         ("B", Some 5, Some 6, Some 5, Some 6, Some 0, true) ]%string.
Proof.
  split; [|split].
  - apply (bool_decide_eq_false_1 _). vm_compute. reflexivity.
  - vm_compute. reflexivity.
  - vm_compute. reflexivity.
Qed.

(** C4, as amended. For every input with two rows that share a task name,
    preparing the frame rejects nothing: the frame keeps every input row
    in input order, the duplicates included, and the computation goes on
    from it; when every predecessor names a row and the names carry no
    cycle, the pipeline returns a table with one row per input row. *)
Theorem duplicate_names_are_accepted csv :
  ¬ NoDup (csv_Task <$> csv) →
  names (load_and_prepare_data csv) = csv_Task <$> csv ∧
  ¬ unique_names (load_and_prepare_data csv) ∧
  ∀ fuel,
    resolvable (load_and_prepare_data csv) → acyclic (load_and_prepare_data csv) →
    (length csv ≤ fuel)%nat →
    ∃ out, run_cpm fuel csv = Some out ∧ Task <$> out = csv_Task <$> csv.
Proof.
  intros Hdup.
  assert (names (load_and_prepare_data csv) = csv_Task <$> csv) as Hnames.
  { unfold names, load_and_prepare_data. rewrite <- !list_fmap_compose.
    by apply list_fmap_ext. }
  split; [done|]. split; [unfold unique_names; by rewrite Hnames|].
  intros fuel Hres Hacyc Hfuel.
  destruct (run_cpm_exits csv fuel Hres Hacyc Hfuel)
    as (es & ef & ls & lf & df1 & _ & _ & _ & _ & Hrun).
  eexists. split; [exact Hrun|]. by apply (run_cpm_columns fuel csv).
Qed.

Lemma duplicate_names_are_accepted_witness :
  ¬ NoDup (csv_Task <$> duplicate_csv) ∧
  names (load_and_prepare_data duplicate_csv) = csv_Task <$> duplicate_csv ∧
  ¬ unique_names (load_and_prepare_data duplicate_csv) ∧
  ∃ out, run_cpm 3 duplicate_csv = Some out ∧ Task <$> out = csv_Task <$> duplicate_csv.
Proof.
  assert (¬ NoDup (csv_Task <$> duplicate_csv)) as Hdup.
  { apply (bool_decide_eq_false_1 _). vm_compute. reflexivity. }
  destruct (duplicate_names_are_accepted duplicate_csv Hdup) as (Hnames & Hnot & Hrun).
  split; [exact Hdup|]. split; [exact Hnames|]. split; [exact Hnot|].
  apply (Hrun 3%nat).
  - apply resolvableb_sound. vm_compute. reflexivity.
  - apply (ranked_acyclic duplicate_rank). vm_compute. reflexivity.
  - simpl. lia.
Defined.

(** C10, counterexample. Sharing a name does not by itself make the
    passes leave: with two rows named [A], the forward pass returns
    nothing, whatever the fuel, when [A] and [B] wait for each other, and
    also when [B] lists a name that is no row. *)
Lemma duplicate_names_do_not_ensure_termination :
  (¬ NoDup (csv_Task <$> duplicate_cyclic_csv) ∧
   ∀ fuel, calculate_es_ef fuel (load_and_prepare_data duplicate_cyclic_csv) = None ∧
           run_cpm fuel duplicate_cyclic_csv = None) ∧
  (¬ NoDup (csv_Task <$> duplicate_dangling_csv) ∧
   ∀ fuel, calculate_es_ef fuel (load_and_prepare_data duplicate_dangling_csv) = None ∧
           run_cpm fuel duplicate_dangling_csv = None).
Proof.
  split; (split; [apply (bool_decide_eq_false_1 _); vm_compute; reflexivity|]); intros fuel.
  - assert (calculate_es_ef fuel (load_and_prepare_data duplicate_cyclic_csv) = None) as Hnone.
    { apply calculate_es_ef_none, (es_ef_loop_blocked _ (λ _, True)).
      - assert (Forall (λ row, Predecessors row ≠ [])
                  (load_and_prepare_data duplicate_cyclic_csv)) as Hall.
        { apply (bool_decide_unpack _). vm_compute. exact I. }
        intros row Hrow _. rewrite Forall_forall in Hall. apply Hall in Hrow.
        destruct (Predecessors row) as [|p ps]; [done|]. exists p. split; [left|done].
      - eexists. split; [|done]. apply list_elem_of_lookup_2 with 0%nat.
        vm_compute. reflexivity. }
    split; [done|]. by apply run_cpm_none.
  - assert (calculate_es_ef fuel (load_and_prepare_data duplicate_dangling_csv) = None) as Hnone.
    { apply calculate_es_ef_none.
      apply (es_ef_loop_dangling _
               (mkRow "B" 1 ["X"%string] (Some 0) (Some 0) (Some 0) (Some 0) (Some 0) false [])
               "X").
      - apply list_elem_of_lookup_2 with 2%nat. vm_compute. reflexivity.
      - simpl. left.
      - apply (bool_decide_eq_false_1 _). vm_compute. reflexivity. }
    split; [done|]. by apply run_cpm_none.
Qed.

(** C10, as amended. If the input has several rows that share a task
    name, and every predecessor names a row and the names carry no cycle,
    then no error is raised and both passes leave (one unit of fuel per
    row suffices); all output rows with the same name carry the same
    [ES], [EF], [LS] and [LF], and these are the values written by the
    last store under that name in the forward and in the backward loop. *)
Theorem rows_sharing_a_name_get_last_stored_values csv fuel :
  ¬ NoDup (csv_Task <$> csv) →
  resolvable (load_and_prepare_data csv) → acyclic (load_and_prepare_data csv) →
  (length csv ≤ fuel)%nat →
  ∃ df1 df2 out,
    calculate_es_ef fuel (load_and_prepare_data csv) = Some df1 ∧
    calculate_ls_lf fuel df1 = Some df2 ∧
    run_cpm fuel csv = Some out ∧ out = calculate_slack df2 ∧
    Task <$> out = csv_Task <$> csv ∧
    (∀ r1 r2, r1 ∈ out → r2 ∈ out → Task r1 = Task r2 →
       ES r1 = ES r2 ∧ EF r1 = EF r2 ∧ LS r1 = LS r2 ∧ LF r1 = LF r2) ∧
    (∀ r, r ∈ out →
       last_stored_early
         (store_order es_ef_ready es_ef_store fuel (∅, ∅)
            (iterrows (load_and_prepare_data csv))) r ∧
       last_stored_late (project_finish df1) (seed_lf (project_finish df1) df1)
         (store_order ls_lf_ready (ls_lf_store (project_finish df1)) fuel
            (∅, seed_lf (project_finish df1) df1) (iterrows df1)) r).
Proof.
  intros _ Hres Hacyc Hfuel.
  destruct (run_cpm_exits csv fuel Hres Hacyc Hfuel)
    as (es & ef & ls & lf & df1 & Hdf1 & Hfwd & Hcalc & Hbwd & Hrun).
  set (df := load_and_prepare_data csv) in *.
  set (df2 := (λ row, set_LS_LF (mjoin (ls !! Task row)) (mjoin (lf !! Task row)) row) <$> df1)
    in *.
  exists df1, df2, (calculate_slack df2).
  split; [done|]. split; [unfold calculate_ls_lf; by rewrite Hbwd|].
  split; [done|]. split; [done|].
  split; [by apply (run_cpm_columns fuel csv)|].
  (* Every output row is read off the dictionaries at its own name. *)
  assert (∀ r, r ∈ calculate_slack df2 →
            ∃ row row1, row ∈ df ∧ row1 ∈ df1 ∧
              row1 = set_ES_EF (es !! Task row) (ef !! Task row) row ∧
              Task r = Task row ∧
              ES r = es !! Task r ∧ EF r = ef !! Task r ∧
              LS r = mjoin (ls !! Task r) ∧ LF r = mjoin (lf !! Task r)) as Hread.
  { intros r (r2 & Hr2 & ->)%calculate_slack_row.
    apply list_elem_of_fmap in Hr2 as (r1 & -> & Hr1).
    pose proof Hr1 as Hr1'. rewrite Hdf1 in Hr1'.
    apply list_elem_of_fmap in Hr1' as (row & -> & Hrow).
    exists row, (set_ES_EF (es !! Task row) (ef !! Task row) row). done. }
  split.
  - intros r1 r2 (_ & _ & _ & _ & _ & _ & -> & -> & -> & ->)%Hread
      (_ & _ & _ & _ & _ & _ & -> & -> & -> & ->)%Hread ->. done.
  - intros r Hr. destruct (Hread r Hr) as (row & row1 & Hrow & Hrow1 & Hrow1eq & Ht & Hes & Hef & Hls & Hlf).
    split.
    + apply (last_stored_early_ext _ (set_ES_EF (es !! Task row) (ef !! Task row) row)).
      * by rewrite Ht.
      * by rewrite Hes, Ht.
      * by rewrite Hef, Ht.
      * by apply es_ef_last_stored.
    + apply (last_stored_late_ext _ _ _
               (set_LS_LF (mjoin (ls !! Task row1)) (mjoin (lf !! Task row1)) row1)).
      * by rewrite Ht, Hrow1eq.
      * by rewrite Hls, Ht, Hrow1eq.
      * by rewrite Hlf, Ht, Hrow1eq.
      * by apply ls_lf_last_stored.
Qed.

Lemma rows_sharing_a_name_get_last_stored_values_witness :
  ¬ NoDup (csv_Task <$> duplicate_csv) ∧
  resolvable (load_and_prepare_data duplicate_csv) ∧
  acyclic (load_and_prepare_data duplicate_csv) ∧
  (length duplicate_csv ≤ 3)%nat ∧
  ∃ df1 df2 out,
    calculate_es_ef 3 (load_and_prepare_data duplicate_csv) = Some df1 ∧
    calculate_ls_lf 3 df1 = Some df2 ∧
    run_cpm 3 duplicate_csv = Some out ∧ out = calculate_slack df2 ∧
    Task <$> out = csv_Task <$> duplicate_csv ∧
    (∀ r1 r2, r1 ∈ out → r2 ∈ out → Task r1 = Task r2 →
       ES r1 = ES r2 ∧ EF r1 = EF r2 ∧ LS r1 = LS r2 ∧ LF r1 = LF r2) ∧
    (∀ r, r ∈ out →
       last_stored_early
         (store_order es_ef_ready es_ef_store 3 (∅, ∅)
            (iterrows (load_and_prepare_data duplicate_csv))) r ∧
       last_stored_late (project_finish df1) (seed_lf (project_finish df1) df1)
         (store_order ls_lf_ready (ls_lf_store (project_finish df1)) 3
            (∅, seed_lf (project_finish df1) df1) (iterrows df1)) r).
Proof.
  assert (¬ NoDup (csv_Task <$> duplicate_csv)) as Hdup.
  { apply (bool_decide_eq_false_1 _). vm_compute. reflexivity. }
  assert (resolvable (load_and_prepare_data duplicate_csv)) as Hres.
  { apply resolvableb_sound. vm_compute. reflexivity. }
  assert (acyclic (load_and_prepare_data duplicate_csv)) as Hacyc.
  { apply (ranked_acyclic duplicate_rank). vm_compute. reflexivity. }
  assert (length duplicate_csv ≤ 3)%nat as Hfuel by (simpl; lia).
  split; [exact Hdup|]. split; [exact Hres|]. split; [exact Hacyc|]. split; [exact Hfuel|].
  exact (rows_sharing_a_name_get_last_stored_values duplicate_csv 3 Hdup Hres Hacyc Hfuel).
Defined.

(** * Further properties of the code *)

(** ** Splitting and joining the predecessor field *)

Lemma split_nonempty sep s : split sep s ≠ [].
Proof.
  destruct s as [|c s]; simpl; [done|].
  destruct (Ascii.eqb c sep); [done|]. by destruct (split sep s).
Qed.

Lemma join_cons sep x y rest :
  join sep (x :: y :: rest) = x +:+ sep +:+ join sep (y :: rest).
Proof. done. Qed.

(** X1. Joining the tokens of [x.split(",")] with commas gives [x] back:
    splitting loses and strips nothing. *)
Theorem join_split s : join "," (split ","%char s) = s.
Proof.
  induction s as [|c s IH]; [done|]. simpl.
  destruct (Ascii.eqb_spec c ","%char) as [->|Hne].
  - pose proof (split_nonempty ","%char s) as Hne.
    destruct (split ","%char s) as [|t ts] eqn:Hs; [done|].
    rewrite join_cons, IH. done.
  - destruct (split ","%char s) as [|t ts] eqn:Hs.
    + by destruct (split_nonempty ","%char s).
    + rewrite <- IH. destruct ts as [|t' ts]; [done|].
      rewrite !join_cons. done.
Qed.

(** X2. No token of [x.split(",")] contains a comma, and there is one
    token more than there are commas in [x]. *)
Theorem split_tokens s :
  (∀ t, t ∈ split ","%char s → ","%char ∉ chars t) ∧
  length (split ","%char s) = S (length (filter (λ c, c = ","%char) (chars s))).
Proof.
  induction s as [|c s [IHt IHn]].
  - split; [|done]. simpl. intros t ->%list_elem_of_singleton. by intros ?%elem_of_nil.
  - change (chars (String c s)) with (c :: chars s). rewrite filter_cons.
    cbn [split].
    destruct (Ascii.eqb_spec c ","%char) as [->|Hne].
    + rewrite decide_True by done. split.
      * intros t [->|Ht]%elem_of_cons; [by intros ?%elem_of_nil|by apply IHt].
      * simpl. by rewrite IHn.
    + rewrite decide_False by done.
      destruct (split ","%char s) as [|t ts] eqn:Hs; [by destruct (split_nonempty ","%char s)|].
      split; [|done].
      intros t' [->|Ht']%elem_of_cons.
      * change (chars (String c t)) with (c :: chars t).
        intros [?|Hin]%elem_of_cons; [done|]. revert Hin. apply IHt. left.
      * apply IHt. by right.
Qed.

Lemma join_parse_predecessors field :
  join "," (parse_predecessors field) = default EmptyString field.
Proof.
  unfold parse_predecessors.
  destruct (default EmptyString field) as [|c x] eqn:Hx; [done|].
  apply join_split.
Qed.

(** X3. What [export_cpm_to_csv] writes in the [Predecessors] column of
    the finished table is, row by row, the text of the input field (the
    empty string for a missing field). *)
Theorem export_predecessors_is_input_field csv fuel out :
  run_cpm fuel csv = Some out →
  out_Predecessors <$> export_columns out =
  (λ c, default EmptyString (csv_Predecessors c)) <$> csv.
Proof.
  intros (_ & _ & Hpreds)%run_cpm_columns.
  unfold export_columns. rewrite <- list_fmap_compose.
  transitivity ((λ l, join "," l) <$> (Predecessors <$> out)).
  { by rewrite <- list_fmap_compose. }
  rewrite Hpreds, <- list_fmap_compose. apply list_fmap_ext.
  intros i c _. apply join_parse_predecessors.
Qed.

Lemma export_predecessors_is_input_field_witness :
  ∃ out, run_cpm 4 branches_csv = Some out ∧
         out_Predecessors <$> export_columns out =
         (λ c, default EmptyString (csv_Predecessors c)) <$> branches_csv.
Proof.
  eexists. split; [vm_compute; reflexivity|].
  apply (export_predecessors_is_input_field branches_csv 4). vm_compute. reflexivity.
Defined.

(** X4. Reading an exported [Predecessors] field back gives the list it
    was rendered from: parsing, joining and parsing again is parsing
    once. *)
Theorem parse_predecessors_roundtrip field :
  parse_predecessors (Some (join "," (parse_predecessors field))) =
  parse_predecessors field.
Proof.
  rewrite join_parse_predecessors. by destruct field.
Qed.

(** ** The successor column *)

Lemma add_successor_lookup task (preds : list string) m t :
  default [] (foldl (add_successor task) m preds !! t) =
  default [] (m !! t) ++ (preds ≫= λ p, if decide (p = t) then [task] else []).
Proof.
  revert m. induction preds as [|p preds IH]; intros m; simpl.
  - by rewrite app_nil_r.
  - rewrite IH. unfold add_successor at 1.
    destruct (decide (p = t)) as [->|Hne].
    + rewrite lookup_insert_eq. simpl. by rewrite <- app_assoc.
    + by rewrite lookup_insert_ne.
Qed.

Lemma build_successors_map_lookup (rows : list (string * list string)) t :
  default [] (build_successors_map rows !! t) =
  rows ≫= λ r, r.2 ≫= λ p, if decide (p = t) then [r.1] else [].
Proof.
  unfold build_successors_map.
  assert (∀ m, default [] (foldl (λ m row, foldl (add_successor row.1) m row.2) m rows !! t)
               = default [] (m !! t) ++
                 (rows ≫= λ r, r.2 ≫= λ p, if decide (p = t) then [r.1] else [])) as Hgen.
  { induction rows as [|r rows IH]; intros m; simpl.
    - by rewrite app_nil_r.
    - by rewrite IH, add_successor_lookup, <- app_assoc. }
  by rewrite Hgen, lookup_empty.
Qed.

(** X5. The [Successors] cell of a row named [t] is exactly the names of
    the rows that list [t], in file order, repeated as often as [t] is
    listed. *)
Theorem successors_are_listing_rows csv :
  Successors <$> load_and_prepare_data csv =
  (λ row, listed_by (load_and_prepare_data csv) (Task row)) <$> load_and_prepare_data csv.
Proof.
  apply list_fmap_ext. intros i row Hrow.
  apply list_elem_of_lookup_2 in Hrow. revert Hrow.
  unfold load_and_prepare_data, listed_by.
  intros (r & -> & Hr)%list_elem_of_fmap. simpl.
  rewrite build_successors_map_lookup. by rewrite !list_fmap_bind.
Qed.

(** X6. The successor column is the inverse of the predecessor column:
    [s] is a successor of a row exactly when a row named [s] lists that
    row's name; in particular every successor is the name of a row, and
    predecessor tokens that name no row appear in no successor cell. *)
Theorem successors_inverse_of_predecessors csv row s :
  row ∈ load_and_prepare_data csv →
  (s ∈ Successors row ↔
   ∃ row', row' ∈ load_and_prepare_data csv ∧ Task row' = s ∧ Task row ∈ Predecessors row') ∧
  (s ∈ Successors row → s ∈ names (load_and_prepare_data csv)).
Proof.
  intros Hrow. pose proof (load_successors_consistent csv row s Hrow) as Hiff.
  split; [exact Hiff|].
  intros (row' & Hrow' & <- & _)%Hiff. apply elem_of_names. by exists row'.
Qed.

Lemma successors_inverse_of_predecessors_witness :
  ("B"%string ∈ ["B"; "C"]%string ↔
   ∃ row', row' ∈ load_and_prepare_data branches_csv ∧ Task row' = "B"%string ∧
           "A"%string ∈ Predecessors row') ∧
  ("B"%string ∈ ["B"; "C"]%string → "B"%string ∈ names (load_and_prepare_data branches_csv)).
Proof.
  apply (successors_inverse_of_predecessors branches_csv
           (mkRow "A" 2 [] (Some 0) (Some 0) (Some 0) (Some 0) (Some 0) false ["B"; "C"]%string)
           "B").
  apply list_elem_of_lookup_2 with 0%nat. vm_compute. reflexivity.
Defined.

(** ** The [activities] dictionary *)

Lemma activities_foldl_other (m : gmap string (Z * list string)) (df : DataFrame) n :
  Forall (λ r, Task r ≠ n) df →
  foldl (λ m row, <[Task row := (Duration row, Predecessors row)]> m) m df !! n = m !! n.
Proof.
  revert m. induction df as [|x df IH]; intros m Hall; [done|]. simpl.
  apply Forall_cons in Hall as [Hx Hall].
  by rewrite IH, lookup_insert_ne.
Qed.

(** X7. [activities] maps a task name to the duration and predecessor
    list of the last row that bears it (so of its only row when names
    are unique), and has no entry for any other name. *)
Theorem activities_last_row_wins before row after :
  Forall (λ r, Task r ≠ Task row) after →
  activities (before ++ row :: after) !! Task row = Some (Duration row, Predecessors row) ∧
  ∀ n, n ∉ names (before ++ row :: after) → activities (before ++ row :: after) !! n = None.
Proof.
  intros Hafter. unfold activities. split.
  - rewrite foldl_app. simpl. rewrite activities_foldl_other by done.
    apply lookup_insert_eq.
  - intros n Hn. rewrite activities_foldl_other; [apply lookup_empty|].
    apply Forall_forall. intros r Hr <-. apply Hn, elem_of_names. by exists r.
Qed.

Lemma activities_last_row_wins_witness :
  activities (load_and_prepare_data duplicate_csv) !! "A"%string = Some (5, []) ∧
  ∀ n, n ∉ names (load_and_prepare_data duplicate_csv) →
       activities (load_and_prepare_data duplicate_csv) !! n = None.
Proof.
  apply (activities_last_row_wins
           [mkRow "A" 1 [] (Some 0) (Some 0) (Some 0) (Some 0) (Some 0) false ["B"%string]]
           (mkRow "A" 5 [] (Some 0) (Some 0) (Some 0) (Some 0) (Some 0) false ["B"%string])
           [mkRow "B" 1 ["A"%string] (Some 0) (Some 0) (Some 0) (Some 0) (Some 0) false []]).
  apply (bool_decide_unpack _). vm_compute. exact I.
Defined.

(** ** The equations behind the finished table *)

Lemma ls_lf_ready_elem st row s :
  ls_lf_ready st row = true → s ∈ Successors row → is_Some (st.1 !! s).
Proof.
  unfold ls_lf_ready. rewrite forallb_elem. intros Hall Hs.
  by apply Hall, bool_decide_eq_true in Hs.
Qed.

Lemma late_finish_insert pf (ls : gmap string cell) row t v :
  ls !! t = None → (∀ s, s ∈ Successors row → is_Some (ls !! s)) →
  late_finish pf (<[t := v]> ls) row = late_finish pf ls row.
Proof.
  intros Ht Hall. unfold late_finish.
  replace ((λ s, <[t := v]> ls !!! s) <$> Successors row)
    with ((λ s, ls !!! s) <$> Successors row); [done|].
  apply list_fmap_ext. intros i s Hs.
  apply list_elem_of_lookup_2, Hall in Hs as [e He].
  rewrite !lookup_total_alt, lookup_insert_ne; [done|]. congruence.
Qed.

Section backward_equations.
Variable df : DataFrame.
Variable pf : cell.
Hypothesis Hunique : unique_names df.

Lemma ls_lf_eq_inv_init lf : ls_lf_eq_inv df pf (∅, lf) (iterrows df).
Proof.
  split; [apply pending_init|]. split.
  - intros ir _. apply lookup_empty.
  - intros row _ [e He]. simpl in He. by rewrite lookup_empty in He.
Qed.

Lemma ls_lf_eq_inv_preserved :
  sweep_preserves ls_lf_ready (ls_lf_store pf) (ls_lf_eq_inv df pf).
Proof.
  intros [ls lf] remaining i row (Hpend & Hfresh & Hval) Hin Hready.
  assert (ls !! Task row = None) as Hnone by apply (Hfresh _ Hin).
  assert (row ∈ df) as Hrow by (destruct Hpend as [Hsub _]; apply (iterrows_row _ _ (Hsub _ Hin))).
  assert (∀ s, s ∈ Successors row → is_Some (ls !! s)) as Hsuccs.
  { intros s Hs. by apply (ls_lf_ready_elem _ _ _ Hready) in Hs. }
  split; [|split].
  - by apply (pending_preserved ls_lf_ready (ls_lf_store pf) ls_lf_resolved
                (ls_lf_store_resolved pf) df (ls, lf)).
  - intros [j row'] [Hne Hin']%drop_label_elem. simpl in *.
    rewrite lookup_insert_ne; [by apply (Hfresh _ Hin')|].
    intros Heq. apply Hne.
    destruct Hpend as [Hsub _].
    apply Hsub, iterrows_lookup in Hin. apply Hsub, iterrows_lookup in Hin'.
    by apply (unique_names_label df j i row' row).
  - intros row' Hrow' Hsome. simpl in *.
    destruct (decide (Task row = Task row')) as [Heq|Hne].
    + assert (row = row') as <- by by apply (unique_names_row df).
      rewrite !lookup_insert_eq, late_finish_insert by done.
      split; [|done]. intros s Hs. apply lookup_insert_is_Some'. right. by apply Hsuccs.
    + rewrite lookup_insert_ne in Hsome by done.
      destruct (Hval _ Hrow' Hsome) as (Hsuccs' & Hlf & Hls). simpl in *.
      rewrite !lookup_insert_ne, late_finish_insert by done.
      split; [|done]. intros s Hs. apply lookup_insert_is_Some'. right. by apply Hsuccs'.
Qed.
End backward_equations.

(** The dictionaries the backward loop returns satisfy the backward
    equations at every row. *)
Lemma ls_lf_loop_equations df fuel ls lf row :
  unique_names df → ls_lf_loop fuel df = Some (ls, lf) → row ∈ df →
  (∀ s, s ∈ Successors row → is_Some (ls !! s)) ∧
  lf !! Task row = Some (late_finish (project_finish df) ls row) ∧
  ls !! Task row = Some (cell_sub_int (late_finish (project_finish df) ls row) (Duration row)).
Proof.
  intros Hunique Hrun Hrow. unfold ls_lf_loop in Hrun. cbv zeta in Hrun.
  apply (while_remaining_inv _ _ (ls_lf_eq_inv df (project_finish df))) in Hrun;
    [|by apply ls_lf_eq_inv_preserved|apply ls_lf_eq_inv_init].
  destruct Hrun as ([_ Hall] & _ & Hval).
  apply (Hval row Hrow).
  destruct (row_iterrows _ _ Hrow) as [i Hi].
  destruct (Hall _ Hi) as [Hnil|Hres]; [by apply elem_of_nil in Hnil|].
  by apply bool_decide_eq_true in Hres.
Qed.

Lemma run_cpm_equations csv fuel :
  unique_names (load_and_prepare_data csv) → resolvable (load_and_prepare_data csv) →
  acyclic (load_and_prepare_data csv) → (length csv ≤ fuel)%nat →
  ∃ es ef ls lf,
    run_cpm fuel csv = Some (table_row es ef ls lf <$> load_and_prepare_data csv) ∧
    ∀ row, row ∈ load_and_prepare_data csv →
      row_solved (load_and_prepare_data csv) es ef ls lf
        (col_max ((λ row, ef !! Task row) <$> load_and_prepare_data csv)) row.
Proof.
  intros Hunique Hres Hacyc Hfuel.
  destruct (run_cpm_exits csv fuel Hres Hacyc Hfuel)
    as (es & ef & ls & lf & df1 & Hdf1 & Hfwd & _ & Hbwd & Hrun).
  set (df := load_and_prepare_data csv) in *.
  set (g := λ row, set_ES_EF (es !! Task row) (ef !! Task row) row) in *.
  assert (same_schedule g) as Hg by done.
  exists es, ef, ls, lf. split.
  { rewrite Hrun, Hdf1. f_equal. unfold calculate_slack.
    rewrite <- !list_fmap_compose. by apply list_fmap_ext. }
  assert (project_finish df1 = col_max ((λ row, ef !! Task row) <$> df)) as Hpf.
  { unfold project_finish. rewrite Hdf1, <- list_fmap_compose. done. }
  rewrite <- Hpf.
  assert (unique_names df1) as Hunique1.
  { unfold unique_names. rewrite Hdf1, (same_schedule_names g Hg). done. }
  assert (successors_consistent df1) as Hcons1.
  { rewrite Hdf1. apply (same_schedule_consistent g Hg), load_successors_consistent. }
  intros row Hrow.
  destruct (es_ef_loop_final df Hunique fuel es ef row Hfwd Hrow) as (Hpreds & Hes & Hef).
  assert (g row ∈ df1) as Hrow1 by (rewrite Hdf1; by apply list_elem_of_fmap_2).
  destruct (ls_lf_loop_equations df1 fuel ls lf (g row) Hunique1 Hbwd Hrow1)
    as (Hsuccs & Hlfeq & Hlseq).
  (* The forward columns of [df1]. *)
  assert (∀ r1, r1 ∈ df1 → ∃ r, r ∈ df ∧ r1 = g r ∧
            ES r1 = Some (early_start ef r) ∧
            EF r1 = Some (early_start ef r + Duration r1)) as Hcols.
  { intros r1 Hr1. rewrite Hdf1 in Hr1.
    apply list_elem_of_fmap in Hr1 as (r & -> & Hr). exists r.
    destruct (es_ef_loop_final df Hunique fuel es ef r Hfwd Hr) as (_ & Hes' & Hef').
    simpl. by rewrite Hes', Hef'. }
  destruct (col_max_spec (EF <$> df1)) as (finish & Hfin & Hfin_in & Hfin_max).
  { intros Hnil%fmap_nil_inv. rewrite Hnil in Hrow1. by apply elem_of_nil in Hrow1. }
  { intros c (r1 & -> & Hr1)%list_elem_of_fmap.
    destruct (Hcols _ Hr1) as (r & _ & _ & _ & ->). by eexists. }
  fold (project_finish df1) in Hfin.
  pose proof Hbwd as Hbwd'. unfold ls_lf_loop in Hbwd'. rewrite Hfin in Hbwd'. cbv zeta in Hbwd'.
  destruct (ls_lf_loop_final df1 finish Hunique1 Hcons1) with (fuel := fuel) (ls := ls)
    (lf := lf) (lf0 := seed_lf (Some finish) df1) (row := g row)
    as (l & e & He & Hls & Hlf & Hle & Hnn); [| | |done|done|].
  - intros r1 Hr1. destruct (Hcols _ Hr1) as (r & _ & _ & Hes' & Hef'). by eexists.
  - intros r1 r1' e e' Hr1 Hr1' Hpred He He'.
    destruct (Hcols _ Hr1) as (r & Hr & -> & _ & Hef').
    destruct (Hcols _ Hr1') as (r' & Hr' & -> & Hes' & _).
    simpl in *. simplify_eq.
    apply early_start_ge with (p := Task r); [done|].
    destruct (es_ef_loop_final df Hunique fuel es ef r Hfwd Hr) as (_ & _ & ->). done.
  - intros r1 e Hr1 He. apply Hfin_max. rewrite <- He. by apply list_elem_of_fmap_2.
  - simpl in He, Hls, Hlf, Hle, Hnn, Hsuccs, Hlfeq, Hlseq.
    rewrite Hes in He. injection He as <-.
    split; [done|]. split; [done|]. split; [done|]. split; [done|].
    exists l, finish. rewrite Hfin. split; [done|]. split; [done|]. split; [done|].
    split.
    { rewrite Hfin in Hlfeq. rewrite Hlf in Hlfeq. injection Hlfeq as Heq.
      rewrite Heq. done. }
    split; [done|]. split.
    + apply Hfin_max. apply list_elem_of_fmap. exists (g row). split; [|done].
      simpl. by rewrite Hef.
    + intros Hnonneg. apply Hnn. intros r1 Hr1.
      destruct (Hcols _ Hr1) as (r & Hr & -> & _). simpl. by apply Hnonneg.
Qed.

Lemma early_start_attained ef row :
  Predecessors row ≠ [] →
  ∃ p, p ∈ Predecessors row ∧ ef !!! p = early_start ef row.
Proof.
  intros Hne. unfold early_start.
  destruct ((λ p, ef !!! p) <$> Predecessors row) as [|x xs] eqn:Hl.
  - by apply fmap_nil_inv in Hl.
  - pose proof (py_max_elem x xs) as Hin. rewrite <- Hl in Hin.
    apply list_elem_of_fmap in Hin as (p & Hp & Hin). by exists p.
Qed.

Lemma late_finish_spec pf (ls : gmap string cell) row :
  Successors row ≠ [] →
  (∀ s, s ∈ Successors row → ∃ x, ls !!! s = Some x) →
  ∃ m, late_finish pf ls row = Some m ∧
       (∃ s, s ∈ Successors row ∧ ls !!! s = Some m) ∧
       (∀ s x, s ∈ Successors row → ls !!! s = Some x → m ≤ x).
Proof.
  intros Hne Hall. unfold late_finish.
  destruct (Successors row) as [|s ss] eqn:Hss; [done|]. simpl.
  destruct (Hall s) as [x Hx]; [left|]. rewrite Hx.
  destruct (py_min_some x ((λ s, ls !!! s) <$> ss)) as (m & Hm & Hin & Hmin).
  { intros c (s' & -> & Hs')%list_elem_of_fmap.
    destruct (Hall s') as [x' ->]; [by right|]. by eexists. }
  exists m. split; [done|]. split.
  - apply elem_of_cons in Hin as [Heq|Hin].
    + exists s. split; [left|congruence].
    + apply list_elem_of_fmap in Hin as (s' & Heq & Hs'). exists s'. split; [by right|done].
  - intros s' x' Hs' Hx'. apply Hmin. rewrite <- Hx'.
    apply elem_of_cons in Hs' as [->|Hs']; [rewrite Hx; left|].
    right. apply list_elem_of_fmap. by exists s'.
Qed.

Lemma table_row_elem es ef ls lf (df : DataFrame) r :
  r ∈ table_row es ef ls lf <$> df ↔ ∃ row, row ∈ df ∧ r = table_row es ef ls lf row.
Proof.
  rewrite list_elem_of_fmap. split; intros (row & H1 & H2); by exists row.
Qed.

(** X8. Forward recurrence. In the finished table of a schedule with
    unique names, resolvable predecessors and no cycle, the early start
    of a row without predecessors is 0, and the early start of any other
    row is the largest early finish among the rows it lists: no listed
    row finishes later, and one of them finishes exactly then. *)
Theorem early_start_is_latest_predecessor_finish csv fuel :
  unique_names (load_and_prepare_data csv) → resolvable (load_and_prepare_data csv) →
  acyclic (load_and_prepare_data csv) → (length csv ≤ fuel)%nat →
  ∃ out, run_cpm fuel csv = Some out ∧
    ∀ row, row ∈ out →
      ∃ e, ES row = Some e ∧
           (Predecessors row = [] → e = 0) ∧
           (∀ r, r ∈ out → Task r ∈ Predecessors row → ∃ f, EF r = Some f ∧ f ≤ e) ∧
           (Predecessors row ≠ [] →
              ∃ r, r ∈ out ∧ Task r ∈ Predecessors row ∧ EF r = Some e).
Proof.
  intros Hunique Hres Hacyc Hfuel.
  destruct (run_cpm_equations csv fuel Hunique Hres Hacyc Hfuel)
    as (es & ef & ls & lf & Hrun & Hsolved).
  eexists. split; [exact Hrun|].
  intros r (row & Hrow & ->)%table_row_elem.
  destruct (Hsolved row Hrow) as (Hpreds & Hes & Hef & _).
  exists (early_start ef row). simpl. split; [done|]. split; [|split].
  - intros Hnil. unfold early_start. by rewrite Hnil.
  - intros r' (row' & Hrow' & ->)%table_row_elem Hin. simpl in *.
    destruct (Hpreds _ Hin) as [f Hf]. exists f. split; [done|].
    by apply early_start_ge with (Task row').
  - intros Hne. destruct (early_start_attained ef row Hne) as (p & Hp & Hmax).
    destruct (Hpreds p Hp) as [f Hf].
    pose proof (Hres row p Hrow Hp) as Hname.
    apply elem_of_names in Hname as (row' & Hrow' & Hname).
    exists (table_row es ef ls lf row'). split; [apply table_row_elem; by exists row'|].
    simpl. rewrite Hname. split; [done|].
    rewrite <- Hmax, lookup_total_alt, Hf. done.
Qed.

Lemma early_start_is_latest_predecessor_finish_witness :
  ∃ out, run_cpm 4 branches_csv = Some out ∧
    ∀ row, row ∈ out →
      ∃ e, ES row = Some e ∧
           (Predecessors row = [] → e = 0) ∧
           (∀ r, r ∈ out → Task r ∈ Predecessors row → ∃ f, EF r = Some f ∧ f ≤ e) ∧
           (Predecessors row ≠ [] →
              ∃ r, r ∈ out ∧ Task r ∈ Predecessors row ∧ EF r = Some e).
Proof.
  assert (valid_acyclic (load_and_prepare_data branches_csv)) as [Hu Hr _ Ha].
  { apply (valid_acyclicb_sound branches_rank). vm_compute. reflexivity. }
  apply (early_start_is_latest_predecessor_finish branches_csv 4 Hu Hr Ha).
  simpl. lia.
Defined.

(** X9. Backward recurrence. In the same finished tables, the late finish
    of a row without successors is the project finish (the maximum of the
    [EF] column), and the late finish of any other row is the smallest
    late start among its successors: no successor starts earlier, and
    one of them starts exactly then. *)
Theorem late_finish_is_earliest_successor_start csv fuel :
  unique_names (load_and_prepare_data csv) → resolvable (load_and_prepare_data csv) →
  acyclic (load_and_prepare_data csv) → (length csv ≤ fuel)%nat →
  ∃ out, run_cpm fuel csv = Some out ∧
    ∀ row, row ∈ out →
      ∃ l, LF row = Some l ∧
           (Successors row = [] → col_max (EF <$> out) = Some l) ∧
           (∀ r, r ∈ out → Task r ∈ Successors row → ∃ x, LS r = Some x ∧ l ≤ x) ∧
           (Successors row ≠ [] →
              ∃ r, r ∈ out ∧ Task r ∈ Successors row ∧ LS r = Some l).
Proof.
  intros Hunique Hres Hacyc Hfuel.
  destruct (run_cpm_equations csv fuel Hunique Hres Hacyc Hfuel)
    as (es & ef & ls & lf & Hrun & Hsolved).
  set (df := load_and_prepare_data csv) in *.
  eexists. split; [exact Hrun|].
  assert (EF <$> (table_row es ef ls lf <$> df) = (λ row, ef !! Task row) <$> df) as Hcol.
  { rewrite <- list_fmap_compose. by apply list_fmap_ext. }
  rewrite Hcol.
  intros r (row & Hrow & ->)%table_row_elem.
  destruct (Hsolved row Hrow)
    as (_ & _ & _ & Hsuccs & l & f & Hpf & Hls & Hlf & Hlate & _).
  (* Every successor names a row, whose late start is an integer. *)
  assert (∀ s, s ∈ Successors row →
            ∃ row' x, row' ∈ df ∧ Task row' = s ∧ ls !! s = Some (Some x)) as Hsucc_rows.
  { intros s Hs. apply (load_successors_consistent csv row s Hrow) in Hs.
    destruct Hs as (row' & Hrow' & Hname & _).
    destruct (Hsolved row' Hrow') as (_ & _ & _ & _ & x & f' & _ & Hx & _).
    exists row', x. by rewrite <- Hname. }
  exists (l + Duration row). simpl. rewrite Hlf. split; [done|]. split; [|split].
  - intros Hnil. unfold late_finish in Hlate. rewrite Hnil in Hlate. simpl in Hlate.
    by rewrite Hpf, Hlate.
  - intros r' (row' & Hrow' & ->)%table_row_elem Hin. simpl in *.
    destruct (Hsucc_rows _ Hin) as (_ & x & _ & _ & Hx). rewrite Hx. simpl.
    exists x. split; [done|].
    destruct (late_finish_spec (Some f) ls row) as (m & Hm & _ & Hmin).
    + intros Hnil. rewrite Hnil in Hin. by apply elem_of_nil in Hin.
    + intros s Hs. destruct (Hsucc_rows s Hs) as (_ & x' & _ & _ & Hx').
      exists x'. by rewrite lookup_total_alt, Hx'.
    + assert (m = l + Duration row) as <- by congruence.
      apply (Hmin (Task row')); [done|]. by rewrite lookup_total_alt, Hx.
  - intros Hne.
    destruct (late_finish_spec (Some f) ls row Hne) as (m & Hm & (s & Hs & Hsm) & _).
    { intros s Hs. destruct (Hsucc_rows s Hs) as (_ & x' & _ & _ & Hx').
      exists x'. by rewrite lookup_total_alt, Hx'. }
    assert (m = l + Duration row) as -> by congruence.
    destruct (Hsucc_rows s Hs) as (row' & x & Hrow' & Hname & Hx).
    exists (table_row es ef ls lf row'). split; [apply table_row_elem; by exists row'|].
    simpl. rewrite Hname. split; [done|].
    rewrite lookup_total_alt, Hx in Hsm. simpl in Hsm. by rewrite Hx.
Qed.

Lemma late_finish_is_earliest_successor_start_witness :
  ∃ out, run_cpm 4 branches_csv = Some out ∧
    ∀ row, row ∈ out →
      ∃ l, LF row = Some l ∧
           (Successors row = [] → col_max (EF <$> out) = Some l) ∧
           (∀ r, r ∈ out → Task r ∈ Successors row → ∃ x, LS r = Some x ∧ l ≤ x) ∧
           (Successors row ≠ [] →
              ∃ r, r ∈ out ∧ Task r ∈ Successors row ∧ LS r = Some l).
Proof.
  assert (valid_acyclic (load_and_prepare_data branches_csv)) as [Hu Hr _ Ha].
  { apply (valid_acyclicb_sound branches_rank). vm_compute. reflexivity. }
  apply (late_finish_is_earliest_successor_start branches_csv 4 Hu Hr Ha).
  simpl. lia.
Defined.

Lemma early_start_nonneg df es ef ls lf pf :
  resolvable df → acyclic df → nonneg_durations df →
  (∀ row, row ∈ df → row_solved df es ef ls lf pf row) →
  ∀ row, row ∈ df → 0 ≤ early_start ef row.
Proof.
  intros Hres Hacyc Hnonneg Hsolved.
  assert (∀ n, Acc (pred_edge df) n → ∀ row, row ∈ df → Task row = n →
               0 ≤ early_start ef row) as Hind.
  { induction 1 as [n _ IH]. intros row Hrow <-.
    destruct (Predecessors row) as [|p0 ps] eqn:Hpreds.
    { unfold early_start. by rewrite Hpreds. }
    destruct (early_start_attained ef row) as (p & Hp & <-); [by rewrite Hpreds|].
    pose proof (Hres row p Hrow Hp) as Hname.
    apply elem_of_names in Hname as (row' & Hrow' & Hname).
    destruct (Hsolved row' Hrow') as (_ & _ & Hef & _).
    rewrite lookup_total_alt, <- Hname, Hef. simpl.
    assert (0 ≤ early_start ef row').
    { apply (IH p); [|done..]. exists row. done. }
    specialize (Hnonneg row' Hrow'). lia. }
  intros row Hrow. apply (Hind (Task row)); [|done..].
  by apply (dep_edge_acc Predecessors df).
Qed.

(** X11. Critical rows form chains. In the finished table of a schedule
    with unique names, resolvable predecessors, no cycle and integer
    durations whose absolute values add up to less than [2 ^ 63], a
    critical row that lists predecessors has a critical predecessor that finishes
    exactly when it starts, and a critical row with successors has a
    critical successor that starts exactly when it finishes; a critical
    row without predecessors starts at 0 and one without successors
    finishes at the project finish. *)
Theorem critical_rows_chain csv fuel :
  unique_names (load_and_prepare_data csv) → resolvable (load_and_prepare_data csv) →
  acyclic (load_and_prepare_data csv) → fits_int64 csv → (length csv ≤ fuel)%nat →
  ∃ out, run_cpm fuel csv = Some out ∧
    Task <$> out = csv_Task <$> csv ∧
    Duration <$> out = csv_Duration <$> csv ∧
    ∀ row, row ∈ out → Critical row = true →
      (Predecessors row = [] → ES row = Some 0) ∧
      (Predecessors row ≠ [] →
         ∃ r, r ∈ out ∧ Task r ∈ Predecessors row ∧ Critical r = true ∧ EF r = ES row) ∧
      (Successors row = [] → EF row = col_max (EF <$> out)) ∧
      (Successors row ≠ [] →
         ∃ r, r ∈ out ∧ Task r ∈ Successors row ∧ Critical r = true ∧ ES r = EF row).
Proof.
  intros Hunique Hres Hacyc Hfits Hfuel.
  destruct (run_cpm_equations csv fuel Hunique Hres Hacyc Hfuel)
    as (es & ef & ls & lf & Hrun & Hsolved).
  destruct (run_cpm_columns _ _ _ Hrun) as (Htasks & Hdurations & _).
  set (df := load_and_prepare_data csv) in *.
  eexists. split; [exact Hrun|]. split; [exact Htasks|]. split; [exact Hdurations|].
  assert (EF <$> (table_row es ef ls lf <$> df) = (λ row, ef !! Task row) <$> df) as Hcol.
  { rewrite <- list_fmap_compose. by apply list_fmap_ext. }
  rewrite Hcol.
  (* Every successor names a row that lists this row and has an integer
     late start. *)
  assert (∀ row s, row ∈ df → s ∈ Successors row →
            ∃ row' x, row' ∈ df ∧ Task row' = s ∧ Task row ∈ Predecessors row' ∧
                      ls !!! s = Some x ∧ ls !! s = Some (Some x)) as Hsucc_rows.
  { intros row s Hrow Hs. apply (load_successors_consistent csv row s Hrow) in Hs.
    destruct Hs as (row' & Hrow' & Hname & Hlists).
    destruct (Hsolved row' Hrow') as (_ & _ & _ & _ & x & f' & _ & Hx & _).
    exists row', x. rewrite <- Hname, lookup_total_alt, Hx. done. }
  (* A row is critical exactly when its late start is its early start. *)
  assert (∀ row l, row ∈ df → ls !! Task row = Some (Some l) →
            Critical (table_row es ef ls lf row) = true ↔ l = early_start ef row) as Hcrit.
  { intros row l Hrow Hl. destruct (Hsolved row Hrow) as (_ & Hes & _).
    simpl. rewrite Hl, Hes. simpl. rewrite bool_decide_eq_true.
    split; [intros [= ?]; lia|intros ->; f_equal; lia]. }
  intros r (row & Hrow & ->)%table_row_elem Hcritical.
  destruct (Hsolved row Hrow)
    as (Hpreds & Hes & Hef & Hsuccs & l & f & Hpf & Hls & Hlf & Hlate & Hle & _).
  apply (Hcrit row l Hrow Hls) in Hcritical as ->.
  simpl. rewrite Hes, Hef. split_and!.
  - intros Hnil. unfold early_start. by rewrite Hnil.
  - intros Hne. destruct (early_start_attained ef row Hne) as (p & Hp & Hmax).
    pose proof (Hres row p Hrow Hp) as Hname.
    apply elem_of_names in Hname as (row' & Hrow' & Hname).
    destruct (Hsolved row' Hrow')
      as (_ & Hes' & Hef' & _ & l' & f' & Hpf' & Hls' & Hlf' & Hlate' & Hle' & _).
    assert (early_start ef row' + Duration row' = early_start ef row) as Hmeet.
    { rewrite <- Hmax, lookup_total_alt, <- Hname, Hef'. done. }
    assert (Task row ∈ Successors row') as Hsucc.
    { apply (load_successors_consistent csv row' (Task row) Hrow').
      exists row. by rewrite Hname. }
    destruct (late_finish_spec (Some f') ls row') as (m & Hm & _ & Hmin).
    { intros Hnil. rewrite Hnil in Hsucc. by apply elem_of_nil in Hsucc. }
    { intros s Hs. destruct (Hsucc_rows row' s Hrow' Hs) as (_ & x & _ & _ & _ & Hx & _).
      by exists x. }
    assert (m = l' + Duration row') as -> by congruence.
    assert (l' + Duration row' ≤ early_start ef row) as Hcap.
    { apply (Hmin (Task row)); [done|]. by rewrite lookup_total_alt, Hls. }
    exists (table_row es ef ls lf row'). split; [apply table_row_elem; by exists row'|].
    split; [simpl; by rewrite Hname|]. split.
    + apply (Hcrit row' l' Hrow' Hls'). lia.
    + simpl. rewrite Hef'. f_equal. done.
  - intros Hnil. unfold late_finish in Hlate. rewrite Hnil in Hlate. simpl in Hlate.
    rewrite Hpf. done.
  - intros Hne.
    destruct (late_finish_spec (Some f) ls row Hne) as (m & Hm & (s & Hs & Hsm) & _).
    { intros s Hs. destruct (Hsucc_rows row s Hrow Hs) as (_ & x & _ & _ & _ & Hx & _).
      by exists x. }
    assert (m = early_start ef row + Duration row) as -> by congruence.
    destruct (Hsucc_rows row s Hrow Hs) as (row' & x & Hrow' & Hname & Hlists & Hx & Hx').
    assert (x = early_start ef row + Duration row) as -> by congruence.
    destruct (Hsolved row' Hrow')
      as (_ & Hes' & _ & _ & l' & f' & _ & Hls' & _ & _ & Hle' & _).
    assert (l' = early_start ef row + Duration row) as -> by (rewrite Hname in Hls'; congruence).
    assert (early_start ef row + Duration row ≤ early_start ef row') as Hfloor.
    { by apply early_start_ge with (Task row). }
    exists (table_row es ef ls lf row'). split; [apply table_row_elem; by exists row'|].
    split; [simpl; by rewrite Hname|]. split.
    + apply (Hcrit row' _ Hrow' Hls'). lia.
    + simpl. rewrite Hes'. f_equal. lia.
Qed.

Lemma critical_rows_chain_witness :
  ∃ out, run_cpm 4 branches_csv = Some out ∧
    Task <$> out = csv_Task <$> branches_csv ∧
    Duration <$> out = csv_Duration <$> branches_csv ∧
    ∀ row, row ∈ out → Critical row = true →
      (Predecessors row = [] → ES row = Some 0) ∧
      (Predecessors row ≠ [] →
         ∃ r, r ∈ out ∧ Task r ∈ Predecessors row ∧ Critical r = true ∧ EF r = ES row) ∧
      (Successors row = [] → EF row = col_max (EF <$> out)) ∧
      (Successors row ≠ [] →
         ∃ r, r ∈ out ∧ Task r ∈ Successors row ∧ Critical r = true ∧ ES r = EF row).
Proof.
  assert (valid_acyclic (load_and_prepare_data branches_csv)) as [Hu Hr _ Ha].
  { apply (valid_acyclicb_sound branches_rank). vm_compute. reflexivity. }
  apply (critical_rows_chain branches_csv 4 Hu Hr Ha).
  - vm_compute. reflexivity.
  - simpl. lia.
Defined.

(** ** The order of the stores *)

Lemma iterrows_labels (df : DataFrame) : NoDup (iterrows df).*1.
Proof.
  apply NoDup_alt. intros i j x Hi Hj.
  rewrite list_lookup_fmap in Hi, Hj. unfold iterrows in Hi, Hj.
  rewrite list_lookup_imap in Hi, Hj.
  destruct (df !! i); destruct (df !! j); simpl in *; congruence.
Qed.

Lemma iterrows_rows (df : DataFrame) : (iterrows df).*2 = df.
Proof.
  apply list_eq. intros i. unfold iterrows.
  rewrite list_lookup_fmap, list_lookup_imap. by destruct (df !! i).
Qed.

Lemma drop_label_perm i row (remaining : list (nat * Row)) :
  NoDup remaining.*1 → (i, row) ∈ remaining →
  remaining ≡ₚ (i, row) :: drop_label i remaining.
Proof.
  unfold drop_label. induction remaining as [|[j r] remaining IH]; intros Hnd Hin.
  - by apply elem_of_nil in Hin.
  - rewrite fmap_cons in Hnd. apply NoDup_cons in Hnd as [Hj Hnd]. simpl in Hj.
    rewrite filter_cons. simpl.
    apply elem_of_cons in Hin as [[= <- <-]|Hin].
    + rewrite decide_False by (intros H; by apply H).
      assert (filter (λ ir : nat * Row, ir.1 ≠ i) remaining = remaining) as ->; [|done].
      clear IH Hnd. induction remaining as [|[k r'] remaining IH]; [done|].
      rewrite filter_cons. simpl.
      rewrite decide_True by (intros ->; apply Hj; rewrite fmap_cons; left).
      f_equal. apply IH. intros Hin. apply Hj. rewrite fmap_cons. by right.
    + assert (j ≠ i) as Hne.
      { intros ->. apply Hj. apply list_elem_of_fmap. by exists (i, row). }
      rewrite decide_True by done.
      rewrite (IH Hnd Hin) at 1. apply Permutation_swap.
Qed.

Lemma drop_label_labels i (remaining : list (nat * Row)) :
  NoDup remaining.*1 → NoDup (drop_label i remaining).*1.
Proof.
  intros Hnd.
  assert ((drop_label i remaining).*1 `sublist_of` remaining.*1) as Hsub.
  { unfold drop_label. apply fmap_sublist, sublist_filter. }
  exact (sublist_NoDup _ _ Hnd Hsub).
Qed.

Section store_order_facts.
Context {St : Type}.
Variable ready : St → Row → bool.
Variable store : St → Row → St.

Lemma store_order_step fuel st ir remaining :
  store_order ready store (S fuel) st (ir :: remaining) =
  match find (λ ir0, ready st ir0.2) (ir :: remaining) with
  | Some (i, row) => row :: store_order ready store fuel (store st row)
                              (drop_label i (ir :: remaining))
  | None => store_order ready store fuel st (ir :: remaining)
  end.
Proof. done. Qed.

Lemma find_cases st (remaining : list (nat * Row)) :
  (∃ i row, find (λ ir, ready st ir.2) remaining = Some (i, row) ∧
            (i, row) ∈ remaining ∧ ready st row = true)
  ∨ find (λ ir, ready st ir.2) remaining = None.
Proof.
  destruct (find (λ ir, ready st ir.2) remaining) as [[i row]|] eqn:Hfind; [|by right].
  apply find_some in Hfind as [Hin Hr]. left. exists i, row.
  by rewrite list_elem_of_In.
Qed.

(** When the loop leaves, every remaining row has been stored once. *)
Lemma store_order_perm fuel st remaining st' :
  NoDup remaining.*1 →
  while_remaining ready store fuel st remaining = Some st' →
  store_order ready store fuel st remaining ≡ₚ remaining.*2.
Proof.
  revert st remaining. induction fuel as [|fuel IH]; intros st remaining Hnd Hrun.
  - destruct remaining; simpl in *; by simplify_eq.
  - destruct remaining as [|ir remaining]; [done|].
    rewrite while_remaining_step in Hrun. unfold sweep in Hrun.
    rewrite store_order_step.
    destruct (find_cases st (ir :: remaining)) as [(i & row & Hfind & Hin & Hr)|Hfind];
      rewrite Hfind in Hrun |- *; simpl in Hrun.
    + rewrite (IH _ _ (drop_label_labels i _ Hnd) Hrun).
      rewrite (drop_label_perm i row (ir :: remaining) Hnd Hin) at 2. done.
    + by apply IH.
Qed.

(** A row is stored only when it is ready on the dictionaries built by
    the stores before it. *)
Lemma store_order_ready fuel st remaining before row after :
  store_order ready store fuel st remaining = before ++ row :: after →
  ready (foldl store st before) row = true.
Proof.
  revert st remaining before. induction fuel as [|fuel IH]; intros st remaining before Hlog.
  - destruct remaining; simpl in Hlog; by destruct before.
  - destruct remaining as [|ir remaining]; [by destruct before|].
    rewrite store_order_step in Hlog.
    destruct (find_cases st (ir :: remaining)) as [(i & row0 & Hfind & Hin & Hr)|Hfind];
      rewrite Hfind in Hlog.
    + destruct before as [|b before]; simpl in Hlog; simplify_eq; [done|].
      simpl. by eapply IH.
    + by eapply IH.
Qed.

(** Each iteration removes one row: fewer iterations than rows never
    suffice. *)
Lemma while_remaining_needs_fuel fuel st remaining :
  NoDup remaining.*1 → (fuel < length remaining)%nat →
  while_remaining ready store fuel st remaining = None.
Proof.
  revert st remaining. induction fuel as [|fuel IH]; intros st remaining Hnd Hlen.
  - destruct remaining; simpl in *; [lia|done].
  - destruct remaining as [|ir remaining]; [simpl in Hlen; lia|].
    rewrite while_remaining_step. unfold sweep.
    destruct (find_cases st (ir :: remaining)) as [(i & row & Hfind & Hin & Hr)|Hfind];
      rewrite Hfind; simpl.
    + apply IH; [by apply drop_label_labels|].
      pose proof (drop_label_perm i row (ir :: remaining) Hnd Hin) as Hperm.
      apply Permutation_length in Hperm. simpl in *. lia.
    + apply IH; [done|simpl in *; lia].
Qed.
End store_order_facts.

(** X12. When [calculate_es_ef] returns, its loop has stored every row of
    the frame exactly once, and each row after rows bearing every name it
    lists as a predecessor: the rows were resolved in a topological
    order. *)
Theorem forward_pass_resolves_in_topological_order fuel df df1 :
  calculate_es_ef fuel df = Some df1 →
  store_order es_ef_ready es_ef_store fuel (∅, ∅) (iterrows df) ≡ₚ df ∧
  ∀ before row after,
    store_order es_ef_ready es_ef_store fuel (∅, ∅) (iterrows df) = before ++ row :: after →
    ∀ p, p ∈ Predecessors row → p ∈ Task <$> before.
Proof.
  unfold calculate_es_ef, es_ef_loop.
  destruct (while_remaining es_ef_ready es_ef_store fuel (∅, ∅) (iterrows df))
    as [[es ef]|] eqn:Hrun; [|done].
  intros _. split.
  - rewrite (store_order_perm _ _ _ _ _ _ (iterrows_labels df) Hrun). by rewrite iterrows_rows.
  - intros before row after Hlog p Hp.
    apply store_order_ready in Hlog.
    apply (es_ef_ready_elem _ _ _ Hlog), es_ef_foldl_resolved in Hp as [Hp|Hp]; [|done].
    simpl in Hp. rewrite lookup_empty in Hp. by destruct Hp.
Qed.

Lemma forward_pass_resolves_in_topological_order_witness :
  ∃ df1, calculate_es_ef 2 (load_and_prepare_data unsorted_csv) = Some df1 ∧
    store_order es_ef_ready es_ef_store 2 (∅, ∅) (iterrows (load_and_prepare_data unsorted_csv))
      ≡ₚ load_and_prepare_data unsorted_csv ∧
    ∀ before row after,
      store_order es_ef_ready es_ef_store 2 (∅, ∅)
        (iterrows (load_and_prepare_data unsorted_csv)) = before ++ row :: after →
      ∀ p, p ∈ Predecessors row → p ∈ Task <$> before.
Proof.
  eexists. split; [vm_compute; reflexivity|].
  eapply (forward_pass_resolves_in_topological_order 2 (load_and_prepare_data unsorted_csv)).
  vm_compute. reflexivity.
Defined.

(** X13. When [calculate_ls_lf] returns, its loop has stored every row of
    the frame exactly once, and each row after rows bearing every name in
    its successor cell: the mirror order of the forward pass. *)
Theorem backward_pass_resolves_in_reverse_topological_order fuel df df2 :
  calculate_ls_lf fuel df = Some df2 →
  store_order ls_lf_ready (ls_lf_store (project_finish df)) fuel
    (∅, seed_lf (project_finish df) df) (iterrows df) ≡ₚ df ∧
  ∀ before row after,
    store_order ls_lf_ready (ls_lf_store (project_finish df)) fuel
      (∅, seed_lf (project_finish df) df) (iterrows df) = before ++ row :: after →
    ∀ s, s ∈ Successors row → s ∈ Task <$> before.
Proof.
  unfold calculate_ls_lf, ls_lf_loop. cbv zeta.
  destruct (while_remaining ls_lf_ready (ls_lf_store (project_finish df)) fuel
              (∅, seed_lf (project_finish df) df) (iterrows df))
    as [[ls lf]|] eqn:Hrun; [|done].
  intros _. split.
  - rewrite (store_order_perm _ _ _ _ _ _ (iterrows_labels df) Hrun). by rewrite iterrows_rows.
  - intros before row after Hlog s Hs.
    apply store_order_ready in Hlog.
    apply (ls_lf_ready_elem _ _ _ Hlog), ls_lf_foldl_resolved in Hs as [Hs|Hs]; [|done].
    simpl in Hs. rewrite lookup_empty in Hs. by destruct Hs.
Qed.

Lemma backward_pass_resolves_in_reverse_topological_order_witness :
  ∃ df1 df2,
    calculate_es_ef 4 (load_and_prepare_data branches_csv) = Some df1 ∧
    calculate_ls_lf 4 df1 = Some df2 ∧
    store_order ls_lf_ready (ls_lf_store (project_finish df1)) 4
      (∅, seed_lf (project_finish df1) df1) (iterrows df1) ≡ₚ df1 ∧
    ∀ before row after,
      store_order ls_lf_ready (ls_lf_store (project_finish df1)) 4
        (∅, seed_lf (project_finish df1) df1) (iterrows df1) = before ++ row :: after →
      ∀ s, s ∈ Successors row → s ∈ Task <$> before.
Proof.
  eexists. eexists. split; [vm_compute; reflexivity|].
  split; [vm_compute; reflexivity|].
  eapply (backward_pass_resolves_in_reverse_topological_order 4). vm_compute. reflexivity.
Defined.

(** X14. Each iteration of either loop resolves at most one row: on a
    frame of [n] rows neither pass returns within fewer than [n]
    iterations of its [while]. *)
Theorem passes_need_one_iteration_per_row fuel df :
  (fuel < length df)%nat →
  calculate_es_ef fuel df = None ∧ calculate_ls_lf fuel df = None.
Proof.
  intros Hfuel. split.
  - apply calculate_es_ef_none. unfold es_ef_loop.
    apply while_remaining_needs_fuel; [apply iterrows_labels|by rewrite length_iterrows].
  - unfold calculate_ls_lf, ls_lf_loop. cbv zeta.
    rewrite while_remaining_needs_fuel; [done|apply iterrows_labels|by rewrite length_iterrows].
Qed.

Lemma passes_need_one_iteration_per_row_witness :
  calculate_es_ef 3 (load_and_prepare_data branches_csv) = None ∧
  calculate_ls_lf 3 (load_and_prepare_data branches_csv) = None.
Proof.
  apply (passes_need_one_iteration_per_row 3 (load_and_prepare_data branches_csv)).
  simpl. lia.
Defined.

(** ** The order of the input rows does not matter *)

Lemma load_core csv :
  core <$> load_and_prepare_data csv =
  (λ c, (csv_Task c, csv_Duration c, parse_predecessors (csv_Predecessors c))) <$> csv.
Proof.
  unfold load_and_prepare_data. rewrite <- !list_fmap_compose. by apply list_fmap_ext.
Qed.

Lemma load_core_perm csv csv' row' :
  csv' ≡ₚ csv → row' ∈ load_and_prepare_data csv' →
  ∃ row, row ∈ load_and_prepare_data csv ∧ core row = core row'.
Proof.
  intros Hperm Hrow'.
  assert (core row' ∈ core <$> load_and_prepare_data csv) as Hin.
  { rewrite load_core, <- Hperm, <- load_core. by apply list_elem_of_fmap_2. }
  apply list_elem_of_fmap in Hin as (row & Heq & Hrow). by exists row.
Qed.

Lemma load_pred_edge_perm csv csv' p n :
  csv' ≡ₚ csv →
  pred_edge (load_and_prepare_data csv') p n → pred_edge (load_and_prepare_data csv) p n.
Proof.
  intros Hperm (row' & Hrow' & Hname & Hp).
  destruct (load_core_perm csv csv' row' Hperm Hrow') as (row & Hrow & [= Ht _ Hpr]).
  exists row. by rewrite Ht, Hpr.
Qed.

Lemma load_perm_schedulable csv csv' :
  csv' ≡ₚ csv →
  unique_names (load_and_prepare_data csv) → resolvable (load_and_prepare_data csv) →
  acyclic (load_and_prepare_data csv) →
  unique_names (load_and_prepare_data csv') ∧ resolvable (load_and_prepare_data csv') ∧
  acyclic (load_and_prepare_data csv').
Proof.
  intros Hperm Hunique Hres Hacyc.
  assert (names (load_and_prepare_data csv') ≡ₚ names (load_and_prepare_data csv)) as Hnames.
  { assert (∀ csv0, names (load_and_prepare_data csv0) = csv_Task <$> csv0) as Hn.
    { intros csv0. unfold names, load_and_prepare_data. rewrite <- !list_fmap_compose.
      by apply list_fmap_ext. }
    by rewrite !Hn, Hperm. }
  split_and!.
  - unfold unique_names. by rewrite Hnames.
  - intros row' p Hrow' Hp. rewrite Hnames.
    destruct (load_core_perm csv csv' row' Hperm Hrow') as (row & Hrow & [= _ _ Hpr]).
    apply (Hres row p Hrow). by rewrite Hpr.
  - intros n Hn. apply (Hacyc n).
    eapply (tc_congruence id); [|exact Hn].
    intros x y Hxy. by apply (load_pred_edge_perm csv csv').
Qed.

Lemma succ_edge_acc df n :
  successors_consistent df → acyclic df → Acc (succ_edge df) n.
Proof.
  intros Hc Hacyc. apply (dep_edge_acc Successors df).
  - intros row s Hrow Hs. apply Hc in Hs; [|done].
    destruct Hs as (row' & Hrow' & <- & _). apply elem_of_names. by exists row'.
  - intros m Hm. apply (Hacyc m), tc_flip.
    eapply (tc_congruence id); [|exact Hm].
    intros x y Hxy. by apply succ_edge_flip.
Qed.

Lemma early_start_ext ef ef' row row' :
  Predecessors row = Predecessors row' →
  (∀ p, p ∈ Predecessors row → ef !!! p = ef' !!! p) →
  early_start ef row = early_start ef' row'.
Proof.
  intros Hpr Hext. unfold early_start. rewrite <- Hpr.
  replace ((λ p, ef' !!! p) <$> Predecessors row)
    with ((λ p, ef !!! p) <$> Predecessors row); [done|].
  apply list_fmap_ext. intros i p Hp. by apply Hext, list_elem_of_lookup_2 with i.
Qed.

Section row_order.
Variables csv csv' : list CsvRow.
Hypothesis Hperm : csv' ≡ₚ csv.
Hypothesis Hunique : unique_names (load_and_prepare_data csv).
Hypothesis Hres : resolvable (load_and_prepare_data csv).
Hypothesis Hacyc : acyclic (load_and_prepare_data csv).
Variables es ef es' ef' : gmap string Z.
Variables ls lf ls' lf' : gmap string cell.
Hypothesis Hsolved : ∀ row, row ∈ load_and_prepare_data csv →
  row_solved (load_and_prepare_data csv) es ef ls lf
    (col_max ((λ row, ef !! Task row) <$> load_and_prepare_data csv)) row.
Hypothesis Hsolved' : ∀ row, row ∈ load_and_prepare_data csv' →
  row_solved (load_and_prepare_data csv') es' ef' ls' lf'
    (col_max ((λ row, ef' !! Task row) <$> load_and_prepare_data csv')) row.

(** The early starts agree, name by name. *)
Lemma row_order_early row row' :
  row ∈ load_and_prepare_data csv → row' ∈ load_and_prepare_data csv' →
  Task row = Task row' → early_start ef row = early_start ef' row'.
Proof.
  assert (∀ n, Acc (pred_edge (load_and_prepare_data csv)) n →
            ∀ row row', row ∈ load_and_prepare_data csv →
              row' ∈ load_and_prepare_data csv' → Task row = n → Task row' = n →
              early_start ef row = early_start ef' row') as Hind.
  { induction 1 as [n _ IH]. intros row0 row0' Hrow0 Hrow0' Hn Hn'.
    destruct (load_core_perm csv csv' row0' Hperm Hrow0') as (r & Hr & [= Ht Hd Hpr]).
    assert (r = row0) as -> by (apply (unique_names_row _ _ _ Hunique); congruence).
    apply early_start_ext; [done|]. intros p Hp.
    pose proof (Hres row0 p Hrow0 Hp) as Hname.
    apply elem_of_names in Hname as (rp & Hrp & Hname).
    assert (∃ rp', rp' ∈ load_and_prepare_data csv' ∧ core rp' = core rp) as (rp' & Hrp' & [= Ht' Hd' Hpr']).
    { assert (core rp ∈ core <$> load_and_prepare_data csv') as Hin.
      { rewrite load_core, Hperm, <- load_core. by apply list_elem_of_fmap_2. }
      apply list_elem_of_fmap in Hin as (rp' & Heq & Hrp'). by exists rp'. }
    destruct (Hsolved rp Hrp) as (_ & _ & Hef & _).
    destruct (Hsolved' rp' Hrp') as (_ & _ & Hef' & _).
    rewrite !lookup_total_alt, <- Hname, Hef. rewrite <- Ht', Hef'. simpl.
    rewrite Hd'. f_equal.
    apply (IH p); [|done..|congruence].
    exists row0. by rewrite Hn. }
  intros Hrow Hrow' Heq. apply (Hind (Task row)); [|done..].
  by apply (dep_edge_acc Predecessors (load_and_prepare_data csv)).
Qed.

Lemma row_order_pair row row' :
  row ∈ load_and_prepare_data csv → row' ∈ load_and_prepare_data csv' →
  Task row = Task row' → core row = core row'.
Proof.
  intros Hrow Hrow' Heq.
  destruct (load_core_perm csv csv' row' Hperm Hrow') as (r & Hr & Hcore).
  assert (r = row) as -> by (apply (unique_names_row _ _ _ Hunique); [done..|]; injection Hcore; congruence).
  done.
Qed.

Lemma row_order_partner row :
  row ∈ load_and_prepare_data csv →
  ∃ row', row' ∈ load_and_prepare_data csv' ∧ core row' = core row.
Proof.
  intros Hrow. by apply (load_core_perm csv' csv).
Qed.

Lemma row_order_ef row row' :
  row ∈ load_and_prepare_data csv → row' ∈ load_and_prepare_data csv' →
  Task row = Task row' →
  es !! Task row = es' !! Task row' ∧ ef !! Task row = ef' !! Task row'.
Proof.
  intros Hrow Hrow' Heq.
  pose proof (row_order_pair row row' Hrow Hrow' Heq) as [= _ Hd _].
  destruct (Hsolved row Hrow) as (_ & -> & -> & _).
  destruct (Hsolved' row' Hrow') as (_ & -> & -> & _).
  by rewrite (row_order_early row row' Hrow Hrow' Heq), Hd.
Qed.

(** The project finish is the same. *)
Lemma row_order_finish :
  col_max ((λ row, ef !! Task row) <$> load_and_prepare_data csv) =
  col_max ((λ row, ef' !! Task row) <$> load_and_prepare_data csv').
Proof.
  destruct (Nat.eq_dec (length csv) 0) as [Hlen|Hlen].
  { pose proof (Permutation_length Hperm) as Hlen'. rewrite Hlen in Hlen'.
    apply nil_length_inv in Hlen. apply nil_length_inv in Hlen'.
    by rewrite Hlen, Hlen'. }
  destruct (col_max_spec ((λ row, ef !! Task row) <$> load_and_prepare_data csv))
    as (f & -> & Hin & Hmax).
  { intros Hnil%fmap_nil_inv. apply (f_equal length) in Hnil.
    rewrite length_load in Hnil. done. }
  { intros c (row & -> & Hrow)%list_elem_of_fmap.
    destruct (Hsolved row Hrow) as (_ & _ & -> & _). by eexists. }
  symmetry. apply col_max_intro.
  - apply list_elem_of_fmap in Hin as (row & Hf & Hrow).
    destruct (row_order_partner row Hrow) as (row' & Hrow' & [= Ht _ _]).
    apply list_elem_of_fmap. exists row'. split; [|done].
    rewrite Hf. by apply row_order_ef.
  - intros c (row' & -> & Hrow')%list_elem_of_fmap.
    destruct (load_core_perm csv csv' row' Hperm Hrow') as (row & Hrow & [= Ht _ _]).
    destruct (row_order_ef row row' Hrow Hrow' Ht) as [_ <-].
    destruct (Hsolved row Hrow) as (_ & _ & Hef & _).
    eexists. split; [exact Hef|]. apply Hmax. rewrite <- Hef.
    by apply (list_elem_of_fmap_2 (λ row, ef !! Task row)).
Qed.

Lemma row_order_successors row row' s :
  row ∈ load_and_prepare_data csv → row' ∈ load_and_prepare_data csv' →
  Task row = Task row' → s ∈ Successors row ↔ s ∈ Successors row'.
Proof.
  intros Hrow Hrow' Heq.
  rewrite (load_successors_consistent csv row s Hrow).
  rewrite (load_successors_consistent csv' row' s Hrow'). rewrite Heq.
  split; [apply (load_pred_edge_perm csv' csv)|apply (load_pred_edge_perm csv csv')]; done.
Qed.

(** The late starts agree, name by name. *)
Lemma row_order_late row row' :
  row ∈ load_and_prepare_data csv → row' ∈ load_and_prepare_data csv' →
  Task row = Task row' → ls !! Task row = ls' !! Task row'.
Proof.
  assert (∀ row s, row ∈ load_and_prepare_data csv → s ∈ Successors row →
            ∃ rs, rs ∈ load_and_prepare_data csv ∧ Task rs = s) as Hsucc_row.
  { intros row0 s Hrow0 Hs. apply (load_successors_consistent csv row0 s Hrow0) in Hs.
    destruct Hs as (rs & Hrs & Hname & _). by exists rs. }
  assert (∀ n, Acc (succ_edge (load_and_prepare_data csv)) n →
            ∀ row row', row ∈ load_and_prepare_data csv →
              row' ∈ load_and_prepare_data csv' → Task row = n → Task row' = n →
              ls !! Task row = ls' !! Task row') as Hind.
  { induction 1 as [n _ IH]. intros row0 row0' Hrow0 Hrow0' Hn Hn'.
    assert (Task row0 = Task row0') as Heq by congruence.
    pose proof (row_order_pair row0 row0' Hrow0 Hrow0' Heq) as [= _ Hd _].
    (* The successors have the same late starts in both runs. *)
    assert (∀ s, s ∈ Successors row0 →
              ∃ x, ls !!! s = Some x ∧ ls' !!! s = Some x) as Hsame.
    { intros s Hs. destruct (Hsucc_row row0 s Hrow0 Hs) as (rs & Hrs & Hname).
      destruct (row_order_partner rs Hrs) as (rs' & Hrs' & [= Ht _ _]).
      assert (ls !! Task rs = ls' !! Task rs') as Hls.
      { apply (IH s); [|done..|congruence]. exists row0. by rewrite Hn. }
      destruct (Hsolved rs Hrs) as (_ & _ & _ & _ & x & f0 & _ & Hx & _).
      exists x. rewrite !lookup_total_alt, <- Hname. rewrite Ht in Hls.
      rewrite <- Hls, Hx. done. }
    destruct (Hsolved row0 Hrow0) as (_ & _ & _ & _ & l & f & Hpf & -> & _ & Hlate & _).
    destruct (Hsolved' row0' Hrow0') as (_ & _ & _ & _ & l' & f' & Hpf' & -> & _ & Hlate' & _).
    assert (f' = f) as -> by (rewrite row_order_finish in Hpf; congruence).
    do 2 f_equal. cut (l + Duration row0 = l' + Duration row0'); [lia|].
    destruct (Successors row0) as [|s0 ss0] eqn:Hss.
    { assert (Successors row0' = []) as Hss'.
      { destruct (Successors row0') as [|s ss] eqn:Hs'; [done|].
        assert (s ∈ Successors row0) as Hin.
        { apply (row_order_successors row0 row0' s Hrow0 Hrow0' Heq). rewrite Hs'. left. }
        rewrite Hss in Hin. by apply elem_of_nil in Hin. }
      unfold late_finish in Hlate, Hlate'. rewrite Hss in Hlate. rewrite Hss' in Hlate'.
      simpl in *. congruence. }
    rewrite <- Hss in *.
    destruct (late_finish_spec (Some f) ls row0) as (m & Hm & (s & Hs & Hsm) & Hmin).
    { by rewrite Hss. }
    { intros s Hs. destruct (Hsame s Hs) as (x & Hx & _). by exists x. }
    destruct (late_finish_spec (Some f) ls' row0') as (m' & Hm' & (s' & Hs' & Hsm') & Hmin').
    { intros Hnil. assert (s0 ∈ Successors row0') as Hin.
      { apply (row_order_successors row0 row0' s0 Hrow0 Hrow0' Heq). rewrite Hss. left. }
      rewrite Hnil in Hin. by apply elem_of_nil in Hin. }
    { intros s1 Hs1. apply (row_order_successors row0 row0' s1 Hrow0 Hrow0' Heq) in Hs1.
      destruct (Hsame s1 Hs1) as (x & _ & Hx). by exists x. }
    assert (m = l + Duration row0) as Hml by congruence.
    assert (m' = l' + Duration row0') as Hml' by congruence.
    assert (m' ≤ m).
    { apply (Hmin' s); [by apply (row_order_successors row0 row0' s Hrow0 Hrow0' Heq)|].
      destruct (Hsame s Hs) as (x & Hx & Hx'). congruence. }
    assert (m ≤ m').
    { apply (row_order_successors row0 row0' s' Hrow0 Hrow0' Heq) in Hs'.
      apply (Hmin s'); [done|].
      destruct (Hsame s' Hs') as (x & Hx & Hx'). congruence. }
    lia. }
  intros Hrow Hrow' Heq. apply (Hind (Task row)); [|done..].
  apply succ_edge_acc; [apply load_successors_consistent|done].
Qed.

Lemma row_order_lf row row' :
  row ∈ load_and_prepare_data csv → row' ∈ load_and_prepare_data csv' →
  Task row = Task row' → lf !! Task row = lf' !! Task row'.
Proof.
  intros Hrow Hrow' Heq.
  pose proof (row_order_late row row' Hrow Hrow' Heq) as Hls.
  pose proof (row_order_pair row row' Hrow Hrow' Heq) as [= _ Hd _].
  destruct (Hsolved row Hrow) as (_ & _ & _ & _ & l & f & _ & Hl & -> & _).
  destruct (Hsolved' row' Hrow') as (_ & _ & _ & _ & l' & f' & _ & Hl' & -> & _).
  rewrite Hl, Hl' in Hls. injection Hls as ->. by rewrite Hd.
Qed.
End row_order.

(** X15. The figures do not depend on the order of the rows in the file:
    if a schedule with unique names, resolvable predecessors and no cycle
    is read with its rows permuted, the pipeline returns on both inputs,
    and rows with the same name carry the same duration, predecessors,
    [ES], [EF], [LS], [LF], [Slack] and [Critical] in both tables. *)
Theorem figures_independent_of_row_order csv csv' fuel :
  csv' ≡ₚ csv →
  unique_names (load_and_prepare_data csv) → resolvable (load_and_prepare_data csv) →
  acyclic (load_and_prepare_data csv) → (length csv ≤ fuel)%nat →
  ∃ out out',
    run_cpm fuel csv = Some out ∧ run_cpm fuel csv' = Some out' ∧
    Task <$> out' ≡ₚ Task <$> out ∧
    ∀ r r', r ∈ out → r' ∈ out' → Task r = Task r' →
      Duration r = Duration r' ∧ Predecessors r = Predecessors r' ∧
      ES r = ES r' ∧ EF r = EF r' ∧ LS r = LS r' ∧ LF r = LF r' ∧
      Slack r = Slack r' ∧ Critical r = Critical r'.
Proof.
  intros Hperm Hunique Hres Hacyc Hfuel.
  destruct (load_perm_schedulable csv csv' Hperm Hunique Hres Hacyc)
    as (Hunique' & Hres' & Hacyc').
  assert (length csv' ≤ fuel)%nat as Hfuel' by by rewrite (Permutation_length Hperm).
  destruct (run_cpm_equations csv fuel Hunique Hres Hacyc Hfuel)
    as (es & ef & ls & lf & Hrun & Hsolved).
  destruct (run_cpm_equations csv' fuel Hunique' Hres' Hacyc' Hfuel')
    as (es' & ef' & ls' & lf' & Hrun' & Hsolved').
  eexists _, _. split; [exact Hrun|]. split; [exact Hrun'|]. split.
  { destruct (run_cpm_columns _ _ _ Hrun) as (-> & _).
    destruct (run_cpm_columns _ _ _ Hrun') as (-> & _). by rewrite Hperm. }
  intros r r' (row & Hrow & ->)%table_row_elem (row' & Hrow' & ->)%table_row_elem Heq.
  simpl in Heq.
  pose proof (row_order_pair csv csv' Hperm Hunique row row' Hrow Hrow' Heq) as [= _ Hd Hpr].
  destruct (row_order_ef csv csv' Hperm Hunique Hres Hacyc es ef es' ef' ls lf ls' lf'
              Hsolved Hsolved' row row' Hrow Hrow' Heq) as [Hes Hef].
  pose proof (row_order_late csv csv' Hperm Hunique Hres Hacyc es ef es' ef' ls lf ls' lf'
                Hsolved Hsolved' row row' Hrow Hrow' Heq) as Hls.
  pose proof (row_order_lf csv csv' Hperm Hunique Hres Hacyc es ef es' ef' ls lf ls' lf'
                Hsolved Hsolved' row row' Hrow Hrow' Heq) as Hlf.
  simpl. rewrite Hes, Hef, Hls, Hlf. done.
Qed.

Lemma figures_independent_of_row_order_witness :
  ∃ out out',
    run_cpm 4 branches_csv = Some out ∧ run_cpm 4 (reverse branches_csv) = Some out' ∧
    Task <$> out' ≡ₚ Task <$> out ∧
    ∀ r r', r ∈ out → r' ∈ out' → Task r = Task r' →
      Duration r = Duration r' ∧ Predecessors r = Predecessors r' ∧
      ES r = ES r' ∧ EF r = EF r' ∧ LS r = LS r' ∧ LF r = LF r' ∧
      Slack r = Slack r' ∧ Critical r = Critical r'.
Proof.
  assert (valid_acyclic (load_and_prepare_data branches_csv)) as [Hu Hr _ Ha].
  { apply (valid_acyclicb_sound branches_rank). vm_compute. reflexivity. }
  apply (figures_independent_of_row_order branches_csv (reverse branches_csv) 4);
    [apply reverse_Permutation|exact Hu|exact Hr|exact Ha|simpl; lia].
Defined.

(** ** The critical path *)

Lemma chained_snoc path r row :
  chained (path ++ [r]) → Task r ∈ Predecessors row → chained ((path ++ [r]) ++ [row]).
Proof.
  induction path as [|x path IH]; simpl.
  - intros _ Hr. done.
  - intros [Hx Hrest] Hr. split; [|by apply IH].
    destruct path as [|y path]; simpl in *; done.
Qed.

Lemma total_duration_snoc path row :
  total_duration (path ++ [row]) = total_duration path + Duration row.
Proof.
  unfold total_duration. induction path as [|x path IH]; simpl; [lia|]. rewrite IH. lia.
Qed.

(** A critical row is the end of a chain of critical rows that starts at
    a row without predecessors and whose durations add up to its early
    finish. *)
Lemma critical_chain_to csv es ef ls lf :
  unique_names (load_and_prepare_data csv) → resolvable (load_and_prepare_data csv) →
  acyclic (load_and_prepare_data csv) →
  (∀ row, row ∈ load_and_prepare_data csv →
     row_solved (load_and_prepare_data csv) es ef ls lf
       (col_max ((λ row, ef !! Task row) <$> load_and_prepare_data csv)) row) →
  ∀ row, row ∈ load_and_prepare_data csv →
    ls !! Task row = Some (Some (early_start ef row)) →
    ∃ path first,
      head (path ++ [row]) = Some first ∧ Predecessors first = [] ∧
      chained (path ++ [row]) ∧
      (∀ r, r ∈ path ++ [row] →
         r ∈ load_and_prepare_data csv ∧ ls !! Task r = Some (Some (early_start ef r))) ∧
      total_duration (path ++ [row]) = early_start ef row + Duration row.
Proof.
  intros Hunique Hres Hacyc Hsolved.
  set (df := load_and_prepare_data csv) in *.
  assert (∀ n, Acc (pred_edge df) n → ∀ row, row ∈ df → Task row = n →
            ls !! Task row = Some (Some (early_start ef row)) →
            ∃ path first,
              head (path ++ [row]) = Some first ∧ Predecessors first = [] ∧
              chained (path ++ [row]) ∧
              (∀ r, r ∈ path ++ [row] →
                 r ∈ df ∧ ls !! Task r = Some (Some (early_start ef r))) ∧
              total_duration (path ++ [row]) = early_start ef row + Duration row) as Hind.
  { induction 1 as [n _ IH]. intros row Hrow Hn Hcrit.
    destruct (Predecessors row) as [|p0 ps] eqn:Hpreds.
    { exists [], row. simpl. split_and!; [done..| |].
      - intros r ->%list_elem_of_singleton. done.
      - unfold total_duration, early_start. rewrite Hpreds. simpl. lia. }
    destruct (early_start_attained ef row) as (p & Hp & Hmax); [by rewrite Hpreds|].
    pose proof (Hres row p Hrow Hp) as Hname.
    apply elem_of_names in Hname as (row' & Hrow' & Hname).
    destruct (Hsolved row' Hrow')
      as (_ & _ & Hef' & _ & l' & f' & _ & Hls' & _ & Hlate' & Hle' & _).
    assert (early_start ef row' + Duration row' = early_start ef row) as Hmeet.
    { rewrite <- Hmax, lookup_total_alt, <- Hname, Hef'. done. }
    assert (Task row ∈ Successors row') as Hsucc.
    { apply (load_successors_consistent csv row' (Task row) Hrow').
      exists row. by rewrite Hname. }
    destruct (late_finish_spec (Some f') ls row') as (m & Hm & _ & Hmin).
    { intros Hnil. rewrite Hnil in Hsucc. by apply elem_of_nil in Hsucc. }
    { intros s Hs. apply (load_successors_consistent csv row' s Hrow') in Hs.
      destruct Hs as (rs & Hrs & <- & _).
      destruct (Hsolved rs Hrs) as (_ & _ & _ & _ & x & f0 & _ & Hx & _).
      exists x. by rewrite lookup_total_alt, Hx. }
    assert (m = l' + Duration row') as -> by congruence.
    assert (l' + Duration row' ≤ early_start ef row) as Hcap.
    { apply (Hmin (Task row)); [done|]. by rewrite lookup_total_alt, Hcrit. }
    assert (l' = early_start ef row') as -> by lia.
    destruct (IH p) with (row := row') as (path & first & Hhead & Hfirst & Hchain & Hall & Htotal);
      [by exists row|done..|].
    exists (path ++ [row']), first. split_and!.
    - destruct path; simpl in *; done.
    - done.
    - apply chained_snoc; [done|]. by rewrite Hname.
    - intros r [Hr|Hr]%elem_of_app; [by apply Hall|].
      apply list_elem_of_singleton in Hr as ->. done.
    - rewrite total_duration_snoc, Htotal. lia. }
  intros row Hrow Hcrit. apply (Hind (Task row)); [|done..].
  by apply (dep_edge_acc Predecessors df).
Qed.

(** X16. The critical path exists and measures the project. On every
    non-empty valid acyclic schedule with integer durations that add
    up to less than [2 ^ 63] the finished table contains a chain
    of critical rows, each listing the one before it, that starts at a
    row without predecessors, ends at a row whose early finish is the
    project finish, and whose durations add up to the project finish. *)
Theorem critical_path_spans_project csv fuel :
  valid_acyclic (load_and_prepare_data csv) → fits_int64 csv → csv ≠ [] →
  (length csv ≤ fuel)%nat →
  ∃ out finish path first last,
    run_cpm fuel csv = Some out ∧
    Task <$> out = csv_Task <$> csv ∧
    Duration <$> out = csv_Duration <$> csv ∧

    col_max (EF <$> out) = Some finish ∧
    (∀ r, r ∈ path → r ∈ out ∧ Critical r = true) ∧
    chained path ∧
    head path = Some first ∧ Predecessors first = [] ∧ ES first = Some 0 ∧
    path !! (length path - 1)%nat = Some last ∧ EF last = Some finish ∧
    total_duration path = finish.
Proof.
  intros [Hunique Hres Hnonneg Hacyc] Hfits Hne Hfuel.
  destruct (run_cpm_equations csv fuel Hunique Hres Hacyc Hfuel)
    as (es & ef & ls & lf & Hrun & Hsolved).
  destruct (run_cpm_columns _ _ _ Hrun) as (Htasks & Hdurations & _).
  set (df := load_and_prepare_data csv) in *.
  assert (EF <$> (table_row es ef ls lf <$> df) = (λ row, ef !! Task row) <$> df) as Hcol.
  { rewrite <- list_fmap_compose. by apply list_fmap_ext. }
  destruct (col_max_spec ((λ row, ef !! Task row) <$> df)) as (finish & Hfin & Hin & _).
  { intros Hnil%fmap_nil_inv. apply (f_equal length) in Hnil.
    unfold df in Hnil. rewrite length_load in Hnil. by destruct csv. }
  { intros c (row & -> & Hrow)%list_elem_of_fmap.
    destruct (Hsolved row Hrow) as (_ & _ & -> & _). by eexists. }
  apply list_elem_of_fmap in Hin as (row & Hrow_ef & Hrow).
  destruct (Hsolved row Hrow)
    as (_ & Hes & Hef & _ & l & f & Hpf & Hls & Hlf & _ & Hle & _ & Hcap).
  specialize (Hcap Hnonneg).
  assert (f = finish) as -> by congruence.
  assert (early_start ef row + Duration row = finish) as Hrow_fin by congruence.
  assert (l = early_start ef row) as -> by lia.
  destruct (critical_chain_to csv es ef ls lf Hunique Hres Hacyc Hsolved row Hrow Hls)
    as (path & first & Hhead & Hfirst & Hchain & Hall & Htotal).
  (* The chain, read in the finished table. *)
  assert (∀ rows, chained rows → chained (table_row es ef ls lf <$> rows)) as Hchain_map.
  { induction rows as [|x rows IH]; [done|]. simpl. intros [Hx Hrest].
    split; [|by apply IH]. by destruct rows. }
  assert (∀ rows, total_duration (table_row es ef ls lf <$> rows) = total_duration rows)
    as Htotal_map.
  { induction rows as [|x rows IH]; [done|].
    rewrite fmap_cons. unfold total_duration in *. simpl. f_equal. exact IH. }
  exists (table_row es ef ls lf <$> df), finish,
    (table_row es ef ls lf <$> (path ++ [row])),
    (table_row es ef ls lf first), (table_row es ef ls lf row).
  split; [done|]. split; [exact Htasks|]. split; [exact Hdurations|].
  rewrite Hcol. split; [done|]. split_and!.
  - intros r (r0 & -> & Hr0)%list_elem_of_fmap.
    destruct (Hall r0 Hr0) as [Hr0df Hr0crit]. split; [by apply list_elem_of_fmap_2|].
    destruct (Hsolved r0 Hr0df) as (_ & Hes0 & _).
    simpl. rewrite Hr0crit, Hes0. simpl. apply bool_decide_eq_true. f_equal. lia.
  - by apply Hchain_map.
  - destruct (path ++ [row]) as [|x rest]; simpl in *; by simplify_eq.
  - done.
  - simpl. assert (first ∈ path ++ [row]) as Hin by by apply head_Some_elem_of.
    destruct (Hall first Hin) as [Hfdf _].
    destruct (Hsolved first Hfdf) as (_ & -> & _).
    unfold early_start. by rewrite Hfirst.
  - rewrite length_fmap, length_app. simpl.
    rewrite list_lookup_fmap, lookup_app_r by lia.
    replace (length path + 1 - 1 - length path)%nat with 0%nat by lia. done.
  - simpl. by rewrite Hef, Hrow_fin.
  - by rewrite Htotal_map, Htotal.
Qed.

Lemma critical_path_spans_project_witness :
  ∃ out finish path first last,
    run_cpm 4 branches_csv = Some out ∧
    Task <$> out = csv_Task <$> branches_csv ∧
    Duration <$> out = csv_Duration <$> branches_csv ∧

    col_max (EF <$> out) = Some finish ∧
    (∀ r, r ∈ path → r ∈ out ∧ Critical r = true) ∧
    chained path ∧
    head path = Some first ∧ Predecessors first = [] ∧ ES first = Some 0 ∧
    path !! (length path - 1)%nat = Some last ∧ EF last = Some finish ∧
    total_duration path = finish.
Proof.
  apply (critical_path_spans_project branches_csv 4).
  - apply (valid_acyclicb_sound branches_rank). vm_compute. reflexivity.
  - vm_compute. reflexivity.
  - unfold branches_csv. discriminate.
  - simpl. lia.
Defined.

(** Along a chain the early start of the first row plus all durations is
    at most the early finish of the last row. *)
Lemma chain_within_early_times df es ef ls lf pf first path :
  (∀ row, row ∈ df → row_solved df es ef ls lf pf row) →
  (∀ r, r ∈ first :: path → r ∈ df) → chained (first :: path) →
  ∃ last, last ∈ first :: path ∧
          early_start ef first + total_duration (first :: path) ≤
          early_start ef last + Duration last.
Proof.
  intros Hsolved. revert first. induction path as [|r path IH]; intros first Hall Hchain.
  - exists first. split; [left|]. unfold total_duration. simpl. lia.
  - destruct Hchain as [Hlink Hchain].
    destruct (IH r) as (last & Hlast & Hle); [intros x Hx; apply Hall; by right|done|].
    exists last. split; [by right|].
    assert (first ∈ df) as Hfirst by (apply Hall; left).
    assert (r ∈ df) as Hr by (apply Hall; right; left).
    destruct (Hsolved first Hfirst) as (_ & _ & Hef & _).
    assert (early_start ef first + Duration first ≤ early_start ef r) as Hstep
      by by apply early_start_ge with (Task first).
    unfold total_duration in *. simpl in *. lia.
Qed.

(** X17. No chain is longer than the project. On every valid acyclic
    schedule with integer durations that add up to less than
    [2 ^ 63], the durations along any chain of rows of the finished
    table, each listing the one before it, add up to at most the project
    finish. *)
Theorem no_chain_exceeds_project_finish csv fuel :
  valid_acyclic (load_and_prepare_data csv) → fits_int64 csv → (length csv ≤ fuel)%nat →
  ∃ out, run_cpm fuel csv = Some out ∧
    Task <$> out = csv_Task <$> csv ∧
    Duration <$> out = csv_Duration <$> csv ∧

    ∀ path finish,
      col_max (EF <$> out) = Some finish →
      (∀ r, r ∈ path → r ∈ out) → chained path →
      total_duration path ≤ finish.
Proof.
  intros [Hunique Hres Hnonneg Hacyc] Hfits Hfuel.
  destruct (run_cpm_equations csv fuel Hunique Hres Hacyc Hfuel)
    as (es & ef & ls & lf & Hrun & Hsolved).
  destruct (run_cpm_columns _ _ _ Hrun) as (Htasks & Hdurations & _).
  set (df := load_and_prepare_data csv) in *.
  eexists. split; [exact Hrun|]. split; [exact Htasks|]. split; [exact Hdurations|].
  assert (EF <$> (table_row es ef ls lf <$> df) = (λ row, ef !! Task row) <$> df) as Hcol.
  { rewrite <- list_fmap_compose. by apply list_fmap_ext. }
  rewrite Hcol. intros path finish Hfin Hall Hchain.
  pose proof (early_start_nonneg df es ef ls lf _ Hres Hacyc Hnonneg Hsolved) as H0.
  (* The project finish bounds every early finish, and is not negative. *)
  assert (∀ row, row ∈ df → early_start ef row + Duration row ≤ finish) as Hcap.
  { intros row Hrow.
    destruct (Hsolved row Hrow) as (_ & _ & _ & _ & l & f & Hpf & _ & _ & _ & _ & Hle & _).
    congruence. }
  (* The chain, read in the frame. *)
  assert (∃ rows, path = table_row es ef ls lf <$> rows ∧ (∀ r, r ∈ rows → r ∈ df))
    as (rows & -> & Hrows).
  { clear Hchain. induction path as [|x path IH].
    { exists []. split; [done|]. intros r Hr. by apply elem_of_nil in Hr. }
    destruct IH as (rows & -> & Hrows); [intros r Hr; apply Hall; by right|].
    assert (x ∈ x :: (table_row es ef ls lf <$> rows)) as Hx by left.
    apply Hall, table_row_elem in Hx as (row & Hrow & ->).
    exists (row :: rows). split; [done|].
    intros r [->|Hr]%elem_of_cons; [done|by apply Hrows]. }
  assert (chained rows) as Hchain'.
  { clear Hall Hrows. induction rows as [|x rows IH]; [done|].
    destruct Hchain as [Hx Hrest]. split; [|by apply IH]. by destruct rows. }
  assert (total_duration (table_row es ef ls lf <$> rows) = total_duration rows) as ->.
  { clear. induction rows as [|x rows IH]; [done|].
    rewrite fmap_cons. unfold total_duration in *. simpl. f_equal. exact IH. }
  destruct rows as [|first rows].
  - unfold total_duration. simpl.
    destruct (col_max_spec ((λ row, ef !! Task row) <$> df)) as (f & Hf & Hin & _).
    { intros Hnil. by rewrite Hnil in Hfin. }
    { intros c (row & -> & Hrow)%list_elem_of_fmap.
      destruct (Hsolved row Hrow) as (_ & _ & -> & _). by eexists. }
    apply list_elem_of_fmap in Hin as (row & Hrow_ef & Hrow).
    destruct (Hsolved row Hrow) as (_ & _ & Hef & _).
    specialize (H0 row Hrow). specialize (Hnonneg row Hrow).
    assert (f = finish) as -> by congruence.
    assert (early_start ef row + Duration row = finish) by congruence. lia.
  - destruct (chain_within_early_times df es ef ls lf _ first rows Hsolved Hrows Hchain')
      as (last & Hlast & Hle).
    specialize (H0 first (Hrows first ltac:(left))).
    specialize (Hcap last (Hrows last Hlast)). lia.
Qed.

Lemma no_chain_exceeds_project_finish_witness :
  ∃ out, run_cpm 4 branches_csv = Some out ∧
    Task <$> out = csv_Task <$> branches_csv ∧
    Duration <$> out = csv_Duration <$> branches_csv ∧

    ∀ path finish,
      col_max (EF <$> out) = Some finish →
      (∀ r, r ∈ path → r ∈ out) → chained path →
      total_duration path ≤ finish.
Proof.
  apply (no_chain_exceeds_project_finish branches_csv 4).
  - apply (valid_acyclicb_sound branches_rank). vm_compute. reflexivity.
  - vm_compute. reflexivity.
  - simpl. lia.
Defined.

(** ** Durations are not checked *)

(** X18. Durations are never validated: on every schedule with unique
    names, resolvable predecessors, no cycle and integer durations
    whose absolute values add up to less than [2 ^ 63], whatever the
    signs of the durations, the pipeline returns a table that keeps the
    names and durations of the input rows and in which every row has
    [EF = ES + Duration], [LF = LS + Duration] and a slack [LS - ES] that
    is not negative. *)
Theorem durations_are_not_checked csv fuel :
  unique_names (load_and_prepare_data csv) → resolvable (load_and_prepare_data csv) →
  acyclic (load_and_prepare_data csv) → fits_int64 csv → (length csv ≤ fuel)%nat →
  ∃ out, run_cpm fuel csv = Some out ∧
    Task <$> out = csv_Task <$> csv ∧
    Duration <$> out = csv_Duration <$> csv ∧

    ∀ row, row ∈ out →
      ∃ es ls, ES row = Some es ∧ EF row = Some (es + Duration row) ∧
               LS row = Some ls ∧ LF row = Some (ls + Duration row) ∧
               Slack row = Some (ls - es) ∧ 0 ≤ ls - es.
Proof.
  intros Hunique Hres Hacyc Hfits Hfuel.
  destruct (run_cpm_equations csv fuel Hunique Hres Hacyc Hfuel)
    as (es & ef & ls & lf & Hrun & Hsolved).
  destruct (run_cpm_columns _ _ _ Hrun) as (Htasks & Hdurations & _).
  eexists. split; [exact Hrun|]. split; [exact Htasks|]. split; [exact Hdurations|].
  intros r (row & Hrow & ->)%table_row_elem.
  destruct (Hsolved row Hrow) as (_ & Hes & Hef & _ & l & f & _ & Hls & Hlf & _ & Hle & _).
  exists (early_start ef row), l. simpl. rewrite Hes, Hef, Hls, Hlf. simpl.
  split_and!; [done..|lia].
Qed.

Lemma durations_are_not_checked_witness :
  ¬ nonneg_durations (load_and_prepare_data negative_csv) ∧
  ∃ out, run_cpm 2 negative_csv = Some out ∧
    Task <$> out = csv_Task <$> negative_csv ∧
    Duration <$> out = csv_Duration <$> negative_csv ∧

    ∀ row, row ∈ out →
      ∃ es ls, ES row = Some es ∧ EF row = Some (es + Duration row) ∧
               LS row = Some ls ∧ LF row = Some (ls + Duration row) ∧
               Slack row = Some (ls - es) ∧ 0 ≤ ls - es.
Proof.
  split.
  - intros Hnn.
    assert (0 ≤ -2) as Habs; [|lia].
    apply (Hnn (mkRow "S" (-2) ["A"%string] (Some 0) (Some 0) (Some 0) (Some 0) (Some 0)
                  false [])).
    apply list_elem_of_lookup_2 with 1%nat. vm_compute. reflexivity.
  - apply (durations_are_not_checked negative_csv 2).
    + apply (bool_decide_unpack _). vm_compute. exact I.
    + apply resolvableb_sound. vm_compute. reflexivity.
    + apply (ranked_acyclic unsorted_rank). vm_compute. reflexivity.
    + vm_compute. reflexivity.
    + simpl. lia.
Defined.

(** ** The backward loop has no progress check either *)

Lemma tc_first {A} (R : relation A) x z : tc R x z → ∃ y, R x y ∧ rtc R y z.
Proof.
  destruct 1 as [x z Hxz|x y z Hxy Hyz].
  - exists z. split; [done|apply rtc_refl].
  - exists y. split; [done|by apply tc_rtc].
Qed.

Section blocked_late.
Variable df : DataFrame.
Variable pf : cell.
Variable B : string → Prop.
Hypothesis Hblocked : ∀ row, row ∈ df → B (Task row) →
  ∃ s, s ∈ Successors row ∧ B s.

Lemma blocked_late_inv_preserved :
  sweep_preserves ls_lf_ready (ls_lf_store pf) (blocked_late_inv df B).
Proof.
  intros [ls lf] remaining i row (Hsub & Hnone & Hstay) Hin Hready. simpl in Hnone.
  assert (row ∈ df) as Hrow by apply (iterrows_row _ _ (Hsub _ Hin)).
  assert (¬ B (Task row)) as Hoff.
  { intros HB. destruct (Hblocked _ Hrow HB) as (s & Hs & HBs).
    apply (ls_lf_ready_elem _ _ _ Hready) in Hs as [e He]. simpl in He.
    rewrite (Hnone s HBs) in He. done. }
  split; [|split].
  - intros ir [_ Hir]%drop_label_elem. by apply Hsub.
  - intros n Hn. simpl. rewrite lookup_insert_ne; [by apply Hnone|].
    intros <-. by apply Hoff.
  - intros [j row'] Hir HB. simpl in *. apply drop_label_elem. split; [|by apply Hstay].
    simpl. intros ->. apply Hsub, iterrows_lookup in Hin. apply iterrows_lookup in Hir.
    assert (row' = row) as -> by congruence. by apply Hoff.
Qed.

Lemma ls_lf_loop_blocked fuel lf0 :
  (∃ row, row ∈ df ∧ B (Task row)) →
  while_remaining ls_lf_ready (ls_lf_store pf) fuel (∅, lf0) (iterrows df) = None.
Proof.
  intros (row & Hrow & HB).
  apply (while_remaining_starves _ _ (blocked_late_inv df B)).
  - apply blocked_late_inv_preserved.
  - intros st remaining (_ & _ & Hstay) ->.
    destruct (row_iterrows _ _ Hrow) as [i Hi].
    apply Hstay in Hi; [|done]. by apply elem_of_nil in Hi.
  - split; [done|]. split; [|done]. intros n' _. apply lookup_empty.
Qed.
End blocked_late.

(** X19. [calculate_ls_lf] has no cycle guard of its own: on a frame with
    a consistent successor column whose precedence relation contains a
    cycle, it returns nothing, whatever the number of iterations. *)
Theorem backward_pass_never_returns_on_cycle df :
  successors_consistent df → has_cycle df →
  ∀ fuel, calculate_ls_lf fuel df = None.
Proof.
  intros Hcons [n Hn] fuel.
  unfold calculate_ls_lf, ls_lf_loop. cbv zeta.
  rewrite (ls_lf_loop_blocked df _ (λ n, tc (pred_edge df) n n)); [done| |].
  - intros row Hrow Hcyc.
    destruct (tc_first _ _ _ Hcyc) as (s & Hedge & Hback).
    exists s. split.
    + by apply Hcons.
    + eapply tc_rtc_l; [exact Hback|]. by apply tc_once.
  - destruct (tc_last _ _ _ Hn) as (p & _ & row & Hrow & Hname & _).
    exists row. by rewrite Hname.
Qed.

Lemma backward_pass_never_returns_on_cycle_witness :
  has_cycle (load_and_prepare_data cyclic_csv) ∧
  ∀ fuel, calculate_ls_lf fuel (load_and_prepare_data cyclic_csv) = None.
Proof.
  assert (has_cycle (load_and_prepare_data cyclic_csv)) as Hcycle.
  { apply (cycle_walkb_sound _ "A" ["B"%string]). vm_compute. reflexivity. }
  split; [exact Hcycle|].
  exact (backward_pass_never_returns_on_cycle (load_and_prepare_data cyclic_csv)
           (load_successors_consistent cyclic_csv) Hcycle).
Defined.

(** ** No partial result *)

(** X20. [calculate_es_ef] never returns a partly filled frame: whenever
    it returns, on any frame and after any number of iterations, every
    [ES] and [EF] cell holds an integer, the rows and their input columns
    are those of the frame it was given, and no cell is [NaN]. *)
Theorem forward_pass_returns_no_partial_result fuel df df1 :
  calculate_es_ef fuel df = Some df1 →
  core <$> df1 = core <$> df ∧
  ∀ row, row ∈ df1 → is_Some (ES row) ∧ is_Some (EF row).
Proof.
  unfold calculate_es_ef.
  destruct (es_ef_loop fuel df) as [[es ef]|] eqn:Hrun; [|done]. simpl.
  intros [= <-]. split.
  { rewrite <- list_fmap_compose. by apply list_fmap_ext. }
  intros r (row & -> & Hrow)%list_elem_of_fmap.
  destruct (es_ef_last_stored fuel df es ef row Hrun Hrow)
    as (before & r0 & after & _ & _ & _ & Hes & Hef).
  rewrite Hes, Hef. split; by eexists.
Qed.

Lemma forward_pass_returns_no_partial_result_witness :
  ∃ df1, calculate_es_ef 3 (load_and_prepare_data duplicate_csv) = Some df1 ∧
    core <$> df1 = core <$> load_and_prepare_data duplicate_csv ∧
    ∀ row, row ∈ df1 → is_Some (ES row) ∧ is_Some (EF row).
Proof.
  eexists. split; [vm_compute; reflexivity|].
  eapply (forward_pass_returns_no_partial_result 3 (load_and_prepare_data duplicate_csv)).
  vm_compute. reflexivity.
Defined.

(** * Integer and fractional durations *)

(** ** The figures of a valid schedule fit [int64] *)

Lemma total_duration_perm (rows rows' : list Row) :
  rows ≡ₚ rows' → total_duration rows = total_duration rows'.
Proof.
  unfold total_duration. induction 1; simpl; lia.
Qed.

Lemma total_duration_load csv :
  total_duration (load_and_prepare_data csv) ≤ durations_total csv.
Proof.
  unfold load_and_prepare_data. cbv zeta.
  generalize (build_successors_map
    ((λ r : string * Z * list string, (r.1.1, r.2)) <$>
     ((λ c, (csv_Task c, csv_Duration c, parse_predecessors (csv_Predecessors c))) <$> csv))).
  intros m. unfold total_duration, durations_total.
  induction csv as [|c csv IH]; [simpl; lia|].
  rewrite !fmap_cons. cbn [foldr]. cbn [Duration fst snd]. lia.
Qed.

(** The forward loop on non-negative durations: every entry of the two
    dictionaries lies between 0 and the durations of the frame added
    up. *)
Lemma es_ef_loop_within_total df fuel es ef :
  nonneg_durations df → es_ef_loop fuel df = Some (es, ef) →
  (∀ n e, es !! n = Some e → 0 ≤ e) ∧
  (∀ n e, ef !! n = Some e → 0 ≤ e ≤ total_duration df).
Proof.
  intros Hnonneg Hrun. unfold es_ef_loop in Hrun.
  set (I := λ (st : gmap string Z * gmap string Z) (remaining : list (nat * Row)),
         NoDup remaining.*1 ∧
         (∀ ir, ir ∈ remaining → 0 ≤ Duration ir.2) ∧
         total_duration remaining.*2 ≤ total_duration df ∧
         (∀ n e, st.1 !! n = Some e → 0 ≤ e) ∧
         (∀ n e, st.2 !! n = Some e →
                 0 ≤ e ∧ e + total_duration remaining.*2 ≤ total_duration df)).
  apply (while_remaining_inv _ _ I) in Hrun.
  - destruct Hrun as (_ & _ & _ & Hes & Hef). split; [done|].
    intros n e He. destruct (Hef n e He) as [H0 Hle].
    unfold total_duration in Hle at 1. simpl in Hle. lia.
  - intros [es0 ef0] remaining i row (Hnd & Hdur & Htot & Hes & Hef) Hin Hready.
    simpl in *.
    pose proof (drop_label_perm i row remaining Hnd Hin) as Hperm.
    assert (total_duration remaining.*2 =
            Duration row + total_duration (drop_label i remaining).*2) as Hsum.
    { rewrite (total_duration_perm _ _ (fmap_Permutation snd _ _ Hperm)). done. }
    pose proof (Hdur _ Hin) as Hd. simpl in Hd.
    assert (0 ≤ early_start ef0 row ∧
            early_start ef0 row + total_duration remaining.*2 ≤ total_duration df) as [Hes0 Hes1].
    { destruct (Predecessors row) as [|p0 ps] eqn:Hpreds.
      { unfold early_start. rewrite Hpreds. simpl. lia. }
      destruct (early_start_attained ef0 row) as (p & Hp & <-); [by rewrite Hpreds|].
      destruct (es_ef_ready_elem (es0, ef0) row p Hready Hp) as [e He]. simpl in He.
      rewrite lookup_total_alt, He. simpl. by apply (Hef p). }
    unfold I, es_ef_store. simpl. split_and!.
    + by apply drop_label_labels.
    + intros ir [_ Hir]%drop_label_elem. by apply Hdur.
    + lia.
    + intros n e. rewrite lookup_insert_Some. intros [[_ <-]|[_ He]]; [done|by apply (Hes n)].
    + intros n e. rewrite lookup_insert_Some. intros [[_ <-]|[_ He]]; [lia|].
      destruct (Hef n e He). lia.
  - unfold I. simpl. split_and!.
    + apply iterrows_labels.
    + intros ir Hir. by apply Hnonneg, iterrows_row.
    + by rewrite iterrows_rows.
    + intros n e. by rewrite lookup_empty.
    + intros n e. by rewrite lookup_empty.
Qed.

(** On a valid acyclic schedule whose durations add up to less than
    [2 ^ 63], every figure of the finished table is an [int64]: the early
    start is not negative, the late start is not before it, and the late
    finish is below [2 ^ 63]. *)
Lemma run_cpm_int64 csv fuel out :
  valid_acyclic (load_and_prepare_data csv) → fits_int64 csv → (length csv ≤ fuel)%nat →
  run_cpm fuel csv = Some out →
  ∀ row, row ∈ out →
    ∃ es ls, ES row = Some es ∧ LS row = Some ls ∧
             0 ≤ es ∧ es ≤ ls ∧ 0 ≤ Duration row ∧ ls + Duration row < 2 ^ 63.
Proof.
  intros Hvalid Hfits Hfuel Hrun row Hrow.
  pose proof Hvalid as [Hunique Hres Hnonneg Hacyc].
  destruct (run_cpm_valid csv fuel Hvalid Hfuel) as (df1 & out' & Hdf1 & Hrun' & _ & Hrows).
  assert (out' = out) as -> by congruence.
  destruct (run_cpm_exits csv fuel Hres Hacyc Hfuel)
    as (es & ef & ls & lf & df1' & Hdf1' & Hfwd & Hcalc & _ & Hrun'').
  assert (df1' = df1) as -> by congruence.
  destruct (es_ef_loop_within_total _ _ _ _ Hnonneg Hfwd) as [Hes Hef].
  pose proof (total_duration_load csv) as Htotal. unfold fits_int64 in Hfits.
  destruct (Hrows row Hrow) as (e & l & f & He & _ & Hl & _ & _ & _ & Hf & Hle & _ & Hcap).
  (* The row of the frame behind [row]. *)
  assert (∃ row0, row0 ∈ load_and_prepare_data csv ∧ ES row = es !! Task row0 ∧
                  Duration row = Duration row0) as (row0 & Hrow0 & Hes0 & Hd0).
  { rewrite Hrun'' in Hrun. injection Hrun as <-.
    apply calculate_slack_row in Hrow as (row2 & Hrow2 & ->).
    apply list_elem_of_fmap in Hrow2 as (row1 & -> & Hrow1).
    rewrite Hdf1' in Hrow1. apply list_elem_of_fmap in Hrow1 as (row0 & -> & Hrow0).
    by exists row0. }
  (* The project finish is an entry of [ef_dict]. *)
  assert (∃ n, ef !! n = Some f) as (n & Hn).
  { unfold project_finish in Hf.
    destruct (omap id (EF <$> df1)) as [|x xs] eqn:Hcol;
      unfold col_max in Hf; rewrite Hcol in Hf; [done|].
    injection Hf as <-.
    pose proof (py_max_elem x xs) as Hin. rewrite <- Hcol in Hin.
    apply list_elem_of_omap in Hin as (c & Hc & Hid). unfold id in Hid. subst c.
    rewrite Hdf1' in Hc. apply list_elem_of_fmap in Hc as (r1 & Hr1 & Hc).
    apply list_elem_of_fmap in Hc as (r0 & -> & _). simpl in Hr1. by exists (Task r0). }
  exists e, l. rewrite Hd0.
  pose proof (Hnonneg row0 Hrow0) as Hd.
  destruct (Hef n f Hn) as [_ Hfle].
  rewrite Hd0 in Hcap.
  split_and!; [done|done| |done|done|lia].
  apply (Hes (Task row0)). by rewrite <- Hes0.
Qed.

(** Beyond the bound: on [huge_csv] every duration is an [int64], but
    the early finish of [B] is [2 ^ 63], which is none, so pandas cannot
    type the [EF] column [int64]. *)
Example huge_figures_leave_int64 :
  ¬ fits_int64 huge_csv ∧
  (∀ c, c ∈ huge_csv → 0 ≤ csv_Duration c < 2 ^ 63) ∧
  ∃ out, run_cpm 3 huge_csv = Some out ∧
         EF <$> out = [Some (2 ^ 62); Some (2 ^ 63); Some (2 ^ 63 - 2)].
Proof.
  split_and!.
  - unfold fits_int64. vm_compute. by intros [=].
  - intros c Hc. unfold huge_csv in Hc.
    repeat (apply elem_of_cons in Hc as [->|Hc]; [simpl; lia|]).
    by apply elem_of_nil in Hc.
  - eexists. split; vm_compute; reflexivity.
Qed.

(** ** The span of the project *)

(** X10. On a valid acyclic schedule with integer durations that add
    up to less than [2 ^ 63] the finished table keeps the names and
    durations of the input rows and the four times of every row lie
    inside the project span: [0 ≤ ES ≤ EF ≤ LF ≤ finish] and
    [ES ≤ LS ≤ LF], where [finish] is the maximum of the [EF] column and
    is below [2 ^ 63]. *)
Theorem times_within_project_span csv fuel :
  valid_acyclic (load_and_prepare_data csv) → fits_int64 csv → (length csv ≤ fuel)%nat →
  ∃ out, run_cpm fuel csv = Some out ∧
    Task <$> out = csv_Task <$> csv ∧
    Duration <$> out = csv_Duration <$> csv ∧
    ∀ row, row ∈ out →
      ∃ es ef ls lf finish,
        ES row = Some es ∧ EF row = Some ef ∧ LS row = Some ls ∧ LF row = Some lf ∧
        col_max (EF <$> out) = Some finish ∧
        0 ≤ es ∧ es ≤ ef ∧ ef ≤ lf ∧ lf ≤ finish ∧ es ≤ ls ∧ ls ≤ lf ∧ finish < 2 ^ 63.
Proof.
  intros Hvalid Hfits Hfuel. pose proof Hvalid as [Hunique Hres Hnonneg Hacyc].
  destruct (run_cpm_equations csv fuel Hunique Hres Hacyc Hfuel)
    as (es & ef & ls & lf & Hrun & Hsolved).
  destruct (run_cpm_columns _ _ _ Hrun) as (Htasks & Hdurations & _).
  pose proof (run_cpm_int64 csv fuel _ Hvalid Hfits Hfuel Hrun) as Hint.
  set (df := load_and_prepare_data csv) in *.
  eexists. split; [exact Hrun|]. split; [exact Htasks|]. split; [exact Hdurations|].
  assert (EF <$> (table_row es ef ls lf <$> df) = (λ row, ef !! Task row) <$> df) as Hcol.
  { rewrite <- list_fmap_compose. by apply list_fmap_ext. }
  rewrite Hcol.
  intros r (row & Hrow & ->)%table_row_elem.
  pose proof (early_start_nonneg df es ef ls lf _ Hres Hacyc Hnonneg Hsolved row Hrow) as H0.
  destruct (Hsolved row Hrow)
    as (_ & Hes & Hef & _ & l & f & Hpf & Hls & Hlf & _ & Hle & _ & Hfin).
  specialize (Hfin Hnonneg). specialize (Hnonneg row Hrow).
  (* The project finish is the early finish of a row, whose late finish
     is below the bound. *)
  assert (f < 2 ^ 63) as Hbound.
  { destruct (col_max_spec ((λ row, ef !! Task row) <$> df)) as (f' & Hf' & Hin & _).
    { intros Hnil%fmap_nil_inv. rewrite Hnil in Hrow. by apply elem_of_nil in Hrow. }
    { intros c (r0 & -> & Hr0)%list_elem_of_fmap.
      destruct (Hsolved r0 Hr0) as (_ & _ & -> & _). by eexists. }
    assert (f' = f) as -> by congruence.
    apply list_elem_of_fmap in Hin as (r0 & Hr0ef & Hr0).
    destruct (Hsolved r0 Hr0) as (_ & Hes0 & Hef0 & _).
    destruct (Hint (table_row es ef ls lf r0)) as (e0 & l0 & He0 & _ & _ & Hle0 & _ & Hcap0).
    { apply table_row_elem. by exists r0. }
    simpl in He0, Hcap0. rewrite Hes0 in He0. injection He0 as <-.
    rewrite Hef0 in Hr0ef. injection Hr0ef as ->. lia. }
  exists (early_start ef row), (early_start ef row + Duration row), l, (l + Duration row), f.
  simpl. rewrite Hes, Hef, Hls, Hlf. split_and!; [done..|lia|lia|lia|lia|lia|lia|lia].
Qed.

Lemma times_within_project_span_witness :
  ∃ out, run_cpm 4 branches_csv = Some out ∧
    Task <$> out = csv_Task <$> branches_csv ∧
    Duration <$> out = csv_Duration <$> branches_csv ∧
    ∀ row, row ∈ out →
      ∃ es ef ls lf finish,
        ES row = Some es ∧ EF row = Some ef ∧ LS row = Some ls ∧ LF row = Some lf ∧
        col_max (EF <$> out) = Some finish ∧
        0 ≤ es ∧ es ≤ ef ∧ ef ≤ lf ∧ lf ≤ finish ∧ es ≤ ls ∧ ls ≤ lf ∧ finish < 2 ^ 63.
Proof.
  apply (times_within_project_span branches_csv 4).
  - apply (valid_acyclicb_sound branches_rank). vm_compute. reflexivity.
  - vm_compute. reflexivity.
  - simpl. lia.
Defined.

(** ** Checking a concrete schedule with fractional durations *)

(** The durations of the schedules below are what the decimals 0.1, 0.2,
    0.3 and 0.7 of a file are read as: the nearest binary64 numbers. *)
#[warnings="-inexact-float"] Example decimal_durations :
  Binary64.d0_1 = 0.1%float ∧ Binary64.d0_2 = 0.2%float ∧
  Binary64.d0_3 = 0.3%float ∧ Binary64.d0_7 = 0.7%float.
Proof. repeat split; reflexivity. Qed.

(** Small integers are binary64 numbers and their sums are exact: on the
    parallel branches of the documentation the [float64] frame gets the
    figures of [branches_table]. *)
Example binary64_branches_table :
  Binary64.summary <$> Binary64.run_cpm 4 Binary64.branches_csv =
  Some [ ("A"%string, 0%float, 2%float, 0%float, 2%float, 0%float, true);
         ("B"%string, 2%float, 7%float, 2%float, 7%float, 0%float, true);
         ("C"%string, 2%float, 3%float, 6%float, 7%float, 4%float, false);
         ("D"%string, 7%float, 8%float, 7%float, 8%float, 0%float, true) ].
Proof. vm_compute. reflexivity. Qed.

Example binary64_branches_path :
  Binary64.print_critical_path <$> Binary64.run_cpm 4 Binary64.branches_csv =
  Some "A -> B -> D"%string.
Proof. vm_compute. reflexivity. Qed.

Lemma binary64_valid_acyclicb_sound rank df :
  Binary64.valid_acyclicb rank df = true → Binary64.valid_acyclic df.
Proof.
  unfold Binary64.valid_acyclicb. rewrite !andb_true_iff.
  intros [[[Hu Hr] Hn] Ha]. split.
  - by apply bool_decide_eq_true in Hu.
  - intros row p Hrow Hp. rewrite forallb_elem in Hr. apply Hr in Hrow.
    rewrite forallb_elem in Hrow. by apply Hrow, bool_decide_eq_true in Hp.
  - intros row Hrow. rewrite forallb_elem in Hn. by apply Hn.
  - rewrite forallb_elem in Ha.
    assert (∀ x y, Binary64.pred_edge df x y → (rank x < rank y)%nat) as Hedge.
    { intros x y (row & Hrow & <- & Hx). apply Ha in Hrow.
      rewrite forallb_elem in Hrow. by apply Hrow, bool_decide_eq_true in Hx. }
    assert (∀ x y, tc (Binary64.pred_edge df) x y → (rank x < rank y)%nat) as Htc.
    { induction 1 as [x y Hxy|x y z Hxy _ IH]; [by apply Hedge|].
      apply Hedge in Hxy. lia. }
    intros n Hn'. apply Htc in Hn'. lia.
Qed.

(** ** Fractional durations: the claims that fail in binary64 *)

(** C8, counterexample. On the chain [A; B; C] with durations 0.3, 0.1
    and 0.2 the backward pass stores for [B] the late finish
    [LS(C) = 0.6000000000000001 - 0.2] and the late start [LF(B) - 0.1],
    both rounded; adding the duration back to the late start gives
    0.4 and not the late finish 0.4000000000000001. *)
Lemma late_finish_is_not_late_start_plus_duration :
  Binary64.valid_acyclic (Binary64.load_and_prepare_data Binary64.mixed_chain_csv) ∧
  ∃ out, Binary64.run_cpm 3 Binary64.mixed_chain_csv = Some out ∧
    (λ row, (Binary64.Task row, Binary64.LS row, Binary64.Duration row, Binary64.LF row))
      <$> out =
      [ ("A"%string, 0x1p-54%float, 0x1.3333333333333p-2%float, 0x1.3333333333334p-2%float);
        ("B"%string, 0x1.3333333333334p-2%float, 0x1.999999999999ap-4%float,
         0x1.999999999999bp-2%float);
        ("C"%string, 0x1.999999999999bp-2%float, 0x1.999999999999ap-3%float,
         0x1.3333333333334p-1%float) ] ∧
    (λ row, (Binary64.LS row + Binary64.Duration row)%float) <$> out =
      [ 0x1.3333333333334p-2%float; 0x1.999999999999ap-2%float; 0x1.3333333333334p-1%float ] ∧
    (λ row, (Binary64.LS row + Binary64.Duration row =? Binary64.LF row)%float) <$> out =
      [ true; false; true ].
Proof.
  split.
  { apply (binary64_valid_acyclicb_sound Binary64.chain_rank). vm_compute. reflexivity. }
  eexists. split; [vm_compute; reflexivity|].
  split_and!; vm_compute; reflexivity.
Qed.

(** C5, counterexample. On [A(0.1); B(0.7, after A)] the project finish
    is [0.1 + 0.7 = 0.7999999999999999]; the late start of [B] is that
    minus 0.7, which is 0.09999999999999998 and lies before its early
    start 0.1. Both rows end with the slack [-2^-55]. *)
Lemma slack_is_negative_with_fractional_durations :
  Binary64.valid_acyclic (Binary64.load_and_prepare_data Binary64.pair_csv) ∧
  ∃ out, Binary64.run_cpm 2 Binary64.pair_csv = Some out ∧
    (λ row, (Binary64.Task row, Binary64.ES row, Binary64.LS row, Binary64.Slack row))
      <$> out =
      [ ("A"%string, 0%float, (-0x1p-55)%float, (-0x1p-55)%float);
        ("B"%string, 0x1.999999999999ap-4%float, 0x1.9999999999998p-4%float,
         (-0x1p-55)%float) ] ∧
    ∀ row, row ∈ out →
      Binary64.Slack row = (Binary64.LS row - Binary64.ES row)%float ∧
      (Binary64.Slack row <? 0)%float = true.
Proof.
  split.
  { apply (binary64_valid_acyclicb_sound Binary64.chain_rank). vm_compute. reflexivity. }
  eexists. split; [vm_compute; reflexivity|].
  split; [vm_compute; reflexivity|].
  intros row Hrow.
  repeat (apply elem_of_cons in Hrow as [->|Hrow]; [split; vm_compute; reflexivity|]).
  by apply elem_of_nil in Hrow.
Qed.

(** C9, counterexample. On the same schedule the two forms of the slack
    differ for [B]: [LS - ES] is [-2^-55], [LF - EF] is 0. The [Slack]
    column holds the first, so [B] is not critical, although its late
    finish is its early finish. *)
Lemma slack_forms_differ_with_fractional_durations :
  Binary64.valid_acyclic (Binary64.load_and_prepare_data Binary64.pair_csv) ∧
  ∃ out, Binary64.run_cpm 2 Binary64.pair_csv = Some out ∧
    (λ row, (Binary64.Task row, Binary64.Slack row,
             (Binary64.LS row - Binary64.ES row)%float,
             (Binary64.LF row - Binary64.EF row)%float, Binary64.Critical row)) <$> out =
      [ ("A"%string, (-0x1p-55)%float, (-0x1p-55)%float, (-0x1p-55)%float, false);
        ("B"%string, (-0x1p-55)%float, (-0x1p-55)%float, 0%float, false) ] ∧
    (λ row, ((Binary64.LS row - Binary64.ES row) =?
             (Binary64.LF row - Binary64.EF row))%float) <$> out = [ true; false ].
Proof.
  split.
  { apply (binary64_valid_acyclicb_sound Binary64.chain_rank). vm_compute. reflexivity. }
  eexists. split; [vm_compute; reflexivity|].
  split; vm_compute; reflexivity.
Qed.

(** C7, counterexample. On the chain [A; B; C] with durations 0.1, 0.2
    and 0.3 every row ends with a slack of a few [2^-54]: no slack is 0,
    no row is marked critical and the printed critical path is empty. *)
Lemma no_activity_is_critical_with_fractional_durations :
  Binary64.valid_acyclic (Binary64.load_and_prepare_data Binary64.rising_chain_csv) ∧
  Binary64.rising_chain_csv ≠ [] ∧
  ∃ out, Binary64.run_cpm 3 Binary64.rising_chain_csv = Some out ∧
    (λ row, (Binary64.Task row, Binary64.Slack row, (Binary64.Slack row =? 0)%float,
             Binary64.Critical row)) <$> out =
      [ ("A"%string, 0x1.8p-54%float, false, false);
        ("B"%string, 0x1.8p-54%float, false, false);
        ("C"%string, 0x1p-54%float, false, false) ] ∧
    Binary64.critical_tasks out = [] ∧
    Binary64.print_critical_path out = EmptyString.
Proof.
  split.
  { apply (binary64_valid_acyclicb_sound Binary64.chain_rank). vm_compute. reflexivity. }
  split; [unfold Binary64.rising_chain_csv; discriminate|].
  eexists. split; [vm_compute; reflexivity|].
  split_and!; vm_compute; reflexivity.
Qed.

(** ** Integer durations: the claims as amended *)

(** C8, as amended. On every valid acyclic schedule with integer
    durations that add up to less than [2 ^ 63] the pipeline returns a
    table (one unit of fuel per row suffices) that keeps the names and
    durations of the input rows and in which every row has
    [EF = ES + Duration] and [LF = LS + Duration], all four being
    [int64] numbers. *)
Theorem finish_is_start_plus_duration csv fuel :
  valid_acyclic (load_and_prepare_data csv) → fits_int64 csv → (length csv ≤ fuel)%nat →
  ∃ out, run_cpm fuel csv = Some out ∧
         Task <$> out = csv_Task <$> csv ∧
         Duration <$> out = csv_Duration <$> csv ∧
         ∀ row, row ∈ out →
           ∃ es ls, ES row = Some es ∧ EF row = Some (es + Duration row) ∧
                    LS row = Some ls ∧ LF row = Some (ls + Duration row) ∧
                    int64 es ∧ int64 (es + Duration row) ∧
                    int64 ls ∧ int64 (ls + Duration row).
Proof.
  intros Hvalid Hfits Hfuel.
  destruct (run_cpm_valid csv fuel Hvalid Hfuel) as (df1 & out & _ & Hrun & _ & Hrows).
  exists out. destruct (run_cpm_columns _ _ _ Hrun) as (Ht & Hd & _).
  split_and!; [done..|].
  intros row Hrow.
  destruct (Hrows row Hrow) as (e & l & f & Hes & Hef & Hls & Hlf & _).
  destruct (run_cpm_int64 csv fuel out Hvalid Hfits Hfuel Hrun row Hrow)
    as (e' & l' & He' & Hl' & H0 & Hle & Hd0 & Hcap).
  assert (e' = e) as -> by congruence. assert (l' = l) as -> by congruence.
  exists e, l. unfold int64. split_and!; try done; lia.
Qed.

Lemma finish_is_start_plus_duration_witness :
  valid_acyclic (load_and_prepare_data branches_csv) ∧ fits_int64 branches_csv ∧
  (length branches_csv ≤ 4)%nat ∧
  ∃ out, run_cpm 4 branches_csv = Some out ∧
         Task <$> out = csv_Task <$> branches_csv ∧
         Duration <$> out = csv_Duration <$> branches_csv ∧
         ∀ row, row ∈ out →
           ∃ es ls, ES row = Some es ∧ EF row = Some (es + Duration row) ∧
                    LS row = Some ls ∧ LF row = Some (ls + Duration row) ∧
                    int64 es ∧ int64 (es + Duration row) ∧
                    int64 ls ∧ int64 (ls + Duration row).
Proof.
  assert (valid_acyclic (load_and_prepare_data branches_csv)) as Hvalid.
  { apply (valid_acyclicb_sound branches_rank). vm_compute. reflexivity. }
  assert (fits_int64 branches_csv) as Hfits by (vm_compute; reflexivity).
  assert (length branches_csv ≤ 4)%nat as Hfuel by (simpl; lia).
  split; [exact Hvalid|]. split; [exact Hfits|]. split; [exact Hfuel|].
  exact (finish_is_start_plus_duration branches_csv 4 Hvalid Hfits Hfuel).
Defined.

(** C5, as amended. On every valid acyclic schedule with integer
    durations that add up to less than [2 ^ 63] the pipeline returns a
    table that keeps the names and durations of the input rows and in
    which the slack of every row is [LS - ES], an [int64] like [LS] and
    [ES], and is not negative. *)
Theorem slack_nonnegative csv fuel :
  valid_acyclic (load_and_prepare_data csv) → fits_int64 csv → (length csv ≤ fuel)%nat →
  ∃ out, run_cpm fuel csv = Some out ∧
         Task <$> out = csv_Task <$> csv ∧
         Duration <$> out = csv_Duration <$> csv ∧
         ∀ row, row ∈ out →
           ∃ es ls, ES row = Some es ∧ LS row = Some ls ∧
                    int64 es ∧ int64 ls ∧ int64 (ls - es) ∧
                    Slack row = Some (ls - es) ∧ 0 ≤ ls - es.
Proof.
  intros Hvalid Hfits Hfuel.
  destruct (run_cpm_valid csv fuel Hvalid Hfuel) as (df1 & out & _ & Hrun & _ & Hrows).
  exists out. destruct (run_cpm_columns _ _ _ Hrun) as (Ht & Hd & _).
  split_and!; [done..|].
  intros row Hrow.
  destruct (Hrows row Hrow) as (e & l & f & Hes & _ & Hls & _ & Hsl & _ & _ & Hle & _).
  destruct (run_cpm_int64 csv fuel out Hvalid Hfits Hfuel Hrun row Hrow)
    as (e' & l' & He' & Hl' & H0 & _ & Hd0 & Hcap).
  assert (e' = e) as -> by congruence. assert (l' = l) as -> by congruence.
  exists e, l. unfold int64. split_and!; try done; lia.
Qed.

Lemma slack_nonnegative_witness :
  valid_acyclic (load_and_prepare_data branches_csv) ∧ fits_int64 branches_csv ∧
  (length branches_csv ≤ 4)%nat ∧
  ∃ out, run_cpm 4 branches_csv = Some out ∧
         Task <$> out = csv_Task <$> branches_csv ∧
         Duration <$> out = csv_Duration <$> branches_csv ∧
         ∀ row, row ∈ out →
           ∃ es ls, ES row = Some es ∧ LS row = Some ls ∧
                    int64 es ∧ int64 ls ∧ int64 (ls - es) ∧
                    Slack row = Some (ls - es) ∧ 0 ≤ ls - es.
Proof.
  assert (valid_acyclic (load_and_prepare_data branches_csv)) as Hvalid.
  { apply (valid_acyclicb_sound branches_rank). vm_compute. reflexivity. }
  assert (fits_int64 branches_csv) as Hfits by (vm_compute; reflexivity).
  assert (length branches_csv ≤ 4)%nat as Hfuel by (simpl; lia).
  split; [exact Hvalid|]. split; [exact Hfits|]. split; [exact Hfuel|].
  exact (slack_nonnegative branches_csv 4 Hvalid Hfits Hfuel).
Defined.

(** C9, as amended. On every valid acyclic schedule with integer
    durations that add up to less than [2 ^ 63] the pipeline returns a
    table that keeps the names and durations of the input rows and in
    which, for every row, the four times are [int64] numbers, [Slack] is
    [LS - ES], that value is also [LF - EF], and [Critical] is true
    exactly when [Slack] is the integer 0. *)
Theorem slack_forms_agree csv fuel :
  valid_acyclic (load_and_prepare_data csv) → fits_int64 csv → (length csv ≤ fuel)%nat →
  ∃ out, run_cpm fuel csv = Some out ∧
         Task <$> out = csv_Task <$> csv ∧
         Duration <$> out = csv_Duration <$> csv ∧
         ∀ row, row ∈ out →
           ∃ es ef ls lf,
             ES row = Some es ∧ EF row = Some ef ∧ LS row = Some ls ∧ LF row = Some lf ∧
             int64 es ∧ int64 ef ∧ int64 ls ∧ int64 lf ∧
             Slack row = Some (ls - es) ∧ ls - es = lf - ef ∧
             (Critical row = true ↔ Slack row = Some 0).
Proof.
  intros Hvalid Hfits Hfuel.
  destruct (run_cpm_valid csv fuel Hvalid Hfuel) as (df1 & out & _ & Hrun & _ & Hrows).
  exists out. destruct (run_cpm_columns _ _ _ Hrun) as (Ht & Hd & _).
  split_and!; [done..|].
  intros row Hrow.
  destruct (Hrows row Hrow) as (e & l & f & Hes & Hef & Hls & Hlf & Hsl & Hcr & _).
  destruct (run_cpm_int64 csv fuel out Hvalid Hfits Hfuel Hrun row Hrow)
    as (e' & l' & He' & Hl' & H0 & Hle & Hd0 & Hcap).
  assert (e' = e) as -> by congruence. assert (l' = l) as -> by congruence.
  exists e, (e + Duration row), l, (l + Duration row).
  assert (Critical row = true ↔ Slack row = Some 0) as Hiff.
  { rewrite Hcr, Hsl, bool_decide_eq_true. split; [by intros ->|by intros [= ->]]. }
  unfold int64. split_and!; try done; lia.
Qed.

Lemma slack_forms_agree_witness :
  valid_acyclic (load_and_prepare_data branches_csv) ∧ fits_int64 branches_csv ∧
  (length branches_csv ≤ 4)%nat ∧
  ∃ out, run_cpm 4 branches_csv = Some out ∧
         Task <$> out = csv_Task <$> branches_csv ∧
         Duration <$> out = csv_Duration <$> branches_csv ∧
         ∀ row, row ∈ out →
           ∃ es ef ls lf,
             ES row = Some es ∧ EF row = Some ef ∧ LS row = Some ls ∧ LF row = Some lf ∧
             int64 es ∧ int64 ef ∧ int64 ls ∧ int64 lf ∧
             Slack row = Some (ls - es) ∧ ls - es = lf - ef ∧
             (Critical row = true ↔ Slack row = Some 0).
Proof.
  assert (valid_acyclic (load_and_prepare_data branches_csv)) as Hvalid.
  { apply (valid_acyclicb_sound branches_rank). vm_compute. reflexivity. }
  assert (fits_int64 branches_csv) as Hfits by (vm_compute; reflexivity).
  assert (length branches_csv ≤ 4)%nat as Hfuel by (simpl; lia).
  split; [exact Hvalid|]. split; [exact Hfits|]. split; [exact Hfuel|].
  exact (slack_forms_agree branches_csv 4 Hvalid Hfits Hfuel).
Defined.

(** C7, as amended. On every non-empty valid acyclic schedule with
    integer durations that add up to less than [2 ^ 63] the pipeline
    returns a table that keeps the names and durations of the input rows
    and has a row with slack 0, marked critical, so that the list of
    critical tasks is not empty. *)
Theorem some_activity_is_critical csv fuel :
  valid_acyclic (load_and_prepare_data csv) → fits_int64 csv → csv ≠ [] →
  (length csv ≤ fuel)%nat →
  ∃ out, run_cpm fuel csv = Some out ∧
         Task <$> out = csv_Task <$> csv ∧
         Duration <$> out = csv_Duration <$> csv ∧
         (∃ row, row ∈ out ∧ Slack row = Some 0 ∧ Critical row = true) ∧
         critical_tasks out ≠ [].
Proof.
  intros Hvalid Hfits Hne Hfuel.
  destruct (run_cpm_valid_finish csv fuel Hvalid Hne Hfuel)
    as (df1 & out & finish & _ & Hrun & _ & _ & row & Hrow & _ & _ & Hsl & Hcr).
  exists out. destruct (run_cpm_columns _ _ _ Hrun) as (Ht & Hd & _).
  split_and!; [done..|by exists row|].
  unfold critical_tasks. intros Hnil%fmap_nil_inv.
  assert (row ∈ filter (λ row, Critical row = true) out) as Hin
    by by apply list_elem_of_filter.
  rewrite Hnil in Hin. by apply elem_of_nil in Hin.
Qed.

Lemma some_activity_is_critical_witness :
  valid_acyclic (load_and_prepare_data branches_csv) ∧ fits_int64 branches_csv ∧
  branches_csv ≠ [] ∧ (length branches_csv ≤ 4)%nat ∧
  ∃ out, run_cpm 4 branches_csv = Some out ∧
         Task <$> out = csv_Task <$> branches_csv ∧
         Duration <$> out = csv_Duration <$> branches_csv ∧
         (∃ row, row ∈ out ∧ Slack row = Some 0 ∧ Critical row = true) ∧
         critical_tasks out ≠ [].
Proof.
  assert (valid_acyclic (load_and_prepare_data branches_csv)) as Hvalid.
  { apply (valid_acyclicb_sound branches_rank). vm_compute. reflexivity. }
  assert (fits_int64 branches_csv) as Hfits by (vm_compute; reflexivity).
  assert (branches_csv ≠ []) as Hne by (unfold branches_csv; discriminate).
  assert (length branches_csv ≤ 4)%nat as Hfuel by (simpl; lia).
  split; [exact Hvalid|]. split; [exact Hfits|]. split; [exact Hne|]. split; [exact Hfuel|].
  exact (some_activity_is_critical branches_csv 4 Hvalid Hfits Hne Hfuel).
Defined.
